(** * The librsync stream example: framing protocol and buffer pumps

    A shallow embedding of [examples/stream/common.h], [client.c] and
    [server.c].  The two programs exchange an rsync signature and a delta
    over one TCP connection.  [common.h] defines the wire format (a 16-bit
    header followed by the payload); [client.c] and [server.c] each hold two
    loops that move bytes between a file or the socket, an [rs_job_t], and
    the socket or a file, through the two static arrays [in_buf] and
    [out_buf].

    Conventions of the embedding:
    - a byte is a [Byte.byte]; an array is a [list byte] whose length is the
      array's size; a pointer into an array is an offset ([nat]);
    - [size_t] values are [nat] (none of them can reach [2^64] here), the
      [uint16_t] header and every [int] or [ssize_t] is a [Z], with the
      truncation to 16 bits written out;
    - a store outside an array is undefined behaviour in C: the memory
      operations return [None] there, and the functions report it;
    - [assert] is enabled (the sources never define [NDEBUG]): a failed
      assertion ends the run;
    - the socket and the files are explicit values threaded through the
      calls; each carries a script that says how the next [read], [write]
      or [fwrite] calls behave;
    - the librsync job is an unknown of the embedding: a state type and a
      step function, taken as parameters. *)

From Stdlib Require Import ZArith List Lia Bool Arith.
From Stdlib.Strings Require Import Byte.
Import ListNotations.

Set Implicit Arguments.

(** ** Bytes, 16-bit words, network byte order *)

Definition byte : Type := Byte.byte.

Definition Z_of_byte (b : byte) : Z := Z.of_N (Byte.to_N b).

Definition byte_of_Z (z : Z) : byte :=
  match Byte.of_N (Z.to_N (z mod 256)) with
  | Some b => b
  | None => Byte.x00
  end.

Definition UINT16_MAX : Z := 65535.

(** Conversion to [uint16_t]: the low 16 bits. *)
Definition to_uint16 (z : Z) : Z := Z.land z UINT16_MAX.

(** [#define BUFFER_SIZE (UINT16_MAX >> 1)] *)
Definition BUFFER_SIZE : nat := Z.to_nat (Z.shiftr UINT16_MAX 1).

(** The two bytes of [htons(h)] as [write] takes them from memory: network
    order is most significant byte first, whatever the host's order. *)
Definition htons_bytes (h : Z) : list byte :=
  [byte_of_Z (Z.shiftr h 8); byte_of_Z (Z.land h 255)].

(** [ntohs] of the 16-bit cell that [read] filled with [b0] then [b1]. *)
Definition ntohs_bytes (b0 b1 : byte) : Z :=
  Z.lor (Z.shiftl (Z_of_byte b0) 8) (Z_of_byte b1).

(** ** Arrays *)

Module Mem.

(** Bytes [off .. off+n) of an array; [None] outside it. *)
Definition load (mem : list byte) (off n : nat) : option (list byte) :=
  if off + n <=? length mem then Some (firstn n (skipn off mem)) else None.

(** Overwrite bytes [off .. off + length data); [None] outside the array. *)
Definition store (mem : list byte) (off : nat) (data : list byte)
  : option (list byte) :=
  if off + length data <=? length mem
  then Some (firstn off mem ++ data ++ skipn (off + length data) mem)
  else None.

(** [memmove(mem + dst, mem + src, n)]. *)
Definition move (mem : list byte) (dst src n : nat) : option (list byte) :=
  match load mem src n with
  | Some d => store mem dst d
  | None => None
  end.

End Mem.

(** ** The socket

    The sending side accumulates what was written; the receiving side holds
    what the peer wrote and has not been read yet.  A script lists the
    results of the coming calls: a negative entry is a failing call, an
    entry [k] a call that transfers at most [k] bytes.  Once the script is
    used up every call transfers all it can. *)

Record wsock : Type := { w_script : list Z; w_wire : list byte }.

Definition sys_write (s : wsock) (data : list byte) : Z * wsock :=
  match w_script s with
  | [] =>
      (Z.of_nat (length data),
       {| w_script := []; w_wire := w_wire s ++ data |})
  | k :: rest =>
      if (k <? 0)%Z then (-1, {| w_script := rest; w_wire := w_wire s |})%Z
      else
        let d := firstn (Z.to_nat k) data in
        (Z.of_nat (length d), {| w_script := rest; w_wire := w_wire s ++ d |})
  end.

Record rsock : Type := { r_script : list Z; r_wire : list byte }.

Definition sys_read (s : rsock) (count : nat) : Z * list byte * rsock :=
  match r_script s with
  | [] =>
      let d := firstn count (r_wire s) in
      (Z.of_nat (length d), d,
       {| r_script := []; r_wire := skipn count (r_wire s) |})
  | k :: rest =>
      if (k <? 0)%Z then (-1, [], {| r_script := rest; r_wire := r_wire s |})%Z
      else
        let c := Nat.min (Z.to_nat k) count in
        let d := firstn c (r_wire s) in
        (Z.of_nat (length d), d,
         {| r_script := rest; r_wire := skipn c (r_wire s) |})
  end.

(** ** common.h: [send_message] and [recv_message] *)

Inductive send_result : Type :=
| SendAssert (sock : wsock)          (* the assertion on [len] failed *)
| SendRet (ret : Z) (sock : wsock).  (* the function returned [ret] *)

Definition send_message (sock : wsock) (msg : list byte) (len : nat) (eof : Z)
  : send_result :=
  (* assert(len <= (UINT16_MAX >> 1)); *)
  if negb (Z.of_nat len <=? Z.shiftr UINT16_MAX 1)%Z then SendAssert sock
  else
    (* uint16_t header = len << 1; *)
    let header := to_uint16 (Z.shiftl (Z.of_nat len) 1) in
    (* if (eof != 0) header |= 1; *)
    let header := if (eof =? 0)%Z then header else Z.lor header 1 in
    (* header = htons(header); ret = write(sock, &header, sizeof(header)); *)
    let '(ret, sock) := sys_write sock (htons_bytes header) in
    if negb (ret =? 2)%Z then SendRet (-1) sock
    else if 0 <? len then
      (* ret = write(sock, msg, len); *)
      let '(ret, sock) := sys_write sock (firstn len msg) in
      if negb (ret =? Z.of_nat len)%Z then SendRet (-1) sock
      else SendRet 0 sock
    else SendRet 0 sock.

(** [recv_message(sock, mem + off, &len, &eof)].  [cells] is what the call
    left in [*len] and [*eof]: [None] when it returned before assigning
    them. *)
Inductive recv_result : Type :=
| RecvFault                     (* payload stored past the end of the array *)
| RecvRet (ret : Z) (cells : option (nat * Z)) (mem : list byte) (sock : rsock).

Definition recv_message (sock : rsock) (mem : list byte) (off : nat)
  : recv_result :=
  (* ret = read(sock, &header, sizeof(header)); *)
  let '(ret, hdr, sock) := sys_read sock 2 in
  if negb (ret =? 2)%Z then RecvRet (-1) None mem sock
  else
    match hdr with
    | [b0; b1] =>
        (* header = ntohs(header); *)
        let header := ntohs_bytes b0 b1 in
        (* *eof = header & 1;  *len = header >> 1; *)
        let eof := Z.land header 1 in
        let len := Z.to_nat (Z.shiftr header 1) in
        if 0 <? len then
          (* ret = read(sock, msg, *len); *)
          let '(ret, data, sock) := sys_read sock len in
          match Mem.store mem off data with
          | None => RecvFault
          | Some mem =>
              if negb (ret =? Z.of_nat len)%Z
              then RecvRet (-1) (Some (len, eof)) mem sock
              else RecvRet 0 (Some (len, eof)) mem sock
          end
        else RecvRet 0 (Some (len, eof)) mem sock
    | _ => RecvRet (-1) None mem sock  (* [read] returned 2 with 2 bytes *)
    end.

(** ** stdio streams

    A stream opened for reading holds the bytes not read yet and how the
    data ends: at the end of the file or with a read error.  [fread] sets
    the matching indicator when it cannot deliver all it was asked for.  A
    call asking for no element returns 0 and leaves the stream as it was
    (ISO C, 7.21.8.1). *)

Inductive file_end : Type := EndOfFile | ReadError.

Record FILE : Type :=
  { f_data : list byte; f_end : file_end; f_eof : bool; f_err : bool }.

Definition at_eof (e : file_end) : bool :=
  match e with EndOfFile => true | ReadError => false end.

(** [fread(ptr, 1, nmemb, f)]: the bytes delivered and the stream after. *)
Definition fread (f : FILE) (nmemb : nat) : list byte * FILE :=
  if nmemb =? 0 then ([], f)
  else
    let short := length (f_data f) <? nmemb in
    (firstn nmemb (f_data f),
     {| f_data := skipn nmemb (f_data f);
        f_end := f_end f;
        f_eof := f_eof f || (short && at_eof (f_end f));
        f_err := f_err f || (short && negb (at_eof (f_end f))) |}).

Definition ferror (f : FILE) : Z := if f_err f then 1%Z else 0%Z.
Definition feof (f : FILE) : Z := if f_eof f then 1%Z else 0%Z.

(** A stream opened for writing: the bytes written so far, and a script of
    how many elements the coming [fwrite] calls accept at most. *)
Record OFILE : Type := { o_script : list nat; o_data : list byte }.

(** [fwrite(ptr, 1, length data, f)]. *)
Definition fwrite (f : OFILE) (data : list byte) : nat * OFILE :=
  match o_script f with
  | [] => (length data, {| o_script := []; o_data := o_data f ++ data |})
  | k :: rest =>
      let d := firstn k data in
      (length d, {| o_script := rest; o_data := o_data f ++ d |})
  end.

(** ** librsync's interface: [rs_result], [rs_buffers_t] *)

(** Modelled from the spec: the declarations of librsync.h are not among
    these sources.  The loops tell [RS_DONE] and [RS_BLOCKED] from every
    other result, which stands for a failed job. *)
Inductive rs_result : Type := RS_DONE | RS_BLOCKED | RS_FAILED.

Definition is_done (r : rs_result) : bool :=
  match r with RS_DONE => true | _ => false end.

Definition is_blocked (r : rs_result) : bool :=
  match r with RS_BLOCKED => true | _ => false end.

(** Modelled from the spec: [rs_buffers_t], with the five fields the loops
    use.  [next_in] and [next_out] are offsets into [in_buf] and
    [out_buf]. *)
Record rs_buffers : Type :=
  { next_in : nat; avail_in : nat; eof_in : Z;
    next_out : nat; avail_out : nat }.

(** What a run does to the outside, in order. *)
Inductive event : Type :=
| EvFread (nmemb n_bytes : nat) (err : bool)
    (* an [fread] call: elements asked for, elements read, and whether the
       stream's error indicator is set afterwards *)
| EvRecv (ret : Z) (cells : option (nat * Z))
    (* a [recv_message] call *)
| EvJob (res : rs_result) (used : nat) (out : list byte)
    (* an [rs_job_iter] call: input consumed, output stored *)
| EvSend (payload : list byte) (eof : Z) (ret : Z)
    (* a [send_message] call *)
| EvFwrite (nmemb n_bytes : nat).
    (* an [fwrite] call: elements offered, elements accepted *)

(** All a loop works on: the [rs_buffers_t], the two static arrays, the job,
    the file being read, the file being written, the socket, and the record
    of what happened. *)
Record pump (J : Type) : Type :=
  { bufs : rs_buffers;
    in_buf : list byte;
    out_buf : list byte;
    job : J;
    file : FILE;
    new : OFILE;
    sock_in : rsock;
    sock_out : wsock;
    log : list event }.

Inductive abort_cause : Type := AssertLen | AssertEof.

Inductive outcome (S : Type) : Type :=
| Returned (ret : Z) (st : S)            (* the function returned [ret] *)
| Aborted (c : abort_cause) (st : S)     (* an assertion failed *)
| MemFault (st : S)                      (* an access outside an array *)
| OutOfFuel (st : S).                    (* the loop was cut short *)

Inductive step (S : Type) : Type :=
| Continue (st : S)
| Stop (o : outcome S).

Definition final (S : Type) (o : outcome S) : S :=
  match o with
  | Returned _ st | Aborted _ st | MemFault st | OutOfFuel st => st
  end.

(** ** The loops of client.c and server.c *)

Section Pump.

(** The job: its state, and what one [rs_job_iter] call does with the
    readable input [next_in .. next_in + avail_in), the [eof_in] flag and
    [avail_out] bytes of room: a result, how many input bytes it
    consumed, the bytes it stored from [next_out] on, and its next
    state. *)
Variable J : Type.
Variable job_work : J -> list byte -> Z -> nat -> rs_result * nat * list byte * J.

(** [sizeof(in_buf)] and [sizeof(out_buf)]; [BUFFER_SIZE] in the sources. *)
Variable cap : nat.

Local Abbreviation state := (pump J).

Definition set_bufs (st : state) (b : rs_buffers) : state :=
  {| bufs := b; in_buf := in_buf st; out_buf := out_buf st; job := job st;
     file := file st; new := new st; sock_in := sock_in st;
     sock_out := sock_out st; log := log st |}.

Definition set_in_buf (st : state) (m : list byte) : state :=
  {| bufs := bufs st; in_buf := m; out_buf := out_buf st; job := job st;
     file := file st; new := new st; sock_in := sock_in st;
     sock_out := sock_out st; log := log st |}.

Definition set_out_buf (st : state) (m : list byte) : state :=
  {| bufs := bufs st; in_buf := in_buf st; out_buf := m; job := job st;
     file := file st; new := new st; sock_in := sock_in st;
     sock_out := sock_out st; log := log st |}.

Definition set_job (st : state) (j : J) : state :=
  {| bufs := bufs st; in_buf := in_buf st; out_buf := out_buf st; job := j;
     file := file st; new := new st; sock_in := sock_in st;
     sock_out := sock_out st; log := log st |}.

Definition set_file (st : state) (f : FILE) : state :=
  {| bufs := bufs st; in_buf := in_buf st; out_buf := out_buf st;
     job := job st; file := f; new := new st; sock_in := sock_in st;
     sock_out := sock_out st; log := log st |}.

Definition set_new (st : state) (f : OFILE) : state :=
  {| bufs := bufs st; in_buf := in_buf st; out_buf := out_buf st;
     job := job st; file := file st; new := f; sock_in := sock_in st;
     sock_out := sock_out st; log := log st |}.

Definition set_sock_in (st : state) (s : rsock) : state :=
  {| bufs := bufs st; in_buf := in_buf st; out_buf := out_buf st;
     job := job st; file := file st; new := new st; sock_in := s;
     sock_out := sock_out st; log := log st |}.

Definition set_sock_out (st : state) (s : wsock) : state :=
  {| bufs := bufs st; in_buf := in_buf st; out_buf := out_buf st;
     job := job st; file := file st; new := new st; sock_in := sock_in st;
     sock_out := s; log := log st |}.

Definition record (st : state) (e : event) : state :=
  {| bufs := bufs st; in_buf := in_buf st; out_buf := out_buf st;
     job := job st; file := file st; new := new st; sock_in := sock_in st;
     sock_out := sock_out st; log := log st ++ [e] |}.

(** Modelled from the spec: [rs_job_iter(job, &bufs)] is librsync's and not
    among these sources.  The job consumes bytes from the front of the
    input window (advancing [next_in], lowering [avail_in]), stores bytes
    at the back of the output window (advancing [next_out], lowering
    [avail_out]) and returns a status; it is told of the end of the input
    through [eof_in], which it does not change.  A job that claims more
    input than [avail_in] or stores more than [avail_out] bytes has left
    the arrays: [None]. *)
Definition rs_job_iter (st : state) : option (rs_result * state) :=
  let b := bufs st in
  match Mem.load (in_buf st) (next_in b) (avail_in b) with
  | None => None
  | Some window =>
      let '(res, used, out, j) :=
        job_work (job st) window (eof_in b) (avail_out b) in
      if (used <=? avail_in b) && (length out <=? avail_out b) then
        match Mem.store (out_buf st) (next_out b) out with
        | None => None
        | Some ob =>
            let b' := {| next_in := next_in b + used;
                         avail_in := avail_in b - used;
                         eof_in := eof_in b;
                         next_out := next_out b + length out;
                         avail_out := avail_out b - length out |} in
            Some (res,
                  record (set_job (set_out_buf (set_bufs st b') ob) j)
                         (EvJob res used out))
        end
      else None
  end.

(** The first lines of every refill:
    [if (bufs.avail_in > 0) memmove(in_buf, bufs.next_in, bufs.avail_in);] *)
Definition move_tail (st : state) : option (list byte) :=
  let b := bufs st in
  if 0 <? avail_in b
  then Mem.move (in_buf st) 0 (next_in b) (avail_in b)
  else Some (in_buf st).

(** [bufs.next_in = in_buf; bufs.avail_in += n_bytes;] *)
Definition rewind_in (b : rs_buffers) (n_bytes : nat) (eof : Z) : rs_buffers :=
  {| next_in := 0; avail_in := avail_in b + n_bytes; eof_in := eof;
     next_out := next_out b; avail_out := avail_out b |}.

(** The refill of [send_signature] ([asserts_eof = true]) and of
    [send_delta] ([asserts_eof = false]); they differ by
    [assert(bufs.eof_in != 0)] only. *)
Definition refill_file (asserts_eof : bool) (st : state) : step state :=
  let b := bufs st in
  match move_tail st with
  | None => Stop (MemFault st)
  | Some ib =>
      (* n_bytes = fread(in_buf + bufs.avail_in, 1,
                         sizeof(in_buf) - bufs.avail_in, file);
         [avail_in] is at most [cap] whenever the window lies in [in_buf],
         so the unsigned subtraction does not wrap *)
      let nmemb := cap - avail_in b in
      let '(got, f) := fread (file st) nmemb in
      match Mem.store ib (avail_in b) got with
      | None => Stop (MemFault st)
      | Some ib =>
          let n_bytes := length got in
          let st := record (set_file (set_in_buf st ib) f)
                           (EvFread nmemb n_bytes (f_err f)) in
          if n_bytes =? 0 then
            if negb (ferror f =? 0)%Z then Stop (Returned (-1) st)
            else
              (* bufs.eof_in = feof(file); *)
              let e := feof f in
              if asserts_eof && (e =? 0)%Z
              then Stop (Aborted AssertEof
                           (set_bufs st {| next_in := next_in b;
                                           avail_in := avail_in b;
                                           eof_in := e;
                                           next_out := next_out b;
                                           avail_out := avail_out b |}))
              else Continue (set_bufs st (rewind_in b n_bytes e))
          else Continue (set_bufs st (rewind_in b n_bytes (eof_in b)))
      end
  end.

(** The refill of [recv_signature] and [recv_delta_and_patch_file]. *)
Definition refill_socket (st : state) : step state :=
  let b := bufs st in
  match move_tail st with
  | None => Stop (MemFault st)
  | Some ib =>
      (* ret = recv_message(sock, in_buf + bufs.avail_in,
                            &n_bytes, &bufs.eof_in); *)
      match recv_message (sock_in st) ib (avail_in b) with
      | RecvFault => Stop (MemFault st)
      | RecvRet ret cells ib s =>
          let st := record (set_sock_in (set_in_buf st ib) s)
                           (EvRecv ret cells) in
          match cells with
          | None => Stop (Returned (-1) st)
          | Some (n_bytes, e) =>
              if (ret =? -1)%Z
              then Stop (Returned (-1)
                           (set_bufs st {| next_in := next_in b;
                                           avail_in := avail_in b;
                                           eof_in := e;
                                           next_out := next_out b;
                                           avail_out := avail_out b |}))
              else Continue (set_bufs st (rewind_in b n_bytes e))
          end
      end
  end.

(** [bufs.next_out = out_buf; bufs.avail_out = sizeof(out_buf);] *)
Definition rewind_out (b : rs_buffers) : rs_buffers :=
  {| next_in := next_in b; avail_in := avail_in b; eof_in := eof_in b;
     next_out := 0; avail_out := cap |}.

(** The drain of [send_signature] and [send_delta]. *)
Definition drain_socket (st : state) : step state :=
  let b := bufs st in
  (* size_t present = bufs.next_out - out_buf; *)
  let present := next_out b in
  if 0 <? present then
    match send_message (sock_out st) (out_buf st) present (eof_in b) with
    | SendAssert _ => Stop (Aborted AssertLen st)
    | SendRet ret s =>
        let st := record (set_sock_out st s)
                         (EvSend (firstn present (out_buf st)) (eof_in b) ret) in
        if (ret =? -1)%Z then Stop (Returned (-1) st)
        else Continue (set_bufs st (rewind_out b))
    end
  else Continue st.

(** The drain of [recv_delta_and_patch_file]. *)
Definition drain_file (st : state) : step state :=
  let b := bufs st in
  let present := next_out b in
  if 0 <? present then
    (* n_bytes = fwrite(out_buf, 1, present, new); *)
    let '(n_bytes, f) := fwrite (new st) (firstn present (out_buf st)) in
    let st := record (set_new st f) (EvFwrite present n_bytes) in
    if n_bytes =? 0 then Stop (Returned (-1) st)
    else Continue (set_bufs st (rewind_out b))
  else Continue st.

(** [recv_signature] leaves the output to the job. *)
Definition drain_none (st : state) : step state := Continue st.

(** The [do { ... } while (res != RS_DONE);] loop shared by the four
    functions: refill unless [eof_in] is set, iterate the job, drain. *)
Fixpoint pump_loop (refill drain : state -> step state)
         (fuel : nat) (st : state) : outcome state :=
  match fuel with
  | 0 => OutOfFuel st
  | S fuel' =>
      match (if (eof_in (bufs st) =? 0)%Z then refill st else Continue st) with
      | Stop o => o
      | Continue st =>
          (* res = rs_job_iter(job, &bufs); *)
          match rs_job_iter st with
          | None => MemFault st
          | Some (res, st) =>
              if negb (is_done res) && negb (is_blocked res)
              then Returned (-1) st
              else
                match drain st with
                | Stop o => o
                | Continue st =>
                    if is_done res then Returned 0 st
                    else pump_loop refill drain fuel' st
                end
          end
      end
  end.

(** [rs_buffers_t bufs = { 0 }; bufs.next_in = in_buf;
     bufs.next_out = out_buf; bufs.avail_out = sizeof(out_buf);] *)
Definition bufs_in_out : rs_buffers :=
  {| next_in := 0; avail_in := 0; eof_in := 0;
     next_out := 0; avail_out := cap |}.

(** [rs_buffers_t bufs = { 0 }; bufs.next_in = in_buf;] *)
Definition bufs_in_only : rs_buffers :=
  {| next_in := 0; avail_in := 0; eof_in := 0;
     next_out := 0; avail_out := 0 |}.

(** client.c, [send_signature]: [sig_args] is the result of [rs_sig_args],
    [job st] the job [rs_sig_begin] returned, [file st] the basis file. *)
Definition send_signature (sig_args : rs_result) (fuel : nat) (st : state)
  : outcome state :=
  if negb (is_done sig_args) then Returned (-1) st
  else pump_loop (refill_file true) drain_socket fuel (set_bufs st bufs_in_out).

(** server.c, [send_delta]: [hash_table] is the result of
    [rs_build_hash_table], [job st] the job of [rs_delta_begin]. *)
Definition send_delta (hash_table : rs_result) (fuel : nat) (st : state)
  : outcome state :=
  if negb (is_done hash_table) then Returned (-1) st
  else pump_loop (refill_file false) drain_socket fuel (set_bufs st bufs_in_out).

(** server.c, [recv_signature]: [job st] is the job of [rs_loadsig_begin]. *)
Definition recv_signature (fuel : nat) (st : state) : outcome state :=
  pump_loop refill_socket drain_none fuel (set_bufs st bufs_in_only).

(** client.c, [recv_delta_and_patch_file]: [name_fits] is false when
    [snprintf] could not build the name of the new file; [job st] is the
    job of [rs_patch_begin], [new st] the new file. *)
Definition recv_delta_and_patch_file (name_fits : bool) (fuel : nat)
           (st : state) : outcome state :=
  if negb name_fits then Returned (-1) st
  else pump_loop refill_socket drain_file fuel (set_bufs st bufs_in_out).

End Pump.

(** * Vocabulary of the properties *)

(** A socket whose calls all succeed in full. *)
Definition quiet_w (wire : list byte) : wsock :=
  {| w_script := []; w_wire := wire |}.

Definition quiet_r (wire : list byte) : rsock :=
  {| r_script := []; r_wire := wire |}.

(** The header [send_message] computes from [len] and [eof]. *)
Definition header_of (len : nat) (eof : Z) : Z :=
  let h := to_uint16 (Z.shiftl (Z.of_nat len) 1) in
  if (eof =? 0)%Z then h else Z.lor h 1.

(** The flag as it travels: one bit. *)
Definition flag_bit (eof : Z) : Z := if (eof =? 0)%Z then 0%Z else 1%Z.

(** One message on the wire. *)
Definition frame_bytes (payload : list byte) (eof : Z) : list byte :=
  htons_bytes (header_of (length payload) eof) ++ payload.

(** The messages a run handed to [send_message] with success, in order. *)
Fixpoint sent_frames (l : list event) : list (list byte * Z) :=
  match l with
  | [] => []
  | EvSend payload eof ret :: l' =>
      if (ret =? 0)%Z then (payload, eof) :: sent_frames l' else sent_frames l'
  | _ :: l' => sent_frames l'
  end.

(** All the bytes the job stored through [next_out], in order. *)
Fixpoint job_output (l : list event) : list byte :=
  match l with
  | [] => []
  | EvJob _ _ out :: l' => out ++ job_output l'
  | _ :: l' => job_output l'
  end.

(** A pull: a call that asks the source (file or socket) for input. *)
Definition is_pull (e : event) : bool :=
  match e with
  | EvFread _ _ _ | EvRecv _ _ => true
  | _ => false
  end.

(** The wire carried the end-of-file flag. *)
Definition is_wire_eof (e : event) : bool :=
  match e with
  | EvRecv _ (Some (_, eof)) => negb (eof =? 0)%Z
  | _ => false
  end.

(** A pull that reported no new byte and no error. *)
Definition is_empty_pull (e : event) : bool :=
  match e with
  | EvFread _ n_bytes err => (n_bytes =? 0) && negb err
  | _ => is_wire_eof e
  end.

(** The same, for a pull that had asked for at least one byte. *)
Definition is_end_of_data (e : event) : bool :=
  match e with
  | EvFread nmemb n_bytes err => (0 <? nmemb) && (n_bytes =? 0) && negb err
  | _ => is_wire_eof e
  end.

(** No pull comes after an event that [ends] singles out. *)
Fixpoint no_pull_after (ends : event -> bool) (l : list event) : bool :=
  match l with
  | [] => true
  | e :: l' =>
      (if ends e then forallb (fun x => negb (is_pull x)) l' else true)
      && no_pull_after ends l'
  end.

(** At a point of a run (the events so far and the current [eof_in]):
    if an event that [ends] singles out has happened, [eof_in] is set, and
    no pull has followed such an event. *)
Definition stream_end_kept (ends : event -> bool) (J : Type) (st : pump J) : bool :=
  (if existsb ends (log st) then negb (eof_in (bufs st) =? 0)%Z else true)
  && no_pull_after ends (log st).

(** The readable input: bytes [next_in .. next_in + avail_in) of [in_buf]. *)
Definition window (J : Type) (st : pump J) : option (list byte) :=
  Mem.load (in_buf st) (next_in (bufs st)) (avail_in (bufs st)).

(** The input window lies inside [in_buf]. *)
Definition window_ok (cap : nat) (J : Type) (st : pump J) : Prop :=
  length (in_buf st) = cap /\ next_in (bufs st) + avail_in (bufs st) <= cap.

(** ** Sample files, sockets and jobs *)

Definition file_of (data : list byte) : FILE :=
  {| f_data := data; f_end := EndOfFile; f_eof := false; f_err := false |}.

Definition quiet_new : OFILE := {| o_script := []; o_data := [] |}.

(** The process before a loop starts: arrays of [size] bytes, nothing
    recorded yet. *)
Definition world (J : Type) (j : J) (size : nat) (f : FILE) (n : OFILE)
           (rs : rsock) (ws : wsock) : pump J :=
  {| bufs := {| next_in := 0; avail_in := 0; eof_in := 0;
                next_out := 0; avail_out := 0 |};
     in_buf := repeat x00 size; out_buf := repeat x00 size;
     job := j; file := f; new := n; sock_in := rs; sock_out := ws;
     log := [] |}.

(** A job configured with the size of its input: it copies input to output
    and is done once it has consumed that many bytes.  Its state is the
    number of bytes still to come. *)
Definition copy_work (r : nat) (w : list byte) (eof : Z) (room : nat)
  : rs_result * nat * list byte * nat :=
  let k := Nat.min (Nat.min (length w) room) r in
  (if r - k =? 0 then RS_DONE else RS_BLOCKED, k, firstn k w, r - k).

(** A job that needs two calls to flush its output once the input ended.
    Its state counts the calls. *)
Definition flush_work (calls : nat) (w : list byte) (eof : Z) (room : nat)
  : rs_result * nat * list byte * nat :=
  match calls with
  | 0 => (RS_BLOCKED, length w, firstn room [x01], 1)
  | S _ => (RS_DONE, length w, firstn room [x02], calls)
  end.

(** A job that leaves its input untouched on the first call; later calls
    consume all of it, and the job is done once [eof_in] is set. *)
Definition late_work (calls : nat) (w : list byte) (eof : Z) (room : nat)
  : rs_result * nat * list byte * nat :=
  match calls with
  | 0 => (RS_BLOCKED, 0, [], 1)
  | S _ => (if (eof =? 0)%Z then RS_BLOCKED else RS_DONE, length w, [], calls)
  end.

(** ** Steps and invariants *)

(** A step keeps [P] when it goes on and meets [Q] when it stops. *)
Definition step_meets (S : Type) (P : S -> Prop) (Q : outcome S -> Prop)
           (s : step S) : Prop :=
  match s with
  | Continue st => P st
  | Stop o => Q o
  end.

(** Every message handed to [send_message] was within the protocol's
    bound. *)
Definition sends_fit (l : list event) : Prop :=
  forall payload eof ret,
    In (EvSend payload eof ret) l -> length payload <= BUFFER_SIZE.

(** The output side between two phases of a sending loop. *)
Definition out_ok (cap : nat) (J : Type) (st : pump J) : Prop :=
  length (out_buf st) = cap /\ next_out (bufs st) <= cap /\ sends_fit (log st).

Definition not_assert_len (S : Type) (o : outcome S) : Prop :=
  match o with
  | Aborted AssertLen _ => False
  | _ => True
  end.

(** A loop caught between two iterations with the two bytes [x63; x64]
    left unconsumed at offset 2 of a 4-byte [in_buf]. *)
Definition tail_state : pump nat :=
  {| bufs := {| next_in := 2; avail_in := 2; eof_in := 0;
                next_out := 0; avail_out := 4 |};
     in_buf := [x61; x62; x63; x64]; out_buf := repeat x00 4;
     job := 5;
     file := file_of [x65; x66; x67];
     new := quiet_new; sock_in := quiet_r []; sock_out := quiet_w [];
     log := [] |}.

(** The bytes a list of messages occupies on the wire. *)
Definition frames_wire (fs : list (list byte * Z)) : list byte :=
  flat_map (fun f => frame_bytes (fst f) (snd f)) fs.

(** The sink has all the job produced: the socket holds the messages sent,
    one after the other, and their payloads, put end to end, are the bytes
    the job stored. *)
Definition delivered (J : Type) (st : pump J) : Prop :=
  w_wire (sock_out st) = frames_wire (sent_frames (log st)) /\
  flat_map fst (sent_frames (log st)) = job_output (log st).

(** ** Jobs that know the size of their input *)

(** [remaining j] is the number of input bytes the job still wants.  Such a
    job stays inside its two windows, never takes more than it wants, is
    done exactly when it wants no more (until then it is blocked), and
    takes at least one byte whenever it wants some and is given input and
    room for output. *)
Definition sized_job (J : Type)
           (job_work : J -> list byte -> Z -> nat -> rs_result * nat * list byte * J)
           (remaining : J -> nat) : Prop :=
  forall j w eof room res used out j',
    job_work j w eof room = (res, used, out, j') ->
    used <= length w /\
    length out <= room /\
    used <= remaining j /\
    remaining j' = remaining j - used /\
    res = (if remaining j' =? 0 then RS_DONE else RS_BLOCKED) /\
    (0 < length w -> 0 < room -> 0 < remaining j -> 0 < used).

(** The file reads without error and, with the window, still holds all the
    job wants. *)
Definition source_ok (J : Type) (remaining : J -> nat) (st : pump J) : Prop :=
  f_end (file st) = EndOfFile /\
  f_err (file st) = false /\
  (eof_in (bufs st) <> 0%Z -> f_data (file st) = []) /\
  remaining (job st) <= avail_in (bufs st) + length (f_data (file st)).

(** The output window is empty, the socket takes everything, and all the
    job produced so far is on the wire. *)
Definition sink_ok (cap : nat) (J : Type) (st : pump J) : Prop :=
  length (out_buf st) = cap /\
  next_out (bufs st) = 0 /\
  avail_out (bufs st) = cap /\
  w_script (sock_out st) = [] /\
  delivered st.

(** At the start of an iteration. *)
Definition ready (cap : nat) (J : Type) (remaining : J -> nat) (st : pump J)
  : Prop :=
  window_ok cap st /\ avail_in (bufs st) < cap /\
  source_ok remaining st /\ sink_ok cap st.

(** After the refill. *)
Definition fed (cap : nat) (J : Type) (remaining : J -> nat) (st : pump J)
  : Prop :=
  window_ok cap st /\
  (0 < remaining (job st) -> 0 < avail_in (bufs st)) /\
  source_ok remaining st /\ sink_ok cap st.

(** * More vocabulary, for the further properties *)

Definition is_job (e : event) : bool :=
  match e with EvJob _ _ _ => true | _ => false end.

(** An [rs_job_iter] call whose result was neither [RS_DONE] nor
    [RS_BLOCKED]. *)
Definition is_failed_job (e : event) : bool :=
  match e with EvJob RS_FAILED _ _ => true | _ => false end.

(** The result of the last [rs_job_iter] call of a record. *)
Definition last_job (l : list event) : option rs_result :=
  fold_left (fun acc e => match e with EvJob res _ _ => Some res | _ => acc end)
            l None.

(** [st'] is [st] with events added that are no [rs_job_iter] calls. *)
Definition quiet_extension (J : Type) (st st' : pump J) : Prop :=
  exists l, log st' = log st ++ l /\ existsb is_job l = false.

(** A function that returns -1, or 0 after a last job result [RS_DONE]. *)
Definition code_ok (J : Type) (o : outcome (pump J)) : Prop :=
  match o with
  | Returned ret st =>
      ret = (-1)%Z \/ (ret = 0%Z /\ last_job (log st) = Some RS_DONE)
  | _ => True
  end.

(** Either no job call failed, or the failing call is the last event of the
    run and the function returned -1. *)
Definition stops_at_failed_job (J : Type) (o : outcome (pump J)) : Prop :=
  existsb is_failed_job (log (final o)) = false \/
  exists l used out,
    log (final o) = l ++ [EvJob RS_FAILED used out] /\
    existsb is_failed_job l = false /\
    o = Returned (-1) (final o).

(** The socket takes everything, holds the messages sent, and the payloads
    sent followed by the bytes waiting in the output window are the bytes
    the job has stored. *)
Definition wire_pending (J : Type) (st : pump J) : Prop :=
  w_script (sock_out st) = [] /\
  next_out (bufs st) <= length (out_buf st) /\
  w_wire (sock_out st) = frames_wire (sent_frames (log st)) /\
  flat_map fst (sent_frames (log st))
  ++ firstn (next_out (bufs st)) (out_buf st) = job_output (log st).

(** The same for the new file of [recv_delta_and_patch_file]. *)
Definition file_pending (J : Type) (st : pump J) : Prop :=
  o_script (new st) = [] /\
  next_out (bufs st) <= length (out_buf st) /\
  o_data (new st) ++ firstn (next_out (bufs st)) (out_buf st)
  = job_output (log st).

(** The output window is empty where a run stops between two iterations or
    returns 0. *)
Definition drained (J : Type) (o : outcome (pump J)) : Prop :=
  match o with
  | Returned 0 st | OutOfFuel st => next_out (bufs st) = 0
  | _ => True
  end.

(** How a refill or a drain may end a run: with -1, a failed assertion or
    a memory fault. *)
Definition error_stop (S : Type) (o : outcome S) : Prop :=
  match o with
  | Returned ret _ => ret = (-1)%Z
  | OutOfFuel _ => False
  | _ => True
  end.

(** A job that fails on its first call, after storing one byte. *)
Definition failing_work (j : unit) (w : list byte) (eof : Z) (room : nat)
  : rs_result * nat * list byte * unit :=
  (RS_FAILED, 0, firstn room [x01], tt).

(** What the socket holds is the messages sent, and their payloads are the
    first of the bytes the job has stored. *)
Definition wire_has_prefix (J : Type) (o : outcome (pump J)) : Prop :=
  w_wire (sock_out (final o)) = frames_wire (sent_frames (log (final o))) /\
  exists pending,
    flat_map fst (sent_frames (log (final o))) ++ pending
    = job_output (log (final o)).

(** Where a run stops between two iterations or returns 0, the socket has
    all the job stored. *)
Definition delivered_when_done (J : Type) (o : outcome (pump J)) : Prop :=
  match o with
  | Returned 0 st | OutOfFuel st => delivered st
  | _ => True
  end.

(** The new file holds the first of the bytes the job has stored. *)
Definition file_has_prefix (J : Type) (o : outcome (pump J)) : Prop :=
  exists pending,
    o_data (new (final o)) ++ pending = job_output (log (final o)).

(** Where a run stops between two iterations or returns 0, the new file
    holds all the job stored. *)
Definition written_when_done (J : Type) (o : outcome (pump J)) : Prop :=
  match o with
  | Returned 0 st | OutOfFuel st => o_data (new st) = job_output (log st)
  | _ => True
  end.

(** A job that takes all it is offered and keeps it: its state is the input
    consumed so far.  It is done once [eof_in] is set. *)
Definition gather_work (acc : list byte) (w : list byte) (eof : Z) (room : nat)
  : rs_result * nat * list byte * list byte :=
  (if (eof =? 0)%Z then RS_BLOCKED else RS_DONE, length w, [], acc ++ w).

(** A message of the stream that is not the last: it fits the protocol and
    the array, and its flag is clear. *)
Definition inner_frame (cap : nat) (f : list byte * Z) : Prop :=
  length (fst f) <= BUFFER_SIZE /\ length (fst f) <= cap /\ snd f = 0%Z.

(** The state at the start of an iteration of a receiving loop whose job
    has left nothing in the window. *)
Definition idle (cap : nat) (J : Type) (st : pump J) : Prop :=
  length (in_buf st) = cap /\
  avail_in (bufs st) = 0 /\
  eof_in (bufs st) = 0%Z /\
  next_out (bufs st) = 0 /\
  r_script (sock_in st) = [].

(** * Connection setup and the two programs *)

(** ** The socket calls

    The process's descriptors and the calls it made, with a script of the
    results of the coming [socket], [connect], [bind], [listen] and
    [accept] calls, in order: -1 for a failing call, otherwise the new
    descriptor ([socket], [accept]) or 0.  A call made when the script is
    used up fails. *)

Inductive netcall : Type :=
| NetSocket
| NetSetsockopt (fd : Z)
| NetConnect (fd : Z) (port : Z)
| NetBind (fd : Z) (port : Z)
| NetListen (fd : Z) (backlog : Z)
| NetAccept (fd : Z)
| NetClose (fd : Z).

Record kernel : Type :=
  { k_script : list Z; k_open : list Z; k_calls : list netcall }.

(** The next scripted result, with the call recorded. *)
Definition sys_result (k : kernel) (c : netcall) : Z * kernel :=
  match k_script k with
  | [] => ((-1)%Z, {| k_script := []; k_open := k_open k;
                      k_calls := k_calls k ++ [c] |})
  | r :: rest => (r, {| k_script := rest; k_open := k_open k;
                        k_calls := k_calls k ++ [c] |})
  end.

(** A call that returns a new descriptor unless it fails. *)
Definition sys_new_fd (k : kernel) (c : netcall) : Z * kernel :=
  let '(r, k) := sys_result k c in
  if (r =? -1)%Z then (r, k)
  else (r, {| k_script := k_script k; k_open := r :: k_open k;
              k_calls := k_calls k |}).

Fixpoint drop_fd (fd : Z) (l : list Z) : list Z :=
  match l with
  | [] => []
  | x :: l' => if (x =? fd)%Z then l' else x :: drop_fd fd l'
  end.

(** [close(fd)]. *)
Definition sys_close (k : kernel) (fd : Z) : kernel :=
  {| k_script := k_script k; k_open := drop_fd fd (k_open k);
     k_calls := k_calls k ++ [NetClose fd] |}.

(** [#define PORT 5612] *)
Definition PORT : Z := 5612.

(** client.c, [connect_to_server]. *)
Definition connect_to_server (k : kernel) : Z * kernel :=
  (* int sock = socket(AF_INET, SOCK_STREAM, 0); *)
  let '(sock, k) := sys_new_fd k NetSocket in
  if (sock =? -1)%Z then ((-1)%Z, k)
  else
    (* int ret = connect(sock, (struct sockaddr * )&addr, sizeof(addr)); *)
    let '(ret, k) := sys_result k (NetConnect sock PORT) in
    if (ret =? -1)%Z then ((-1)%Z, sys_close k sock)
    else (sock, k).

(** server.c, [accept_connection]. *)
Definition accept_connection (k : kernel) : Z * kernel :=
  (* int sock = socket(AF_INET, SOCK_STREAM, 0); *)
  let '(sock, k) := sys_new_fd k NetSocket in
  if (sock =? -1)%Z then ((-1)%Z, k)
  else
    (* setsockopt(sock, SOL_SOCKET, SO_REUSEADDR, &opt, sizeof(opt));
       its result is not looked at *)
    let k := {| k_script := k_script k; k_open := k_open k;
                k_calls := k_calls k ++ [NetSetsockopt sock] |} in
    (* int ret = bind(sock, ...); *)
    let '(ret, k) := sys_result k (NetBind sock PORT) in
    if (ret =? -1)%Z then ((-1)%Z, sys_close k sock)
    else
      (* ret = listen(sock, 1); *)
      let '(ret, k) := sys_result k (NetListen sock 1) in
      if (ret =? -1)%Z then ((-1)%Z, sys_close k sock)
      else
        (* int conn = accept(sock, ...);  close(sock); *)
        let '(conn, k) := sys_new_fd k (NetAccept sock) in
        let k := sys_close k sock in
        if (conn =? -1)%Z then ((-1)%Z, k) else (conn, k).

Definition EXIT_SUCCESS : Z := 0.
Definition EXIT_FAILURE : Z := 1.

(** An outcome of one of the four functions as an outcome of the program. *)
Definition in_process (J : Type) (k : kernel) (o : outcome (pump J))
  : outcome (kernel * pump J) :=
  match o with
  | Returned ret st => Returned ret (k, st)
  | Aborted c st => Aborted c (k, st)
  | MemFault st => MemFault (k, st)
  | OutOfFuel st => OutOfFuel (k, st)
  end.

Section Programs.

Variable J : Type.
Variable job_work : J -> list byte -> Z -> nat -> rs_result * nat * list byte * J.
Variable cap : nat.

(** client.c, [main].  [argc] is the number of arguments, [sig_args] the
    result of [rs_sig_args]; [job st] is the job of [rs_sig_begin],
    [patch_job] the job of [rs_patch_begin]; the files can be opened.  The
    arrays [in_buf] and [out_buf] are static: the second function starts
    with what the first left in them. *)
Definition client_main (argc : Z) (sig_args : rs_result) (name_fits : bool)
           (patch_job : J) (fuel : nat) (k : kernel) (st : pump J)
  : outcome (kernel * pump J) :=
  if (argc <? 2)%Z then Returned EXIT_FAILURE (k, st)
  else
    (* int sock = connect_to_server(IP_ADDRESS); *)
    let '(sock, k) := connect_to_server k in
    if (sock =? -1)%Z then Returned EXIT_FAILURE (k, st)
    else
      (* int ret = send_signature(sock, fname); *)
      match send_signature job_work cap sig_args fuel st with
      | Returned ret st =>
          if (ret =? -1)%Z then Returned EXIT_FAILURE (sys_close k sock, st)
          else
            (* ret = recv_delta_and_patch_file(sock, fname); *)
            match recv_delta_and_patch_file job_work cap name_fits fuel
                                            (set_job st patch_job) with
            | Returned ret st =>
                if (ret =? -1)%Z
                then Returned EXIT_FAILURE (sys_close k sock, st)
                else Returned EXIT_SUCCESS (k, st)
            | o => in_process k o
            end
      | o => in_process k o
      end.

(** server.c, [main].  [job st] is the job of [rs_loadsig_begin];
    [build_hash_table] and [delta_begin] give, from the job that has loaded
    the signature, the result of [rs_build_hash_table] and the job of
    [rs_delta_begin]. *)
Definition server_main (argc : Z) (build_hash_table : J -> rs_result)
           (delta_begin : J -> J) (fuel : nat) (k : kernel) (st : pump J)
  : outcome (kernel * pump J) :=
  if (argc <? 2)%Z then Returned EXIT_FAILURE (k, st)
  else
    (* int sock = accept_connection(); *)
    let '(sock, k) := accept_connection k in
    if (sock =? -1)%Z then Returned EXIT_FAILURE (k, st)
    else
      (* int ret = recv_signature(sock, &sig); *)
      match recv_signature job_work fuel st with
      | Returned ret st =>
          if (ret =? -1)%Z then Returned EXIT_FAILURE (sys_close k sock, st)
          else
            (* ret = send_delta(sock, sig, fname);  rs_free_sumset(sig); *)
            match send_delta job_work cap (build_hash_table (job st)) fuel
                             (set_job st (delta_begin (job st))) with
            | Returned ret st =>
                if (ret =? -1)%Z
                then Returned EXIT_FAILURE (sys_close k sock, st)
                else Returned EXIT_SUCCESS (k, st)
            | o => in_process k o
            end
      | o => in_process k o
      end.

End Programs.

(** What a program leaves of its descriptors: none of its own when it exits
    with a failure, the connection when it exits with success. *)
Definition exit_ok (J : Type) (k0 : kernel) (o : outcome (kernel * pump J))
  : Prop :=
  match o with
  | Returned code (k, st) =>
      (code = EXIT_FAILURE /\ k_open k = k_open k0) \/
      (code = EXIT_SUCCESS /\
       (exists sock, k_open k = sock :: k_open k0) /\
       last_job (log st) = Some RS_DONE)
  | _ => True
  end.

(** A pull that failed: [fread] delivered nothing and the error indicator is
    set, or [recv_message] returned -1. *)
Definition is_failed_pull (e : event) : bool :=
  match e with
  | EvFread _ n_bytes err => (n_bytes =? 0) && err
  | EvRecv ret _ => (ret =? -1)%Z
  | _ => false
  end.

(** Either no pull failed, or the failed pull is the last event of the run
    and the function returned -1. *)
Definition stops_at_failed_pull (J : Type) (o : outcome (pump J)) : Prop :=
  existsb is_failed_pull (log (final o)) = false \/
  exists l e,
    log (final o) = l ++ [e] /\ is_failed_pull e = true /\
    existsb is_failed_pull l = false /\
    o = Returned (-1) (final o).

(** ** Memory safety of the sending loops *)

(** A job that keeps to the windows it is given: it consumes no more than
    the input window holds and stores no more than the output window
    takes. *)
Definition keeps_to_windows (J : Type)
           (job_work : J -> list byte -> Z -> nat
                       -> rs_result * nat * list byte * J) : Prop :=
  forall j w eof room,
    match job_work j w eof room with
    | (_, used, out, _) => used <= length w /\ length out <= room
    end.

(** Both windows lie inside their arrays of [cap] bytes. *)
Definition in_arrays (cap : nat) (J : Type) (st : pump J) : Prop :=
  length (in_buf st) = cap /\ length (out_buf st) = cap /\
  next_in (bufs st) + avail_in (bufs st) <= cap /\
  next_out (bufs st) + avail_out (bufs st) <= cap.

(** The run did not end on an access outside an array. *)
Definition no_fault (S : Type) (o : outcome S) : Prop :=
  match o with
  | MemFault _ => False
  | _ => True
  end.

(** ** What the arrays held before *)

(** Two states that differ in the contents of [in_buf] and [out_buf]
    only. *)
Definition same_outside_arrays (J : Type) (st1 st2 : pump J) : Prop :=
  bufs st1 = bufs st2 /\ job st1 = job st2 /\ file st1 = file st2 /\
  new st1 = new st2 /\ sock_in st1 = sock_in st2 /\
  sock_out st1 = sock_out st2 /\ log st1 = log st2 /\
  length (in_buf st1) = length (in_buf st2) /\
  length (out_buf st1) = length (out_buf st2).

(** Such states whose arrays agree on the input window and on the bytes
    stored in the output window. *)
Definition same_windows (J : Type) (st1 st2 : pump J) : Prop :=
  same_outside_arrays st1 st2 /\
  firstn (avail_in (bufs st1)) (skipn (next_in (bufs st1)) (in_buf st1))
  = firstn (avail_in (bufs st1)) (skipn (next_in (bufs st1)) (in_buf st2)) /\
  firstn (next_out (bufs st1)) (out_buf st1)
  = firstn (next_out (bufs st1)) (out_buf st2).

(** Two runs that end the same way, in states that differ in the contents
    of the arrays only. *)
Definition same_run (J : Type) (o1 o2 : outcome (pump J)) : Prop :=
  match o1, o2 with
  | Returned r1 s1, Returned r2 s2 => r1 = r2 /\ same_outside_arrays s1 s2
  | Aborted c1 s1, Aborted c2 s2 => c1 = c2 /\ same_outside_arrays s1 s2
  | MemFault s1, MemFault s2 => same_outside_arrays s1 s2
  | OutOfFuel s1, OutOfFuel s2 => same_outside_arrays s1 s2
  | _, _ => False
  end.

Definition same_step (J : Type) (s1 s2 : step (pump J)) : Prop :=
  match s1, s2 with
  | Continue a, Continue b => same_windows a b
  | Stop o1, Stop o2 => same_run o1 o2
  | _, _ => False
  end.

(** * Properties *)

Unset Implicit Arguments.

(** ** Bytes and headers *)

Lemma BUFFER_SIZE_val : Z.of_nat BUFFER_SIZE = 32767%Z.
Proof. reflexivity. Qed.

Lemma Z_of_byte_of_Z (z : Z) : Z_of_byte (byte_of_Z z) = (z mod 256)%Z.
Proof.
  unfold Z_of_byte, byte_of_Z.
  assert (Hr : (0 <= z mod 256 < 256)%Z) by (apply Z.mod_pos_bound; lia).
  destruct (Byte.of_N (Z.to_N (z mod 256))) as [b|] eqn:E.
  - apply Byte.to_of_N in E. rewrite E. lia.
  - apply Byte.of_N_None_iff in E. lia.
Qed.

Lemma ntohs_htons (h : Z) :
  (0 <= h < 65536)%Z ->
  match htons_bytes h with
  | [b0; b1] => ntohs_bytes b0 b1 = h
  | _ => False
  end.
Proof.
  intros Hh. unfold htons_bytes, ntohs_bytes.
  rewrite !Z_of_byte_of_Z.
  assert (Hhi : (0 <= Z.shiftr h 8 < 256)%Z).
  { rewrite Z.shiftr_div_pow2 by lia. change (2 ^ 8)%Z with 256%Z.
    split; [apply Z.div_pos; lia | apply Z.div_lt_upper_bound; lia]. }
  rewrite (Z.mod_small (Z.shiftr h 8)) by exact Hhi.
  assert (Hlo : (0 <= Z.land h 255 < 256)%Z).
  { change 255%Z with (Z.ones 8). rewrite Z.land_ones by lia.
    apply Z.mod_pos_bound. reflexivity. }
  rewrite (Z.mod_small (Z.land h 255)) by exact Hlo.
  change 255%Z with (Z.ones 8).
  apply Z.bits_inj'. intros n Hn.
  rewrite Z.lor_spec, Z.land_spec, Z.shiftl_spec by lia.
  destruct (Z.ltb_spec n 8) as [Hlt | Hge].
  - rewrite Z.testbit_neg_r by lia.
    rewrite Z.ones_spec_low by lia.
    now rewrite andb_true_r.
  - rewrite Z.shiftr_spec by lia.
    rewrite Z.ones_spec_high by lia.
    rewrite andb_false_r, orb_false_r.
    f_equal. lia.
Qed.

Lemma header_of_val (len : nat) (eof : Z) :
  len <= BUFFER_SIZE ->
  header_of len eof = (2 * Z.of_nat len + flag_bit eof)%Z.
Proof.
  intros Hlen. pose proof BUFFER_SIZE_val as HB. unfold flag_bit.
  unfold header_of, to_uint16.
  change UINT16_MAX with (Z.ones 16).
  rewrite Z.land_ones by lia.
  rewrite Z.shiftl_mul_pow2 by lia.
  change (2 ^ 1)%Z with 2%Z. change (2 ^ 16)%Z with 65536%Z.
  rewrite Z.mod_small by lia.
  rewrite (Z.mul_comm _ 2).
  destruct (eof =? 0)%Z; [lia|].
  destruct (Z.of_nat len) as [|p|p] eqn:E; try reflexivity; lia.
Qed.

Lemma header_of_range (len : nat) (eof : Z) :
  len <= BUFFER_SIZE -> (0 <= header_of len eof < 65536)%Z.
Proof.
  intros Hlen. rewrite header_of_val by assumption. unfold flag_bit.
  pose proof BUFFER_SIZE_val. destruct (eof =? 0)%Z; lia.
Qed.

Lemma header_flag (len : nat) (eof : Z) :
  len <= BUFFER_SIZE ->
  Z.land (header_of len eof) 1 = flag_bit eof.
Proof.
  intros Hlen. rewrite header_of_val by assumption. unfold flag_bit.
  change 1%Z with (Z.ones 1) at 2. rewrite Z.land_ones by lia.
  change (2 ^ 1)%Z with 2%Z.
  destruct (eof =? 0)%Z; Z.div_mod_to_equations; lia.
Qed.

Lemma header_length (len : nat) (eof : Z) :
  len <= BUFFER_SIZE ->
  Z.to_nat (Z.shiftr (header_of len eof) 1) = len.
Proof.
  intros Hlen. rewrite header_of_val by assumption. unfold flag_bit.
  rewrite Z.shiftr_div_pow2 by lia. change (2 ^ 1)%Z with 2%Z.
  destruct (eof =? 0)%Z.
  - replace ((2 * Z.of_nat len + 0) / 2)%Z with (Z.of_nat len)
      by (Z.div_mod_to_equations; lia). lia.
  - replace ((2 * Z.of_nat len + 1) / 2)%Z with (Z.of_nat len)
      by (Z.div_mod_to_equations; lia). lia.
Qed.

(** ** Arrays *)

Lemma store_length (mem : list byte) (off : nat) (d mem' : list byte) :
  Mem.store mem off d = Some mem' -> length mem' = length mem.
Proof.
  unfold Mem.store. destruct (Nat.leb_spec (off + length d) (length mem)) as [H|H];
    [|discriminate].
  intros E. injection E as <-.
  rewrite !length_app, length_firstn, length_skipn. lia.
Qed.

Lemma store_fits (mem : list byte) (off : nat) (d : list byte) :
  off + length d <= length mem ->
  Mem.store mem off d = Some (firstn off mem ++ d ++ skipn (off + length d) mem).
Proof.
  intros H. unfold Mem.store.
  destruct (Nat.leb_spec (off + length d) (length mem)); [reflexivity | lia].
Qed.

Lemma store_overflow (mem : list byte) (off : nat) (d : list byte) :
  length mem < off + length d -> Mem.store mem off d = None.
Proof.
  intros H. unfold Mem.store.
  destruct (Nat.leb_spec (off + length d) (length mem)); [lia | reflexivity].
Qed.

Lemma load_store_same (mem : list byte) (off : nat) (d mem' : list byte) :
  Mem.store mem off d = Some mem' -> Mem.load mem' off (length d) = Some d.
Proof.
  intros E. pose proof (store_length _ _ _ _ E) as HL.
  unfold Mem.store in E.
  destruct (Nat.leb_spec (off + length d) (length mem)) as [H|H]; [|discriminate].
  injection E as <-. unfold Mem.load.
  rewrite HL.
  destruct (Nat.leb_spec (off + length d) (length mem)); [|lia].
  f_equal.
  rewrite skipn_app, length_firstn.
  replace (Nat.min off (length mem)) with off by lia.
  rewrite skipn_firstn_comm, Nat.sub_diag. simpl.
  rewrite firstn_app, Nat.sub_diag, firstn_all. simpl.
  now rewrite app_nil_r.
Qed.


(** ** [send_message] and [recv_message] *)

Lemma assert_len_passes (len : nat) :
  len <= BUFFER_SIZE -> negb (Z.of_nat len <=? Z.shiftr UINT16_MAX 1)%Z = false.
Proof.
  intros H. pose proof BUFFER_SIZE_val.
  change (Z.shiftr UINT16_MAX 1) with 32767%Z.
  destruct (Z.leb_spec (Z.of_nat len) 32767); [reflexivity | lia].
Qed.

Lemma assert_len_fails (len : nat) :
  BUFFER_SIZE < len -> negb (Z.of_nat len <=? Z.shiftr UINT16_MAX 1)%Z = true.
Proof.
  intros H. pose proof BUFFER_SIZE_val.
  change (Z.shiftr UINT16_MAX 1) with 32767%Z.
  destruct (Z.leb_spec (Z.of_nat len) 32767); [lia | reflexivity].
Qed.

(** On a socket that takes everything, [send_message] appends the header
    and the first [len] bytes of [msg]. *)
Lemma send_message_quiet (w0 msg : list byte) (len : nat) (eof : Z) :
  len <= BUFFER_SIZE -> len <= length msg ->
  send_message (quiet_w w0) msg len eof
  = SendRet 0 (quiet_w (w0 ++ frame_bytes (firstn len msg) eof)).
Proof.
  intros Hlen Hmsg. unfold send_message.
  rewrite assert_len_passes by assumption.
  fold (header_of len eof).
  unfold frame_bytes. rewrite length_firstn.
  replace (Nat.min len (length msg)) with len by lia.
  unfold sys_write at 1. cbn [quiet_w w_script w_wire].
  cbn [htons_bytes length Z.of_nat Pos.of_succ_nat Pos.succ Z.eqb Pos.eqb negb].
  destruct (Nat.ltb_spec 0 len) as [Hpos | Hzero].
  - unfold sys_write. cbn [w_script w_wire].
    rewrite length_firstn.
    replace (Nat.min len (length msg)) with len by lia.
    rewrite Z.eqb_refl. cbn [negb]. unfold quiet_w.
    now rewrite <- app_assoc.
  - replace len with 0 by lia. cbn [firstn]. unfold quiet_w.
    now rewrite app_nil_r.
Qed.

(** Reading one well-formed message from a socket that delivers all that is
    asked for. *)
Lemma recv_message_quiet (payload rest mem : list byte) (off : nat) (eof : Z) :
  length payload <= BUFFER_SIZE -> off + length payload <= length mem ->
  exists mem',
    Mem.store mem off payload = Some mem' /\
    recv_message (quiet_r (frame_bytes payload eof ++ rest)) mem off
    = RecvRet 0 (Some (length payload, flag_bit eof))
              (if 0 <? length payload then mem' else mem) (quiet_r rest).
Proof.
  intros Hlen Hfit.
  exists (firstn off mem ++ payload ++ skipn (off + length payload) mem).
  split; [now apply store_fits|].
  pose proof (ntohs_htons _ (header_of_range _ eof Hlen)) as Hh.
  unfold recv_message, frame_bytes.
  unfold sys_write, sys_read at 1. cbn [quiet_r r_script r_wire].
  unfold htons_bytes in *.
  cbn [app firstn skipn length Z.of_nat Pos.of_succ_nat Pos.succ Z.eqb Pos.eqb negb].
  rewrite Hh, header_flag, header_length by assumption.
  destruct (Nat.ltb_spec 0 (length payload)) as [Hpos | Hzero].
  - unfold sys_read. cbn [r_script r_wire].
    rewrite firstn_app, Nat.sub_diag, firstn_all. cbn [firstn].
    rewrite app_nil_r.
    rewrite skipn_app, Nat.sub_diag, skipn_all. cbn [skipn app].
    rewrite store_fits by assumption.
    now rewrite Z.eqb_refl.
  - destruct payload; [reflexivity | simpl in Hzero; lia].
Qed.

(** C2.  Frame round trip: for a payload of at most 32767 bytes and either
    value of the end-of-file flag, what [recv_message] decodes from the
    bytes [send_message] wrote is the original length, the original
    payload bytes (stored where the caller asked) and the original flag. *)
Theorem frame_roundtrip (payload mem : list byte) (off : nat) (eof : Z) :
  length payload <= BUFFER_SIZE ->
  eof = 0%Z \/ eof = 1%Z ->
  off + length payload <= length mem ->
  exists wire mem',
    send_message (quiet_w []) payload (length payload) eof
    = SendRet 0 (quiet_w wire) /\
    recv_message (quiet_r wire) mem off
    = RecvRet 0 (Some (length payload, eof)) mem' (quiet_r []) /\
    Mem.load mem' off (length payload) = Some payload.
Proof.
  intros Hlen Heof Hfit.
  destruct (recv_message_quiet payload [] mem off eof Hlen Hfit) as (m1 & Hst & Hrecv).
  exists (frame_bytes payload eof), (if 0 <? length payload then m1 else mem).
  split; [|split].
  - rewrite send_message_quiet by lia. now rewrite firstn_all.
  - rewrite app_nil_r in Hrecv. rewrite Hrecv.
    destruct Heof as [-> | ->]; reflexivity.
  - destruct (Nat.ltb_spec 0 (length payload)) as [Hpos | Hzero].
    + eapply load_store_same; eassumption.
    + destruct payload; [|simpl in Hzero; lia].
      unfold Mem.load. simpl in *.
      destruct (Nat.leb_spec (off + 0) (length mem)); [reflexivity | lia].
Qed.

Lemma frame_roundtrip_witness :
  exists wire mem',
    send_message (quiet_w []) [x68; x69; x21] 3 1 = SendRet 0 (quiet_w wire) /\
    recv_message (quiet_r wire) (repeat x00 8) 2
    = RecvRet 0 (Some (3, 1%Z)) mem' (quiet_r []) /\
    Mem.load mem' 2 3 = Some [x68; x69; x21].
Proof.
  apply (frame_roundtrip [x68; x69; x21] (repeat x00 8) 2 1%Z).
  - apply Nat.leb_le. vm_compute. reflexivity.
  - right. reflexivity.
  - simpl. lia.
Defined.

(** C7.  A length above 32767 is refused by the assertion at the top of
    [send_message]: the call ends there, and the socket is as it was, so no
    header (truncated or not) has been written. *)
Theorem send_message_rejects_oversize
        (sock : wsock) (msg : list byte) (len : nat) (eof : Z) :
  BUFFER_SIZE < len ->
  send_message sock msg len eof = SendAssert sock.
Proof.
  intros H. unfold send_message. now rewrite assert_len_fails.
Qed.

Lemma send_message_rejects_oversize_witness :
  send_message (quiet_w []) (repeat x00 (S BUFFER_SIZE)) (S BUFFER_SIZE) 1
  = SendAssert (quiet_w []).
Proof.
  apply (send_message_rejects_oversize
           (quiet_w []) (repeat x00 (S BUFFER_SIZE)) (S BUFFER_SIZE) 1%Z).
  lia.
Defined.

Lemma send_message_empty (s : wsock) (msg : list byte) (eof : Z) :
  send_message s msg 0 eof
  = (let '(ret, s1) := sys_write s (htons_bytes (flag_bit eof)) in
     if negb (ret =? 2)%Z then SendRet (-1) s1 else SendRet 0 s1).
Proof.
  unfold send_message, flag_bit.
  destruct (eof =? 0)%Z; reflexivity.
Qed.

Lemma recv_message_empty (s s1 : rsock) (mem : list byte) (off : nat) (b0 b1 : byte) :
  sys_read s 2 = (2%Z, [b0; b1], s1) ->
  Z.shiftr (ntohs_bytes b0 b1) 1 = 0%Z ->
  recv_message s mem off
  = RecvRet 0 (Some (0, Z.land (ntohs_bytes b0 b1) 1)) mem s1.
Proof.
  intros Hr Hz. unfold recv_message. rewrite Hr. cbn [Z.eqb Pos.eqb negb].
  rewrite Hz. reflexivity.
Qed.

(** C9.  Layout of the header.  For an admissible length the two bytes put
    on the wire are the 16-bit number [h = 2 * len + flag], most
    significant byte first; bit 0 of [h] is the end-of-file flag and bits 1
    to 15 are the length.  With length 0 [send_message] makes the one
    [write] of the header and no other, and [recv_message] accepts such a
    header: it returns 0 with [*len = 0] after the one [read] of the
    header, without touching the caller's buffer. *)
Theorem header_layout (w0 msg : list byte) (len : nat) (eof : Z) :
  len <= BUFFER_SIZE -> len <= length msg ->
  let h := (2 * Z.of_nat len + flag_bit eof)%Z in
  (exists b0 b1,
      send_message (quiet_w w0) msg len eof
      = SendRet 0 (quiet_w (w0 ++ [b0; b1] ++ firstn len msg)) /\
      Z_of_byte b0 = (h / 256)%Z /\ Z_of_byte b1 = (h mod 256)%Z) /\
  (0 <= h < 2 ^ 16)%Z /\
  Z.testbit h 0 = negb (eof =? 0)%Z /\
  (forall i, (0 <= i)%Z -> Z.testbit h (i + 1) = Z.testbit (Z.of_nat len) i) /\
  (forall s m e,
      send_message s m 0 e
      = (let '(ret, s1) := sys_write s (htons_bytes (flag_bit e)) in
         if negb (ret =? 2)%Z then SendRet (-1) s1 else SendRet 0 s1)) /\
  (forall s s1 mem off b0 b1,
      sys_read s 2 = (2%Z, [b0; b1], s1) ->
      Z.shiftr (ntohs_bytes b0 b1) 1 = 0%Z ->
      recv_message s mem off
      = RecvRet 0 (Some (0, Z.land (ntohs_bytes b0 b1) 1)) mem s1).
Proof.
  intros Hlen Hmsg h.
  assert (Hh : header_of len eof = h) by now apply header_of_val.
  assert (Hr : (0 <= h < 65536)%Z)
    by (rewrite <- Hh; now apply header_of_range).
  split; [|split; [|split; [|split; [|split]]]].
  - exists (byte_of_Z (Z.shiftr h 8)), (byte_of_Z (Z.land h 255)).
    split; [|split].
    + rewrite send_message_quiet by assumption.
      unfold frame_bytes. rewrite length_firstn.
      replace (Nat.min len (length msg)) with len by lia.
      rewrite Hh. reflexivity.
    + rewrite Z_of_byte_of_Z, Z.shiftr_div_pow2 by lia.
      change (2 ^ 8)%Z with 256%Z.
      apply Z.mod_small.
      split; [apply Z.div_pos; lia | apply Z.div_lt_upper_bound; lia].
    + rewrite Z_of_byte_of_Z. change 255%Z with (Z.ones 8).
      rewrite Z.land_ones by lia. change (2 ^ 8)%Z with 256%Z.
      apply Z.mod_mod. lia.
  - change (2 ^ 16)%Z with 65536%Z. lia.
  - subst h. unfold flag_bit. destruct (eof =? 0)%Z; cbn [negb].
    + rewrite Z.add_0_r. apply Z.testbit_even_0.
    + apply Z.testbit_odd_0.
  - intros i Hi. subst h. unfold flag_bit.
    destruct (eof =? 0)%Z.
    + rewrite Z.add_0_r. now apply Z.testbit_even_succ.
    + now apply Z.testbit_odd_succ.
  - intros. apply send_message_empty.
  - intros. now apply recv_message_empty.
Qed.

Lemma header_layout_witness :
  let h := (2 * 3 + 1)%Z in
  (exists b0 b1,
      send_message (quiet_w []) [x68; x69; x21] 3 1
      = SendRet 0 (quiet_w ([] ++ [b0; b1] ++ firstn 3 [x68; x69; x21])) /\
      Z_of_byte b0 = (h / 256)%Z /\ Z_of_byte b1 = (h mod 256)%Z) /\
  (0 <= h < 2 ^ 16)%Z /\
  Z.testbit h 0 = negb (1 =? 0)%Z /\
  (forall i, (0 <= i)%Z -> Z.testbit h (i + 1) = Z.testbit 3 i) /\
  (forall s m e,
      send_message s m 0 e
      = (let '(ret, s1) := sys_write s (htons_bytes (flag_bit e)) in
         if negb (ret =? 2)%Z then SendRet (-1) s1 else SendRet 0 s1)) /\
  (forall s s1 mem off b0 b1,
      sys_read s 2 = (2%Z, [b0; b1], s1) ->
      Z.shiftr (ntohs_bytes b0 b1) 1 = 0%Z ->
      recv_message s mem off
      = RecvRet 0 (Some (0, Z.land (ntohs_bytes b0 b1) 1)) mem s1).
Proof.
  apply (header_layout [] [x68; x69; x21] 3 1%Z).
  - apply Nat.leb_le. vm_compute. reflexivity.
  - simpl. lia.
Defined.

(** ** The loops at chosen inputs *)

(** A message that does not fit behind the bytes already in the array makes
    [recv_message] store past its end. *)
Lemma recv_message_overrun (payload rest mem : list byte) (off : nat) (eof : Z) :
  0 < length payload <= BUFFER_SIZE ->
  length mem < off + length payload ->
  recv_message (quiet_r (frame_bytes payload eof ++ rest)) mem off = RecvFault.
Proof.
  intros [Hpos Hlen] Hover.
  pose proof (ntohs_htons _ (header_of_range _ eof Hlen)) as Hh.
  unfold recv_message, frame_bytes.
  unfold sys_read at 1. cbn [quiet_r r_script r_wire].
  unfold htons_bytes in *.
  cbn [app firstn skipn length Z.of_nat Pos.of_succ_nat Pos.succ Z.eqb Pos.eqb negb].
  rewrite Hh, header_flag, header_length by assumption.
  destruct (Nat.ltb_spec 0 (length payload)) as [_ | Hzero]; [|lia].
  unfold sys_read. cbn [r_script r_wire].
  rewrite firstn_app, Nat.sub_diag, firstn_all. cbn [firstn].
  rewrite app_nil_r.
  now rewrite store_overflow.
Qed.

(** C1, at a failing input.  [recv_signature] with the arrays of the
    program (32767 bytes): the peer sends a 1-byte message, the job leaves
    that byte in the window, then the peer sends a full 32767-byte message.
    [recv_message] is told to store it from [in_buf + 1] on: the store runs
    past the end of [in_buf]. *)
Theorem socket_refill_overruns_in_buf :
  recv_message (quiet_r (frame_bytes (repeat x00 BUFFER_SIZE) 0))
               (repeat x00 BUFFER_SIZE) 1
  = RecvFault
  /\ match recv_signature late_work 2
             (world 0 BUFFER_SIZE (file_of []) quiet_new
                    (quiet_r (frame_bytes [x41] 0
                              ++ frame_bytes (repeat x00 BUFFER_SIZE) 0))
                    (quiet_w []))
     with
     | MemFault st =>
         avail_in (bufs st) = 1 /\ (length (in_buf st) =? BUFFER_SIZE) = true
     | _ => False
     end.
Proof.
  split.
  - vm_compute. reflexivity.
  - vm_compute. split; reflexivity.
Qed.

(** C3, at a failing input.  [send_delta] on an empty file: the first
    [fread] finds the end of the file and sets [eof_in]; the job then needs
    two calls to flush.  Both messages leave with the flag set: a message
    follows one whose flag is 1. *)
Theorem eof_flag_on_two_frames :
  match send_delta flush_work BUFFER_SIZE RS_DONE 2
          (world 0 BUFFER_SIZE (file_of []) quiet_new (quiet_r []) (quiet_w []))
  with
  | Returned ret st =>
      ret = 0%Z /\
      sent_frames (log st) = [([x01], 1%Z); ([x02], 1%Z)] /\
      w_wire (sock_out st) = frame_bytes [x01] 1 ++ frame_bytes [x02] 1
  | _ => False
  end.
Proof. vm_compute. repeat split; reflexivity. Qed.

(** The other way round: when the job is done before the loop has seen the
    end of the file, the last message leaves with the flag clear. *)
Lemma last_frame_without_eof_flag :
  match send_signature copy_work BUFFER_SIZE RS_DONE 1
          (world 2 BUFFER_SIZE (file_of [x41; x42]) quiet_new
                 (quiet_r []) (quiet_w []))
  with
  | Returned ret st =>
      ret = 0%Z /\ sent_frames (log st) = [([x41; x42], 0%Z)]
  | _ => False
  end.
Proof. vm_compute. repeat split; reflexivity. Qed.

(** C4, at a failing input.  [recv_delta_and_patch_file]: the job has stored
    two bytes, [fwrite] accepts one of them.  The loop goes on and the
    function returns 0; the new file holds one byte. *)
Theorem short_fwrite_goes_unnoticed :
  match recv_delta_and_patch_file copy_work BUFFER_SIZE true 1
          (world 2 BUFFER_SIZE (file_of [])
                 {| o_script := [1]; o_data := [] |}
                 (quiet_r (frame_bytes [x41; x42] 1)) (quiet_w []))
  with
  | Returned ret st =>
      ret = 0%Z /\
      job_output (log st) = [x41; x42] /\
      o_data (new st) = [x41]
  | _ => False
  end.
Proof. vm_compute. repeat split; reflexivity. Qed.

(** The socket drain does notice: a payload [write] that takes fewer bytes
    than offered makes [send_message] return -1. *)
Lemma short_write_fails (sock : wsock) (msg : list byte) (len : nat) (eof : Z)
      (s1 s2 : wsock) (ret : Z) :
  0 < len <= BUFFER_SIZE ->
  sys_write sock (htons_bytes (header_of len eof)) = (2%Z, s1) ->
  sys_write s1 (firstn len msg) = (ret, s2) ->
  ret <> Z.of_nat len ->
  send_message sock msg len eof = SendRet (-1) s2.
Proof.
  intros [Hpos Hlen] H1 H2 Hne. unfold send_message.
  rewrite assert_len_passes by assumption.
  fold (header_of len eof). rewrite H1. cbn [Z.eqb Pos.eqb negb].
  destruct (Nat.ltb_spec 0 len); [|lia].
  rewrite H2.
  destruct (Z.eqb_spec ret (Z.of_nat len)); [contradiction | reflexivity].
Qed.

(** C6, against the claim as stated.  [send_delta] with the arrays of the
    program on a file of 32768 bytes, and a job that leaves the full window
    untouched on its first call.  The second refill asks [fread] for 0
    bytes: it reports no byte and no error, [feof] is 0, [eof_in] stays
    clear, and the third refill pulls again. *)
Lemma empty_pull_without_stream_end :
  match send_delta late_work BUFFER_SIZE RS_DONE 2
          (world 0 BUFFER_SIZE (file_of (repeat x00 (S BUFFER_SIZE))) quiet_new
                 (quiet_r []) (quiet_w []))
  with
  | OutOfFuel st =>
      existsb is_empty_pull (log st) = true /\
      eof_in (bufs st) = 0%Z /\
      stream_end_kept is_empty_pull st = false
  | _ => False
  end
  /\ match send_delta late_work BUFFER_SIZE RS_DONE 3
             (world 0 BUFFER_SIZE (file_of (repeat x00 (S BUFFER_SIZE))) quiet_new
                    (quiet_r []) (quiet_w []))
     with
     | OutOfFuel st => no_pull_after is_empty_pull (log st) = false
     | _ => False
     end.
Proof. vm_compute. repeat split; reflexivity. Qed.

(** ** Reasoning about the loop *)

Section LoopRules.

Variable J : Type.
Variable job_work : J -> list byte -> Z -> nat -> rs_result * nat * list byte * J.
Variable cap : nat.

Local Abbreviation state := (pump J).

(** Invariant rule for [pump_loop]: [P] holds between the three phases of
    an iteration, [Q] of every way the loop can end. *)
Lemma pump_loop_rule (P : state -> Prop) (Q : outcome state -> Prop)
      (refill drain : state -> step state) :
  (forall st, P st -> Q (OutOfFuel st)) ->
  (forall st, P st -> Q (MemFault st)) ->
  (forall st r, P st -> Q (Returned r st)) ->
  (forall st, P st -> eof_in (bufs st) = 0%Z -> step_meets P Q (refill st)) ->
  (forall st res st',
      P st -> rs_job_iter job_work st = Some (res, st') -> P st') ->
  (forall st, P st -> step_meets P Q (drain st)) ->
  forall fuel st, P st -> Q (pump_loop job_work refill drain fuel st).
Proof.
  intros Hfuel Hfault Hret Hrefill Hjob Hdrain.
  induction fuel as [|fuel IH]; intros st HP; cbn [pump_loop].
  - now apply Hfuel.
  - assert (Hr : step_meets P Q
                   (if (eof_in (bufs st) =? 0)%Z then refill st else Continue st)).
    { destruct (Z.eqb_spec (eof_in (bufs st)) 0); [now apply Hrefill | exact HP]. }
    destruct (if (eof_in (bufs st) =? 0)%Z then refill st else Continue st)
      as [st1 | o]; cbn [step_meets] in Hr; [|exact Hr].
    destruct (rs_job_iter job_work st1) as [[res st2]|] eqn:Ejob;
      [|now apply Hfault].
    pose proof (Hjob _ _ _ Hr Ejob) as HP2.
    destruct (negb (is_done res) && negb (is_blocked res)); [now apply Hret|].
    pose proof (Hdrain _ HP2) as Hd.
    destruct (drain st2) as [st3 | o]; cbn [step_meets] in Hd; [|exact Hd].
    destruct (is_done res); [now apply Hret | now apply IH].
Qed.

(** What [rs_job_iter] changes and what it leaves. *)
Lemma rs_job_iter_frame (st st' : state) (res : rs_result) :
  rs_job_iter job_work st = Some (res, st') ->
  exists used out,
    log st' = log st ++ [EvJob res used out] /\
    eof_in (bufs st') = eof_in (bufs st) /\
    in_buf st' = in_buf st /\
    file st' = file st /\ new st' = new st /\
    sock_in st' = sock_in st /\ sock_out st' = sock_out st /\
    used <= avail_in (bufs st) /\
    next_in (bufs st') = next_in (bufs st) + used /\
    avail_in (bufs st') = avail_in (bufs st) - used /\
    length out <= avail_out (bufs st) /\
    next_out (bufs st') = next_out (bufs st) + length out /\
    avail_out (bufs st') = avail_out (bufs st) - length out /\
    Mem.store (out_buf st) (next_out (bufs st)) out = Some (out_buf st').
Proof.
  unfold rs_job_iter.
  destruct (Mem.load (in_buf st) (next_in (bufs st)) (avail_in (bufs st)))
    as [w|]; [|discriminate].
  destruct (job_work (job st) w (eof_in (bufs st)) (avail_out (bufs st)))
    as [[[r used] out] j].
  destruct (Nat.leb_spec used (avail_in (bufs st))); cbn [andb]; [|discriminate].
  destruct (Nat.leb_spec (length out) (avail_out (bufs st))); [|discriminate].
  destruct (Mem.store (out_buf st) (next_out (bufs st)) out) as [ob|] eqn:Est;
    [|discriminate].
  intros E. injection E as <- <-.
  exists used, out. cbn. repeat split; try reflexivity; assumption.
Qed.

End LoopRules.

(** ** The stream end flag *)

Lemma end_of_data_is_pull (e : event) :
  is_end_of_data e = true -> is_pull e = true.
Proof.
  destruct e as [? ? ?|? [[? ?]|]| | |]; cbn; intros H;
    try reflexivity; discriminate.
Qed.

Section StreamEnd.

Variable ends : event -> bool.
Hypothesis ends_pull : forall e, ends e = true -> is_pull e = true.

Lemma no_pull_after_snoc_quiet (l : list event) (e : event) :
  is_pull e = false ->
  no_pull_after ends l = true -> no_pull_after ends (l ++ [e]) = true.
Proof.
  intros He. induction l as [|x l IH]; cbn [no_pull_after app]; intros H.
  - destruct (ends e) eqn:E; [|reflexivity].
    apply ends_pull in E. congruence.
  - apply andb_true_iff in H as [H1 H2].
    apply andb_true_iff. split; [|now apply IH].
    destruct (ends x); [|reflexivity].
    rewrite forallb_app, H1. cbn. now rewrite He.
Qed.

Lemma no_pull_after_snoc_first (l : list event) (e : event) :
  existsb ends l = false -> no_pull_after ends (l ++ [e]) = true.
Proof.
  induction l as [|x l IH]; cbn [no_pull_after existsb app]; intros H.
  - destruct (ends e); reflexivity.
  - apply orb_false_iff in H as [H1 H2].
    rewrite H1. cbn. now apply IH.
Qed.

Variable J : Type.

(** An event that is no pull, with [eof_in] as it was. *)
Lemma kept_quiet (st st' : pump J) (e : event) :
  is_pull e = false ->
  log st' = log st ++ [e] ->
  eof_in (bufs st') = eof_in (bufs st) ->
  stream_end_kept ends st = true -> stream_end_kept ends st' = true.
Proof.
  intros He Hlog Heof. unfold stream_end_kept.
  rewrite Hlog, Heof, existsb_app. cbn [existsb].
  assert (Hne : ends e = false).
  { destruct (ends e) eqn:E; [|reflexivity]. apply ends_pull in E. congruence. }
  rewrite Hne, !orb_false_r.
  intros H. apply andb_true_iff in H as [H1 H2].
  rewrite H1. cbn. now apply no_pull_after_snoc_quiet.
Qed.

(** A pull made while [eof_in] is clear; if it is one of the singled out
    events, [eof_in] is set afterwards. *)
Lemma kept_pull (st st' : pump J) (e : event) :
  eof_in (bufs st) = 0%Z ->
  log st' = log st ++ [e] ->
  (ends e = true -> eof_in (bufs st') <> 0%Z) ->
  stream_end_kept ends st = true -> stream_end_kept ends st' = true.
Proof.
  intros Hclear Hlog Hset. unfold stream_end_kept.
  rewrite Hlog, Hclear, existsb_app. cbn [existsb Z.eqb negb].
  intros H. apply andb_true_iff in H as [H1 H2].
  assert (Hnone : existsb ends (log st) = false)
    by (destruct (existsb ends (log st)); [discriminate | reflexivity]).
  rewrite Hnone, no_pull_after_snoc_first by assumption.
  cbn. rewrite orb_false_r, andb_true_r.
  destruct (ends e) eqn:E; [|reflexivity].
  destruct (Z.eqb_spec (eof_in (bufs st')) 0); [|reflexivity].
  now elim Hset.
Qed.

End StreamEnd.

(** When [fread], asked for at least one byte, delivers none and sets no
    error indicator, the end-of-file indicator is set. *)
Lemma fread_end (f f' : FILE) (nmemb : nat) (got : list byte) :
  fread f nmemb = (got, f') ->
  0 < nmemb -> length got = 0 -> f_err f' = false -> f_eof f' = true.
Proof.
  unfold fread. destruct (Nat.eqb_spec nmemb 0); [lia|].
  intros E Hn Hgot Herr. injection E as <- <-. cbn [f_err f_eof] in *.
  rewrite length_firstn in Hgot.
  assert (Hshort : (length (f_data f) <? nmemb) = true)
    by (apply Nat.ltb_lt; lia).
  rewrite Hshort in *. cbn [andb] in *.
  apply orb_false_iff in Herr as [_ Herr].
  apply negb_false_iff in Herr. rewrite Herr. apply orb_true_r.
Qed.

Section StreamEndLoops.

Variable J : Type.
Variable job_work : J -> list byte -> Z -> nat -> rs_result * nat * list byte * J.
Variable cap : nat.

Local Abbreviation kept := (@stream_end_kept is_end_of_data J).
Local Abbreviation kept_at_end := (fun o : outcome (pump J) => kept (final o) = true).

Lemma refill_file_keeps (chk : bool) (st : pump J) :
  kept st = true -> eof_in (bufs st) = 0%Z ->
  step_meets (fun s => kept s = true) kept_at_end (refill_file cap chk st).
Proof.
  intros HP Hclear. unfold refill_file.
  destruct (move_tail st) as [ib|]; [|exact HP].
  destruct (fread (file st) (cap - avail_in (bufs st))) as [got f] eqn:Efr.
  destruct (Mem.store ib (avail_in (bufs st)) got) as [ib'|]; [|exact HP].
  set (ev := EvFread (cap - avail_in (bufs st)) (length got) (f_err f)).
  assert (Hend : is_end_of_data ev = true -> feof f <> 0%Z).
  { unfold ev, is_end_of_data. intros H.
    apply andb_true_iff in H as [H Herr].
    apply andb_true_iff in H as [Hn Hz].
    apply Nat.ltb_lt in Hn. apply Nat.eqb_eq in Hz.
    apply negb_true_iff in Herr.
    unfold feof. now rewrite (fread_end _ _ _ _ Efr Hn Hz Herr). }
  destruct (Nat.eqb_spec (length got) 0) as [Hz | Hnz].
  - destruct (negb (ferror f =? 0)%Z) eqn:Eerr.
    + cbn. apply (kept_pull is_end_of_data J st _ ev Hclear);
        [reflexivity | | exact HP].
      intros H. unfold ev, is_end_of_data in H.
      unfold ferror in Eerr. destruct (f_err f); [|discriminate].
      cbn [negb] in H. now rewrite andb_false_r in H.
    + destruct (chk && (feof f =? 0)%Z) eqn:Echk.
      * cbn. apply (kept_pull is_end_of_data J st _ ev Hclear);
          [reflexivity | | exact HP].
        intros H. apply Hend in H. apply andb_true_iff in Echk as [_ Echk].
        apply Z.eqb_eq in Echk. contradiction.
      * cbn. apply (kept_pull is_end_of_data J st _ ev Hclear);
          [reflexivity | exact Hend | exact HP].
  - cbn. apply (kept_pull is_end_of_data J st _ ev Hclear);
      [reflexivity | | exact HP].
    intros H. unfold ev, is_end_of_data in H.
    apply Nat.eqb_neq in Hnz. rewrite Hnz in H.
    now rewrite andb_false_r in H.
Qed.

Lemma refill_socket_keeps (st : pump J) :
  kept st = true -> eof_in (bufs st) = 0%Z ->
  step_meets (fun s => kept s = true) kept_at_end (refill_socket st).
Proof.
  intros HP Hclear. unfold refill_socket.
  destruct (move_tail st) as [ib|]; [|exact HP].
  destruct (recv_message (sock_in st) ib (avail_in (bufs st)))
    as [|ret cells ib' s]; [exact HP|].
  destruct cells as [[n e]|].
  - assert (Hend : is_end_of_data (EvRecv ret (Some (n, e))) = true -> e <> 0%Z).
    { cbn. intros H. apply negb_true_iff in H. now apply Z.eqb_neq. }
    destruct (ret =? -1)%Z; cbn;
      apply (kept_pull is_end_of_data J st _ (EvRecv ret (Some (n, e))) Hclear);
      try reflexivity; assumption.
  - cbn. apply (kept_pull is_end_of_data J st _ (EvRecv ret None) Hclear);
      [reflexivity | discriminate | exact HP].
Qed.

Lemma job_keeps (st st' : pump J) (res : rs_result) :
  kept st = true -> rs_job_iter job_work st = Some (res, st') -> kept st' = true.
Proof.
  intros HP E.
  destruct (rs_job_iter_frame _ _ _ _ _ E) as (used & out & Hlog & Heof & _).
  now apply (kept_quiet _ end_of_data_is_pull _ st st' (EvJob res used out)).
Qed.

Lemma drain_socket_keeps (st : pump J) :
  kept st = true ->
  step_meets (fun s => kept s = true) kept_at_end (drain_socket cap st).
Proof.
  intros HP. unfold drain_socket.
  destruct (0 <? next_out (bufs st)); [|exact HP].
  destruct (send_message (sock_out st) (out_buf st) (next_out (bufs st))
                         (eof_in (bufs st))) as [s | ret s]; [exact HP|].
  destruct (ret =? -1)%Z; cbn;
    eapply (kept_quiet _ end_of_data_is_pull _ st _ (EvSend _ _ ret));
    try reflexivity; exact HP.
Qed.

Lemma drain_file_keeps (st : pump J) :
  kept st = true ->
  step_meets (fun s => kept s = true) kept_at_end (drain_file cap st).
Proof.
  intros HP. unfold drain_file.
  destruct (0 <? next_out (bufs st)); [|exact HP].
  destruct (fwrite (new st) (firstn (next_out (bufs st)) (out_buf st)))
    as [n f].
  destruct (n =? 0); cbn;
    eapply (kept_quiet _ end_of_data_is_pull _ st _ (EvFwrite _ n));
    try reflexivity; exact HP.
Qed.

Lemma loop_keeps (refill drain : pump J -> step (pump J)) :
  (forall st, kept st = true -> eof_in (bufs st) = 0%Z ->
              step_meets (fun s => kept s = true) kept_at_end (refill st)) ->
  (forall st, kept st = true ->
              step_meets (fun s => kept s = true) kept_at_end (drain st)) ->
  forall fuel st, kept st = true ->
                  kept (final (pump_loop job_work refill drain fuel st)) = true.
Proof.
  intros Hrefill Hdrain fuel st HP.
  apply (pump_loop_rule J job_work (fun s => kept s = true) kept_at_end
                        refill drain); try assumption;
    try (intros; assumption).
  intros s res s' Hs E. now apply (job_keeps s s' res).
Qed.

End StreamEndLoops.

(** C6, as amended.  In a run of any of the four loops: once a pull that
    had asked for at least one byte reports no new byte and no error (file),
    or a message arrives with the end-of-file flag (socket), [eof_in] is
    set; it is still set at every later point of the run, and no pull
    follows.  It holds at the end of every run and, taking [fuel] smaller,
    at the start of every iteration. *)
Theorem stream_end_latches
        (J : Type)
        (job_work : J -> list byte -> Z -> nat -> rs_result * nat * list byte * J)
        (cap fuel : nat) (lib : rs_result) (name_fits : bool) (st : pump J) :
  log st = [] ->
  stream_end_kept is_end_of_data
    (final (send_signature job_work cap lib fuel st)) = true /\
  stream_end_kept is_end_of_data
    (final (send_delta job_work cap lib fuel st)) = true /\
  stream_end_kept is_end_of_data
    (final (recv_signature job_work fuel st)) = true /\
  stream_end_kept is_end_of_data
    (final (recv_delta_and_patch_file job_work cap name_fits fuel st)) = true.
Proof.
  intros Hlog.
  assert (H0 : stream_end_kept is_end_of_data st = true)
    by (unfold stream_end_kept; now rewrite Hlog).
  assert (H1 : forall b, stream_end_kept is_end_of_data (set_bufs st b) = true)
    by (intros b; unfold stream_end_kept; cbn; now rewrite Hlog).
  unfold send_signature, send_delta, recv_signature, recv_delta_and_patch_file.
  repeat split.
  - destruct (negb (is_done lib)); [exact H0|].
    apply loop_keeps; [apply refill_file_keeps | apply drain_socket_keeps | apply H1].
  - destruct (negb (is_done lib)); [exact H0|].
    apply loop_keeps; [apply refill_file_keeps | apply drain_socket_keeps | apply H1].
  - apply loop_keeps; [apply refill_socket_keeps | intros; assumption | apply H1].
  - destruct (negb name_fits); [exact H0|].
    apply loop_keeps; [apply refill_socket_keeps | apply drain_file_keeps | apply H1].
Qed.

Lemma stream_end_latches_witness :
  let st := world 10 4 (file_of [x01; x02; x03; x04; x05; x06; x07; x08; x09; x0a])
                  quiet_new
                  (quiet_r (frame_bytes [x01; x02; x03] 0 ++ frame_bytes [x04] 1))
                  (quiet_w []) in
  stream_end_kept is_end_of_data
    (final (send_signature copy_work 4 RS_DONE 9 st)) = true /\
  stream_end_kept is_end_of_data
    (final (send_delta copy_work 4 RS_DONE 9 st)) = true /\
  stream_end_kept is_end_of_data
    (final (recv_signature copy_work 9 st)) = true /\
  stream_end_kept is_end_of_data
    (final (recv_delta_and_patch_file copy_work 4 true 9 st)) = true.
Proof.
  intros st.
  apply (stream_end_latches nat copy_work 4 9 RS_DONE true st).
  reflexivity.
Defined.

(** ** The sending loops stay within the protocol's bound *)

Lemma store_bound (mem : list byte) (off : nat) (d mem' : list byte) :
  Mem.store mem off d = Some mem' -> off + length d <= length mem.
Proof.
  unfold Mem.store.
  destruct (Nat.leb_spec (off + length d) (length mem)); [easy | discriminate].
Qed.

Lemma send_message_assert (s s' : wsock) (msg : list byte) (len : nat) (eof : Z) :
  send_message s msg len eof = SendAssert s' -> BUFFER_SIZE < len.
Proof.
  unfold send_message. intros H.
  destruct (Nat.le_gt_cases len BUFFER_SIZE) as [Hle | Hgt]; [|exact Hgt].
  rewrite assert_len_passes in H by assumption.
  destruct (sys_write s _) as [r s1].
  destruct (negb (r =? 2)%Z); [discriminate|].
  destruct (0 <? len); [|discriminate].
  destruct (sys_write s1 _) as [r2 s2].
  destruct (negb (r2 =? Z.of_nat len)%Z); discriminate.
Qed.

Lemma sends_fit_snoc (l : list event) (e : event) :
  sends_fit l ->
  (forall payload eof ret,
      e = EvSend payload eof ret -> length payload <= BUFFER_SIZE) ->
  sends_fit (l ++ [e]).
Proof.
  intros Hl He payload eof ret Hin.
  apply in_app_or in Hin as [Hin | [Hin | []]].
  - now apply (Hl payload eof ret).
  - now apply (He payload eof ret).
Qed.

Section SendBound.

Variable J : Type.
Variable job_work : J -> list byte -> Z -> nat -> rs_result * nat * list byte * J.
Variable cap : nat.
Hypothesis cap_fits : cap <= BUFFER_SIZE.

Local Abbreviation ok := (@out_ok cap J).
Local Abbreviation ok_end :=
  (fun o : outcome (pump J) => ok (final o) /\ not_assert_len o).

Lemma refill_file_out_ok (chk : bool) (st : pump J) :
  ok st -> step_meets ok ok_end (refill_file cap chk st).
Proof.
  intros (Hlen & Hout & Hfit). unfold refill_file.
  destruct (move_tail st) as [ib|]; [|now repeat split].
  destruct (fread (file st) (cap - avail_in (bufs st))) as [got f].
  destruct (Mem.store ib (avail_in (bufs st)) got) as [ib'|];
    [|now repeat split].
  assert (Hfit' : sends_fit
                    (log st ++ [EvFread (cap - avail_in (bufs st))
                                        (length got) (f_err f)]))
    by (apply sends_fit_snoc; [assumption | discriminate]).
  destruct (length got =? 0).
  - destruct (negb (ferror f =? 0)%Z); [now repeat split|].
    destruct (chk && (feof f =? 0)%Z); now repeat split.
  - now repeat split.
Qed.

Lemma job_out_ok (st st' : pump J) (res : rs_result) :
  ok st -> rs_job_iter job_work st = Some (res, st') -> ok st'.
Proof.
  intros (Hlen & Hout & Hfit) E.
  destruct (rs_job_iter_frame _ _ _ _ _ E)
    as (used & out & Hlog & _ & _ & _ & _ & _ & _ & _ & _ & _ & _ & Hno & _ & Hst).
  pose proof (store_bound _ _ _ _ Hst) as Hb.
  pose proof (store_length _ _ _ _ Hst) as Hl.
  repeat split.
  - congruence.
  - lia.
  - rewrite Hlog. apply sends_fit_snoc; [assumption | discriminate].
Qed.

Lemma drain_socket_out_ok (st : pump J) :
  ok st -> step_meets ok ok_end (drain_socket cap st).
Proof.
  intros (Hlen & Hout & Hfit). unfold drain_socket.
  destruct (0 <? next_out (bufs st)); [|now repeat split].
  destruct (send_message (sock_out st) (out_buf st) (next_out (bufs st))
                         (eof_in (bufs st))) as [s | ret s] eqn:Esend.
  - apply send_message_assert in Esend. lia.
  - assert (Hfit' : sends_fit
                      (log st ++ [EvSend (firstn (next_out (bufs st)) (out_buf st))
                                         (eof_in (bufs st)) ret])).
    { apply sends_fit_snoc; [assumption|].
      intros payload eof r E. injection E as <- _ _.
      rewrite length_firstn. lia. }
    destruct (ret =? -1)%Z; cbn; repeat split; try assumption; cbn; lia.
Qed.

Lemma sending_loop_out_ok (chk : bool) (fuel : nat) (st : pump J) :
  ok st ->
  ok_end (pump_loop job_work (refill_file cap chk) (drain_socket cap) fuel st).
Proof.
  intros Hok.
  apply (pump_loop_rule J job_work ok ok_end); try assumption.
  - intros s Hs. split; [exact Hs | exact I].
  - intros s Hs. split; [exact Hs | exact I].
  - intros s r Hs. split; [exact Hs | exact I].
  - intros s Hs _. now apply refill_file_out_ok.
  - intros s res s' Hs E. now apply (job_out_ok s s' res).
  - exact drain_socket_out_ok.
Qed.

End SendBound.

(** C10.  [send_signature] and [send_delta] call [send_message] with
    [present = next_out - out_buf] bytes, never more than the size of
    [out_buf], which is at most 32767: every payload they hand over is
    within the bound, and no run ends on the assertion at the top of
    [send_message]. *)
Theorem pump_payloads_fit
        (J : Type)
        (job_work : J -> list byte -> Z -> nat -> rs_result * nat * list byte * J)
        (cap fuel : nat) (lib : rs_result) (st : pump J) (o : outcome (pump J)) :
  cap <= BUFFER_SIZE ->
  length (out_buf st) = cap ->
  log st = [] ->
  o = send_signature job_work cap lib fuel st \/
  o = send_delta job_work cap lib fuel st ->
  not_assert_len o /\ sends_fit (log (final o)).
Proof.
  intros Hcap Hlen Hlog Ho.
  assert (H0 : sends_fit (log st)) by (rewrite Hlog; intros ? ? ? []).
  assert (H1 : out_ok cap (set_bufs st (bufs_in_out cap))).
  { repeat split; cbn; try assumption; lia. }
  unfold send_signature, send_delta in Ho.
  destruct Ho as [-> | ->].
  - destruct (negb (is_done lib)); [now split|].
    destruct (sending_loop_out_ok J job_work cap Hcap true fuel _ H1)
      as ((_ & _ & Hfit) & Hna); now split.
  - destruct (negb (is_done lib)); [now split|].
    destruct (sending_loop_out_ok J job_work cap Hcap false fuel _ H1)
      as ((_ & _ & Hfit) & Hna); now split.
Qed.

Lemma pump_payloads_fit_witness :
  let st := world 10 4 (file_of [x01; x02; x03; x04; x05; x06; x07; x08; x09; x0a])
                  quiet_new (quiet_r []) (quiet_w []) in
  not_assert_len (send_delta copy_work 4 RS_DONE 9 st) /\
  sends_fit (log (final (send_delta copy_work 4 RS_DONE 9 st))).
Proof.
  intros st.
  apply (pump_payloads_fit nat copy_work 4 9 RS_DONE st
                           (send_delta copy_work 4 RS_DONE 9 st)).
  - apply Nat.leb_le. vm_compute. reflexivity.
  - reflexivity.
  - reflexivity.
  - right. reflexivity.
Defined.

(** ** The refill from a file *)

Lemma load_fits (mem : list byte) (off n : nat) :
  off + n <= length mem ->
  Mem.load mem off n = Some (firstn n (skipn off mem)).
Proof.
  intros H. unfold Mem.load.
  destruct (Nat.leb_spec (off + n) (length mem)); [reflexivity | lia].
Qed.

Lemma load_length (mem : list byte) (off n : nat) (d : list byte) :
  Mem.load mem off n = Some d -> length d = n /\ off + n <= length mem.
Proof.
  unfold Mem.load.
  destruct (Nat.leb_spec (off + n) (length mem)) as [H|H]; [|discriminate].
  intros E. injection E as <-.
  rewrite length_firstn, length_skipn. lia.
Qed.

Lemma fread_spec (f : FILE) (nmemb : nat) :
  fst (fread f nmemb) = firstn nmemb (f_data f) /\
  f_data (snd (fread f nmemb)) = skipn nmemb (f_data f) /\
  f_end (snd (fread f nmemb)) = f_end f.
Proof.
  unfold fread. destruct (Nat.eqb_spec nmemb 0) as [-> | _]; cbn; auto.
Qed.

Section FileRefill.

Variable J : Type.
Variable cap : nat.

(** In a well-formed state the tail moves to the front of [in_buf]. *)
Lemma move_tail_spec (st : pump J) (tail : list byte) :
  window_ok cap st -> window st = Some tail ->
  move_tail st = Some (tail ++ skipn (avail_in (bufs st)) (in_buf st)).
Proof.
  intros [Hlen Hwin] Hw. unfold window in Hw.
  destruct (load_length _ _ _ _ Hw) as [Htl _].
  unfold move_tail, Mem.move.
  destruct (Nat.ltb_spec 0 (avail_in (bufs st))) as [Hpos | Hzero].
  - rewrite Hw. rewrite store_fits by lia.
    cbn [firstn app Nat.add]. now rewrite Htl.
  - assert (Hz : avail_in (bufs st) = 0) by lia.
    rewrite Hz in *. destruct tail; [reflexivity | discriminate].
Qed.

(** [refill_file] with its memory operations carried out: the array
    afterwards is the tail, then the bytes read, then what was there. *)
Lemma refill_file_spec (chk : bool) (st : pump J) (tail : list byte) :
  window_ok cap st -> window st = Some tail ->
  let b := bufs st in
  let nmemb := cap - avail_in b in
  let got := fst (fread (file st) nmemb) in
  let f := snd (fread (file st) nmemb) in
  let ib := tail ++ got ++ skipn (avail_in b + length got) (in_buf st) in
  let st1 := record (set_file (set_in_buf st ib) f)
                    (EvFread nmemb (length got) (f_err f)) in
  length ib = cap /\
  avail_in b + length got <= cap /\
  refill_file cap chk st
  = if length got =? 0 then
      if negb (ferror f =? 0)%Z then Stop (Returned (-1) st1)
      else if chk && (feof f =? 0)%Z
           then Stop (Aborted AssertEof
                        (set_bufs st1 {| next_in := next_in b;
                                         avail_in := avail_in b;
                                         eof_in := feof f;
                                         next_out := next_out b;
                                         avail_out := avail_out b |}))
           else Continue (set_bufs st1 (rewind_in b (length got) (feof f)))
    else Continue (set_bufs st1 (rewind_in b (length got) (eof_in b))).
Proof.
  intros Hok Hw b nmemb got f ib st1.
  pose proof Hok as [Hlen Hwin].
  destruct (load_length _ _ _ _ Hw) as [Htl _]. fold b in Htl, Hwin.
  assert (Hgot : length got <= nmemb).
  { unfold got. destruct (fread_spec (file st) nmemb) as [-> _].
    apply firstn_le_length. }
  assert (Hib : length ib = cap).
  { unfold ib. rewrite !length_app, length_skipn. unfold nmemb in Hgot. lia. }
  split; [exact Hib|]. split; [unfold nmemb in Hgot; lia|].
  unfold refill_file. rewrite (move_tail_spec st tail Hok Hw).
  fold b. fold nmemb.
  destruct (fread (file st) nmemb) as [got' f'] eqn:Efr.
  cbn [fst snd] in got, f. subst got f.
  rewrite store_fits
    by (rewrite length_app, length_skipn; unfold nmemb in Hgot; lia).
  replace (firstn (avail_in b) (tail ++ skipn (avail_in b) (in_buf st))) with tail
    by (rewrite <- Htl, firstn_app, Nat.sub_diag, firstn_all;
        cbn [firstn]; now rewrite app_nil_r).
  replace (skipn (avail_in b + length got')
                 (tail ++ skipn (avail_in b) (in_buf st)))
    with (skipn (avail_in b + length got') (in_buf st)).
  2:{ rewrite skipn_app, Htl.
      rewrite (skipn_all2 tail) by lia. cbn [app].
      replace (avail_in b + length got' - avail_in b) with (length got') by lia.
      rewrite skipn_skipn. f_equal. lia. }
  reflexivity.
Qed.

End FileRefill.

Lemma firstn_two_parts (a b c : list byte) :
  firstn (length a + length b) (a ++ b ++ c) = a ++ b.
Proof.
  rewrite firstn_app_2, firstn_app, Nat.sub_diag, firstn_all.
  cbn [firstn]. now rewrite app_nil_r.
Qed.

(** C8.  Leftover carry-over in [send_signature] and [send_delta].  When
    the job has left [tail] unconsumed in the input window, the refill
    moves exactly these bytes, unchanged and in order, to the start of
    [in_buf], and the bytes [fread] delivers are stored right behind them:
    the next window is the tail followed by the new bytes.  When the refill
    ends the run instead, nothing was read and the tail is at the start of
    the array all the same. *)
Theorem refill_keeps_tail (J : Type) (cap : nat) (chk : bool)
        (st : pump J) (tail : list byte) :
  window_ok cap st -> window st = Some tail ->
  let got := fst (fread (file st) (cap - avail_in (bufs st))) in
  match refill_file cap chk st with
  | Continue st' =>
      next_in (bufs st') = 0 /\
      avail_in (bufs st') = length tail + length got /\
      window st' = Some (tail ++ got) /\
      window_ok cap st'
  | Stop (Returned _ st') | Stop (Aborted _ st') =>
      got = [] /\ Mem.load (in_buf st') 0 (length tail) = Some tail
  | Stop _ => False
  end.
Proof.
  intros Hok Hw got.
  destruct (refill_file_spec J cap chk st tail Hok Hw) as (Hib & Hsum & Heq).
  destruct (load_length _ _ _ _ Hw) as [Htl _].
  fold got in Hib, Hsum, Heq. rewrite Heq. clear Heq.
  set (rest := skipn (avail_in (bufs st) + length got) (in_buf st)) in *.
  assert (Hfront : Mem.load (tail ++ got ++ rest) 0 (length tail + length got)
                   = Some (tail ++ got)).
  { rewrite load_fits by (rewrite !length_app; lia).
    cbn [skipn]. now rewrite firstn_two_parts. }
  assert (Hcont : forall e,
             let st' := set_bufs
                          (record (set_file (set_in_buf st (tail ++ got ++ rest))
                                            (snd (fread (file st)
                                                        (cap - avail_in (bufs st)))))
                                  (EvFread (cap - avail_in (bufs st)) (length got)
                                           (f_err (snd (fread (file st)
                                                      (cap - avail_in (bufs st)))))))
                          (rewind_in (bufs st) (length got) e) in
             next_in (bufs st') = 0 /\
             avail_in (bufs st') = length tail + length got /\
             window st' = Some (tail ++ got) /\
             window_ok cap st').
  { intros e st'. unfold window, window_ok. cbn.
    rewrite <- Htl. repeat split; try assumption; try lia. }
  destruct (Nat.eqb_spec (length got) 0) as [Hz | Hnz].
  - assert (Hnil : got = []) by (destruct got; [reflexivity | discriminate]).
    assert (Htail : Mem.load (tail ++ got ++ rest) 0 (length tail) = Some tail).
    { rewrite Hnil in *. cbn [length] in Hfront.
      rewrite Nat.add_0_r, app_nil_r in Hfront. exact Hfront. }
    destruct (negb (ferror _ =? 0)%Z); [now split|].
    destruct (chk && (feof _ =? 0)%Z); [now split|].
    apply Hcont.
  - apply Hcont.
Qed.

Lemma refill_keeps_tail_witness :
  match refill_file 4 false tail_state with
  | Continue st' =>
      next_in (bufs st') = 0 /\
      avail_in (bufs st') = 2 + 2 /\
      window st' = Some ([x63; x64] ++ [x65; x66]) /\
      window_ok 4 st'
  | Stop (Returned _ st') | Stop (Aborted _ st') =>
      [x65; x66] = [] /\ Mem.load (in_buf st') 0 2 = Some [x63; x64]
  | Stop _ => False
  end.
Proof.
  apply (refill_keeps_tail nat 4 false tail_state [x63; x64]).
  - split; [reflexivity | simpl; lia].
  - reflexivity.
Defined.

(** ** Records of events *)

Lemma sent_frames_app (l l' : list event) :
  sent_frames (l ++ l') = sent_frames l ++ sent_frames l'.
Proof.
  induction l as [|e l IH]; [reflexivity|].
  destruct e as [? ? ?|? ?|? ? ?|p e r|? ?]; cbn [app sent_frames]; try exact IH.
  destruct (r =? 0)%Z; [|exact IH].
  now rewrite IH.
Qed.

Lemma job_output_app (l l' : list event) :
  job_output (l ++ l') = job_output l ++ job_output l'.
Proof.
  induction l as [|e l IH]; [reflexivity|].
  destruct e; cbn [app job_output]; try exact IH.
  now rewrite IH, app_assoc.
Qed.

Lemma frames_wire_app (fs fs' : list (list byte * Z)) :
  frames_wire (fs ++ fs') = frames_wire fs ++ frames_wire fs'.
Proof. apply flat_map_app. Qed.

Lemma quiet_w_eta (s : wsock) : w_script s = [] -> s = quiet_w (w_wire s).
Proof. destruct s as [sc w]. cbn. now intros ->. Qed.

(** ** Termination and delivery for sized jobs *)

Lemma fread_flags (f : FILE) (nmemb : nat) :
  0 < nmemb ->
  f_err (snd (fread f nmemb))
  = f_err f || ((length (f_data f) <? nmemb) && negb (at_eof (f_end f))) /\
  f_eof (snd (fread f nmemb))
  = f_eof f || ((length (f_data f) <? nmemb) && at_eof (f_end f)).
Proof.
  intros H. unfold fread.
  destruct (Nat.eqb_spec nmemb 0); [lia|]. cbn [snd f_err f_eof]. auto.
Qed.

Lemma delivered_quiet_event (J : Type) (st st' : pump J) (e : event) :
  log st' = log st ++ [e] ->
  sock_out st' = sock_out st ->
  sent_frames [e] = [] -> job_output [e] = [] ->
  delivered st -> delivered st'.
Proof.
  intros Hlog Hsock Hs Hj [Hw Hp]. unfold delivered.
  rewrite Hlog, Hsock, sent_frames_app, job_output_app, Hs, Hj, !app_nil_r.
  now split.
Qed.

(** [rs_job_iter] with its memory operations carried out. *)
Lemma rs_job_iter_explicit
      (J : Type)
      (job_work : J -> list byte -> Z -> nat -> rs_result * nat * list byte * J)
      (st : pump J) (w out : list byte) (res : rs_result) (used : nat) (j : J) :
  window st = Some w ->
  job_work (job st) w (eof_in (bufs st)) (avail_out (bufs st)) = (res, used, out, j) ->
  used <= avail_in (bufs st) ->
  length out <= avail_out (bufs st) ->
  next_out (bufs st) + length out <= length (out_buf st) ->
  rs_job_iter job_work st
  = Some (res,
          record
            (set_job
               (set_out_buf
                  (set_bufs st {| next_in := next_in (bufs st) + used;
                                  avail_in := avail_in (bufs st) - used;
                                  eof_in := eof_in (bufs st);
                                  next_out := next_out (bufs st) + length out;
                                  avail_out := avail_out (bufs st) - length out |})
                  (firstn (next_out (bufs st)) (out_buf st) ++ out
                   ++ skipn (next_out (bufs st) + length out) (out_buf st)))
               j)
            (EvJob res used out)).
Proof.
  intros Hw Hj Hused Hout Hfit. unfold window in Hw. unfold rs_job_iter.
  rewrite Hw, Hj.
  destruct (Nat.leb_spec used (avail_in (bufs st))); [|lia].
  destruct (Nat.leb_spec (length out) (avail_out (bufs st))); [|lia].
  cbn [andb]. now rewrite store_fits by assumption.
Qed.

(** [drain_socket] on a socket that takes everything. *)
Lemma drain_socket_quiet (J : Type) (cap : nat) (st : pump J) :
  w_script (sock_out st) = [] ->
  next_out (bufs st) <= BUFFER_SIZE ->
  next_out (bufs st) <= length (out_buf st) ->
  drain_socket cap st
  = Continue
      (if 0 <? next_out (bufs st) then
         set_bufs
           (record
              (set_sock_out st
                 (quiet_w (w_wire (sock_out st)
                           ++ frame_bytes (firstn (next_out (bufs st)) (out_buf st))
                                          (eof_in (bufs st)))))
              (EvSend (firstn (next_out (bufs st)) (out_buf st))
                      (eof_in (bufs st)) 0))
           (rewind_out cap (bufs st))
       else st).
Proof.
  intros Hq Hfit Hlen. unfold drain_socket.
  destruct (0 <? next_out (bufs st)); [|reflexivity].
  rewrite (quiet_w_eta _ Hq) at 1.
  rewrite send_message_quiet by assumption.
  reflexivity.
Qed.

Section SizedJob.

Variable J : Type.
Variable job_work : J -> list byte -> Z -> nat -> rs_result * nat * list byte * J.
Variable remaining : J -> nat.
Variable cap : nat.

Hypothesis cap_pos : 0 < cap.
Hypothesis cap_fits : cap <= BUFFER_SIZE.
Hypothesis job_sized : sized_job job_work remaining.

Lemma ready_fed (st : pump J) :
  ready cap remaining st -> eof_in (bufs st) <> 0%Z -> fed cap remaining st.
Proof.
  intros (Hwin & Hlt & Hsrc & Hsink) Heof.
  repeat split; try apply Hwin; try apply Hsrc; try apply Hsink.
  destruct Hsrc as (_ & _ & Hdata & Hrem).
  rewrite (Hdata Heof) in Hrem. cbn in Hrem. lia.
Qed.

Lemma refill_ready (chk : bool) (st : pump J) :
  ready cap remaining st -> eof_in (bufs st) = 0%Z ->
  exists st1,
    refill_file cap chk st = Continue st1 /\
    fed cap remaining st1 /\ job st1 = job st.
Proof.
  intros (Hwin & Hlt & (Hend & Herr & Hdata & Hrem) & Hsink) Hclear.
  pose proof Hwin as [Hlen Hb].
  assert (Hw : window st = Some (firstn (avail_in (bufs st))
                                        (skipn (next_in (bufs st)) (in_buf st))))
    by (unfold window; apply load_fits; lia).
  destruct (refill_file_spec J cap chk st _ Hwin Hw) as (Hib & Hsum & Heq).
  rewrite Heq. clear Heq.
  set (nmemb := cap - avail_in (bufs st)) in *.
  assert (Hn : 0 < nmemb) by (unfold nmemb; lia).
  destruct (fread_spec (file st) nmemb) as (Hgot & Hrest & Hend').
  destruct (fread_flags (file st) nmemb Hn) as (Herr' & Heof').
  rewrite Hend in Herr', Heof'. cbn [at_eof negb] in Herr', Heof'.
  rewrite andb_false_r, orb_false_r, Herr in Herr'.
  rewrite andb_true_r in Heof'.
  set (got := fst (fread (file st) nmemb)) in *.
  set (f := snd (fread (file st) nmemb)) in *.
  assert (Hsplit : length got + length (f_data f) = length (f_data (file st))).
  { rewrite Hgot, Hrest, <- length_app. now rewrite firstn_skipn. }
  assert (Hdel : forall b e,
             delivered (set_bufs
                          (record (set_file (set_in_buf st
                             (firstn (avail_in (bufs st))
                                     (skipn (next_in (bufs st)) (in_buf st))
                              ++ got ++ skipn (avail_in (bufs st) + length got)
                                              (in_buf st))) f)
                                  (EvFread nmemb (length got) e)) b)).
  { intros b e.
    apply (delivered_quiet_event J st _ (EvFread nmemb (length got) e));
      try reflexivity. apply Hsink. }
  destruct Hsink as (Hol & Hno & Hao & Hq & _).
  clearbody got f nmemb.
  destruct (Nat.eqb_spec (length got) 0) as [Hz | Hnz].
  - (* nothing read: the file is at its end *)
    assert (Hempty : length (f_data (file st)) = 0).
    { rewrite Hgot, length_firstn in Hz. lia. }
    assert (Hshort : (length (f_data (file st)) <? nmemb) = true)
      by (apply Nat.ltb_lt; lia).
    rewrite Hshort, orb_true_r in Heof'.
    unfold ferror, feof. rewrite Herr', Heof'. cbn [Z.eqb negb].
    rewrite andb_false_r.
    eexists. split; [reflexivity|]. split; [|reflexivity].
    split; [|split; [|split]].
    + split; cbn; [exact Hib | lia].
    + cbn. intros Hpos. lia.
    + unfold source_ok. cbn.
      split; [congruence|]. split; [assumption|]. split; [|lia].
      intros _. destruct (f_data f); [reflexivity | cbn in Hsplit; lia].
    + split; [exact Hol|]. split; [exact Hno|]. split; [exact Hao|].
      split; [exact Hq|]. apply Hdel.
  - eexists. split; [reflexivity|]. split; [|reflexivity].
    split; [|split; [|split]].
    + split; cbn; [exact Hib | lia].
    + cbn. intros Hpos. lia.
    + unfold source_ok. cbn.
      split; [congruence|]. split; [assumption|]. split; [|lia].
      intros Hne. now elim Hne.
    + split; [exact Hol|]. split; [exact Hno|]. split; [exact Hao|].
      split; [exact Hq|]. apply Hdel.
Qed.

Lemma work_and_drain (st1 : pump J) :
  fed cap remaining st1 ->
  exists res st2 st3,
    rs_job_iter job_work st1 = Some (res, st2) /\
    drain_socket cap st2 = Continue st3 /\
    res = (if remaining (job st3) =? 0 then RS_DONE else RS_BLOCKED) /\
    delivered st3 /\
    (remaining (job st3) <> 0 ->
     ready cap remaining st3 /\ remaining (job st3) < remaining (job st1)).
Proof.
  intros ((Hlen & Hb) & Hpos & (Hend & Herr & Hdata & Hrem)
          & (Hol & Hno & Hao & Hq & (Hwire & Hpay))).
  assert (Hw : window st1 = Some (firstn (avail_in (bufs st1))
                                         (skipn (next_in (bufs st1)) (in_buf st1))))
    by (unfold window; apply load_fits; lia).
  destruct (load_length _ _ _ _ Hw) as [Hwl _].
  set (w := firstn (avail_in (bufs st1)) (skipn (next_in (bufs st1)) (in_buf st1)))
    in *.
  destruct (job_work (job st1) w (eof_in (bufs st1)) (avail_out (bufs st1)))
    as [[[res used] out] j'] eqn:Ej.
  destruct (job_sized _ _ _ _ _ _ _ _ Ej) as (Hu & Ho & Hur & Hrem' & Hres & Hprog).
  rewrite Hwl in Hu. rewrite Hao in Ho. rewrite Hwl, Hao in Hprog.
  pose proof (rs_job_iter_explicit J job_work st1 w out res used j' Hw Ej) as Hit.
  rewrite Hao, Hno, Hol in Hit.
  specialize (Hit Hu Ho ltac:(lia)).
  cbn [firstn app Nat.add] in Hit.
  match type of Hit with _ = Some (_, ?s) => set (st2 := s) in * end.
  assert (Hfirst : firstn (length out) (out_buf st2) = out).
  { unfold st2. cbn [out_buf record set_job set_out_buf].
    rewrite firstn_app, Nat.sub_diag, firstn_all. cbn [firstn].
    apply app_nil_r. }
  assert (Hol2 : length (out_buf st2) = cap).
  { unfold st2. cbn [out_buf record set_job set_out_buf].
    rewrite length_app, length_skipn. lia. }
  assert (Hlog2 : log st2 = log st1 ++ [EvJob res used out]) by reflexivity.
  assert (Hno2 : next_out (bufs st2) = length out) by reflexivity.
  assert (Hdr := drain_socket_quiet J cap st2 Hq).
  rewrite Hno2, Hfirst in Hdr.
  specialize (Hdr ltac:(lia) ltac:(lia)).
  match type of Hdr with _ = Continue ?s => exists res, st2, s end.
  split; [exact Hit|]. split; [exact Hdr|]. clear Hdr.
  assert (Hready : forall st3 : pump J,
             in_buf st3 = in_buf st1 ->
             out_buf st3 = out_buf st2 ->
             file st3 = file st1 ->
             job st3 = j' ->
             w_script (sock_out st3) = [] ->
             next_in (bufs st3) = next_in (bufs st1) + used ->
             avail_in (bufs st3) = avail_in (bufs st1) - used ->
             eof_in (bufs st3) = eof_in (bufs st1) ->
             next_out (bufs st3) = 0 ->
             avail_out (bufs st3) = cap ->
             delivered st3 ->
             res = (if remaining (job st3) =? 0 then RS_DONE else RS_BLOCKED) /\
             delivered st3 /\
             (remaining (job st3) <> 0 ->
              ready cap remaining st3 /\ remaining (job st3) < remaining (job st1))).
  { intros st3 Hi3 Ho3 Hf3 Hj3 Hq3 Hni3 Hai3 He3 Hno3 Hao3 Hd3.
    rewrite Hj3. split; [exact Hres|]. split; [exact Hd3|].
    intros Hne.
    assert (Hused : 0 < used) by (apply Hprog; lia).
    split; [|lia].
    split; [split; [congruence | lia]|].
    split; [lia|].
    split.
    - unfold source_ok. rewrite Hf3, Hj3, He3, Hai3.
      repeat split; try assumption. lia.
    - split; [congruence|]. repeat split; try assumption; apply Hd3. }
  destruct (Nat.ltb_spec 0 (length out)) as [Hsome | Hnone].
  - apply Hready; try reflexivity.
    split; cbn [sock_out set_bufs record set_sock_out log w_wire quiet_w].
    + rewrite Hlog2, !sent_frames_app, !frames_wire_app.
      cbn [sent_frames frames_wire flat_map fst snd Z.eqb].
      rewrite !app_nil_r. unfold st2. cbn [sock_out record set_job set_out_buf set_bufs].
      now rewrite Hwire.
    + rewrite Hlog2, !sent_frames_app, !job_output_app, !flat_map_app.
      cbn [sent_frames job_output flat_map fst snd Z.eqb].
      rewrite !app_nil_r. now rewrite Hpay.
  - assert (Hnil : out = []) by (destruct out; [reflexivity | cbn in Hnone; lia]).
    apply Hready; try reflexivity; try exact Hq.
    + rewrite Hno2, Hnil. reflexivity.
    + change (cap - length out = cap). rewrite Hnil. cbn [length]. lia.
    + split.
      * rewrite Hlog2, sent_frames_app. cbn [sent_frames]. rewrite app_nil_r.
        exact Hwire.
      * rewrite Hlog2, sent_frames_app, job_output_app, Hnil.
        cbn [sent_frames job_output]. rewrite !app_nil_r. exact Hpay.
Qed.

(** From a ready state, [remaining + 1] iterations are enough: the loop
    returns 0 and the sink has all the job produced. *)
Lemma sized_loop_returns (chk : bool) (fuel : nat) :
  forall st : pump J,
    ready cap remaining st ->
    remaining (job st) < fuel ->
    exists st',
      pump_loop job_work (refill_file cap chk) (drain_socket cap) fuel st
      = Returned 0 st' /\
      delivered st' /\ remaining (job st') = 0.
Proof.
  induction fuel as [|fuel IH]; intros st Hready Hfuel; [lia|].
  cbn [pump_loop].
  assert (Hfed : exists st1,
             (if (eof_in (bufs st) =? 0)%Z
              then refill_file cap chk st else Continue st) = Continue st1 /\
             fed cap remaining st1 /\ job st1 = job st).
  { destruct (Z.eqb_spec (eof_in (bufs st)) 0) as [Hclear | Hset].
    - now apply refill_ready.
    - exists st. split; [reflexivity|]. split; [now apply ready_fed | reflexivity]. }
  destruct Hfed as (st1 & -> & Hfed & Hjob).
  destruct (work_and_drain st1 Hfed)
    as (res & st2 & st3 & -> & Hdrain & Hres & Hdel & Hnext).
  rewrite Hdrain. subst res.
  destruct (Nat.eqb_spec (remaining (job st3)) 0) as [Hdone | Hmore].
  - cbn [is_done is_blocked negb andb].
    exists st3. split; [reflexivity | split; assumption].
  - cbn [is_done is_blocked negb andb].
    destruct (Hnext Hmore) as [Hready3 Hless].
    apply IH; [exact Hready3 | rewrite Hjob in Hless; lia].
Qed.

End SizedJob.

Lemma copy_work_sized : sized_job copy_work (fun r => r).
Proof.
  intros r w eof room res used out r' E. unfold copy_work in E.
  injection E as <- <- <- <-.
  rewrite length_firstn.
  repeat split; try lia.
Qed.



(** ** The input window of the sending loops *)

Section SendingWindow.

Variable J : Type.
Variable job_work : J -> list byte -> Z -> nat -> rs_result * nat * list byte * J.
Variable cap : nat.

Local Abbreviation inside := (@window_ok cap J).
Local Abbreviation inside_at_end :=
  (fun o : outcome (pump J) => inside (final o)).

Lemma refill_file_window_ok (chk : bool) (st : pump J) :
  inside st -> step_meets inside inside_at_end (refill_file cap chk st).
Proof.
  intros Hok. pose proof Hok as [Hlen Hb].
  assert (Hw : window st = Some (firstn (avail_in (bufs st))
                                        (skipn (next_in (bufs st)) (in_buf st))))
    by (unfold window; apply load_fits; lia).
  destruct (refill_file_spec J cap chk st _ Hok Hw) as (Hib & Hsum & ->).
  destruct (length (fst (fread (file st) (cap - avail_in (bufs st)))) =? 0).
  - destruct (negb (ferror _ =? 0)%Z); [split; [exact Hib | exact Hb]|].
    destruct (chk && (feof _ =? 0)%Z); split; try exact Hib; cbn; lia.
  - split; [exact Hib | cbn; lia].
Qed.

Lemma job_window_ok (st st' : pump J) (res : rs_result) :
  inside st -> rs_job_iter job_work st = Some (res, st') -> inside st'.
Proof.
  intros [Hlen Hb] E.
  destruct (rs_job_iter_frame _ _ _ _ _ E)
    as (used & out & _ & _ & Hin & _ & _ & _ & _ & Hu & Hni & Hai & _).
  split; [congruence | lia].
Qed.

Lemma drain_socket_window_ok (st : pump J) :
  inside st -> step_meets inside inside_at_end (drain_socket cap st).
Proof.
  intros Hok. unfold drain_socket.
  destruct (0 <? next_out (bufs st)); [|exact Hok].
  destruct (send_message _ _ _ _) as [s | ret s]; [exact Hok|].
  destruct (ret =? -1)%Z; exact Hok.
Qed.

(** In [send_signature] and [send_delta] the input window stays inside
    [in_buf]: every refill, job call and drain keeps
    [next_in + avail_in <= sizeof(in_buf)]. *)
Lemma sending_loop_window_ok (chk : bool) (fuel : nat) (st : pump J) :
  inside st ->
  inside (final (pump_loop job_work (refill_file cap chk) (drain_socket cap)
                           fuel st)).
Proof.
  intros Hok.
  apply (pump_loop_rule J job_work inside inside_at_end); try assumption;
    try (intros; assumption).
  - intros s Hs _. now apply refill_file_window_ok.
  - intros s res s' Hs E. now apply (job_window_ok s s' res).
  - exact drain_socket_window_ok.
Qed.

End SendingWindow.

(** The receiving loop takes the first message with the flag set for the
    last one: given two messages that both carry the flag, it stops pulling
    after the first, and the second is never read. *)
Lemma receiver_stops_at_first_flag :
  match recv_signature late_work 2
          (world 0 BUFFER_SIZE (file_of []) quiet_new
                 (quiet_r (frame_bytes [x01] 1 ++ frame_bytes [x02] 1))
                 (quiet_w []))
  with
  | Returned ret st =>
      ret = 0%Z /\
      r_wire (sock_in st) = frame_bytes [x02] 1 /\
      length (filter is_pull (log st)) = 1
  | _ => False
  end.
Proof. vm_compute. repeat split; reflexivity. Qed.

(** ** The refill from the socket, when the message fits *)

Lemma sys_read_ret (s s' : rsock) (count : nat) (ret : Z) (d : list byte) :
  sys_read s count = (ret, d, s') ->
  (ret = (-1)%Z /\ d = []) \/ ret = Z.of_nat (length d).
Proof.
  unfold sys_read. destruct (r_script s) as [|k rest].
  - intros E. injection E as <- <- _. now right.
  - destruct (k <? 0)%Z; intros E; injection E as <- <- _; [now left | now right].
Qed.

(** What [recv_message] can have done to the caller's array: stored the
    bytes it read, all of them when it returns 0. *)
Lemma recv_message_stores (sock s : rsock) (mem mem' : list byte) (off : nat)
      (ret : Z) (cells : option (nat * Z)) :
  off <= length mem ->
  recv_message sock mem off = RecvRet ret cells mem' s ->
  exists data,
    Mem.store mem off data = Some mem' /\
    (ret = 0%Z \/ ret = (-1)%Z) /\
    (ret = 0%Z -> exists e, cells = Some (length data, e)).
Proof.
  intros Hoff. unfold recv_message.
  assert (Hnone : Mem.store mem off [] = Some mem).
  { rewrite store_fits by (cbn; lia). cbn [length app].
    now rewrite Nat.add_0_r, firstn_skipn. }
  destruct (sys_read sock 2) as [[r hdr] s1].
  destruct (negb (r =? 2)%Z).
  { intros E. injection E as <- <- <- <-. exists [].
    split; [exact Hnone|]. split; [now right | discriminate]. }
  destruct hdr as [|b0 [|b1 [|b2 hdr]]];
    try (intros E; injection E as <- <- <- <-; exists [];
         split; [exact Hnone|]; split; [now right | discriminate]).
  destruct (Nat.ltb_spec 0 (Z.to_nat (Z.shiftr (ntohs_bytes b0 b1) 1)))
    as [Hpos | Hzero].
  - destruct (sys_read s1 _) as [[r2 data] s2] eqn:Er.
    destruct (Mem.store mem off data) as [m|] eqn:Est; [|discriminate].
    destruct (Z.eqb_spec r2 (Z.of_nat (Z.to_nat (Z.shiftr (ntohs_bytes b0 b1) 1))))
      as [Heq | Hne]; cbn [negb]; intros E; injection E as <- <- <- <-;
      exists data; (split; [exact Est|]);
      [split; [now left|] | split; [now right | discriminate]].
    intros _. destruct (sys_read_ret _ _ _ _ _ Er) as [[Hr _] | Hr]; [lia|].
    eexists. f_equal. f_equal. lia.
  - intros E. injection E as <- <- <- <-. exists [].
    split; [|split; [now left|]]; [exact Hnone|].
    intros _. eexists. f_equal. f_equal. cbn [length]. lia.
Qed.

(** The counterpart of the carry-over for [recv_signature] and
    [recv_delta_and_patch_file]: unless the store leaves [in_buf], the tail
    is moved to the start of the array and the payload received is stored
    right behind it. *)
Lemma socket_refill_keeps_tail (J : Type) (cap : nat) (st : pump J)
      (tail : list byte) :
  window_ok cap st -> window st = Some tail ->
  match refill_socket st with
  | Continue st' =>
      next_in (bufs st') = 0 /\
      exists data, window st' = Some (tail ++ data)
  | Stop (Returned _ st') => Mem.load (in_buf st') 0 (length tail) = Some tail
  | Stop _ => True
  end.
Proof.
  intros Hok Hw. pose proof Hok as [Hlen Hb].
  destruct (load_length _ _ _ _ Hw) as [Htl _].
  unfold refill_socket. rewrite (move_tail_spec J cap st tail Hok Hw).
  set (ib := tail ++ skipn (avail_in (bufs st)) (in_buf st)).
  assert (Hibl : avail_in (bufs st) <= length ib)
    by (unfold ib; rewrite length_app; lia).
  destruct (recv_message (sock_in st) ib (avail_in (bufs st)))
    as [|ret cells ib' s] eqn:Erecv; [exact I|].
  destruct (recv_message_stores _ _ _ _ _ _ _ Hibl Erecv)
    as (data & Hst & Hrets & Hret).
  pose proof (store_bound _ _ _ _ Hst) as Hbound.
  rewrite store_fits in Hst by assumption. injection Hst as Hib'.
  assert (Hfront : firstn (avail_in (bufs st)) ib = tail).
  { unfold ib. rewrite <- Htl, firstn_app, Nat.sub_diag, firstn_all.
    cbn [firstn]. apply app_nil_r. }
  rewrite Hfront in Hib'.
  assert (Hboth : Mem.load ib' 0 (length tail + length data) = Some (tail ++ data)).
  { rewrite <- Hib'. rewrite load_fits by (rewrite !length_app; lia).
    cbn [skipn]. now rewrite firstn_two_parts. }
  assert (Htail : Mem.load ib' 0 (length tail) = Some tail).
  { rewrite <- Hib'. rewrite load_fits by (rewrite !length_app; lia).
    cbn [skipn]. rewrite firstn_app, Nat.sub_diag, firstn_all.
    cbn [firstn]. now rewrite app_nil_r. }
  destruct cells as [[n e]|]; [|exact Htail].
  destruct (Z.eqb_spec ret (-1)) as [Hfail | Hfine]; [exact Htail|].
  destruct Hrets as [Hzero | Hminus]; [|contradiction].
  destruct (Hret Hzero) as (e' & Hcells). injection Hcells as -> _.
  split; [reflexivity|]. exists data. unfold window.
  cbn [in_buf bufs set_bufs record set_sock_in set_in_buf rewind_in
       next_in avail_in].
  rewrite <- Htl. exact Hboth.
Qed.

(** * Further properties of the code *)

(** ** The two functions of common.h on any socket *)

Lemma sys_write_prefix (s s' : wsock) (data : list byte) (ret : Z) :
  sys_write s data = (ret, s') ->
  exists d,
    w_wire s' = w_wire s ++ d /\
    d = firstn (length d) data /\
    ((ret = (-1)%Z /\ d = []) \/ ret = Z.of_nat (length d)).
Proof.
  unfold sys_write. destruct (w_script s) as [|k rest].
  - intros E. injection E as <- <-. exists data. cbn [w_wire].
    split; [reflexivity|]. split; [now rewrite firstn_all | now right].
  - destruct (k <? 0)%Z; intros E; injection E as <- <-; cbn [w_wire].
    + exists []. split; [now rewrite app_nil_r|]. split; [reflexivity | now left].
    + exists (firstn (Z.to_nat k) data). split; [reflexivity|].
      split; [|now right].
      rewrite length_firstn.
      destruct (Nat.le_gt_cases (Z.to_nat k) (length data)) as [Hle | Hgt].
      * now rewrite Nat.min_l by assumption.
      * rewrite Nat.min_r by lia. rewrite firstn_all.
        apply firstn_all2. lia.
Qed.

Lemma sys_read_splits (s s' : rsock) (count : nat) (ret : Z) (d : list byte) :
  sys_read s count = (ret, d, s') ->
  r_wire s = d ++ r_wire s' /\ length d <= count.
Proof.
  unfold sys_read. destruct (r_script s) as [|k rest].
  - intros E. injection E as _ <- <-. cbn [r_wire].
    split; [now rewrite firstn_skipn | apply firstn_le_length].
  - destruct (k <? 0)%Z; intros E; injection E as _ <- <-; cbn [r_wire].
    + split; [reflexivity | cbn; lia].
    + split; [now rewrite firstn_skipn|].
      rewrite length_firstn. lia.
Qed.

Lemma htons_bytes_length (h : Z) : length (htons_bytes h) = 2.
Proof. reflexivity. Qed.

Lemma Z_of_byte_range (b : byte) : (0 <= Z_of_byte b < 256)%Z.
Proof.
  unfold Z_of_byte. pose proof (Byte.to_N_bounded b). lia.
Qed.

Lemma ntohs_bytes_range (b0 b1 : byte) : (0 <= ntohs_bytes b0 b1 < 65536)%Z.
Proof.
  unfold ntohs_bytes.
  pose proof (Z_of_byte_range b0) as H0. pose proof (Z_of_byte_range b1) as H1.
  set (x := Z.shiftl (Z_of_byte b0) 8).
  assert (Hx : (0 <= x < 65536)%Z).
  { unfold x. rewrite Z.shiftl_mul_pow2 by lia. change (2 ^ 8)%Z with 256%Z. lia. }
  assert (Hnn : (0 <= Z.lor x (Z_of_byte b1))%Z) by (apply Z.lor_nonneg; lia).
  split; [exact Hnn|].
  destruct (Z.eq_dec (Z.lor x (Z_of_byte b1)) 0) as [-> | Hne]; [lia|].
  change 65536%Z with (2 ^ 16)%Z. apply Z.log2_lt_pow2; [lia|].
  rewrite Z.log2_lor by lia.
  assert (Hlx : (Z.log2 x < 16)%Z).
  { destruct (Z.eq_dec x 0) as [-> | Hx0]; [reflexivity|].
    apply Z.log2_lt_pow2; [lia|]. change (2 ^ 16)%Z with 65536%Z. lia. }
  assert (Hly : (Z.log2 (Z_of_byte b1) < 16)%Z).
  { destruct (Z.eq_dec (Z_of_byte b1) 0) as [-> | Hy0]; [reflexivity|].
    apply Z.log2_lt_pow2; [lia|]. change (2 ^ 16)%Z with 65536%Z. lia. }
  lia.
Qed.

(** X1.  Whatever the socket does, [send_message] returns 0 or -1 when it
    returns, what it has put on the wire is a prefix of the message's bytes
    (header, then payload), and it returns 0 exactly when that prefix is the
    whole message. *)
Theorem send_message_all_or_error
        (s s' : wsock) (msg : list byte) (len : nat) (eof : Z) (ret : Z) :
  len <= length msg ->
  send_message s msg len eof = SendRet ret s' ->
  let frame := frame_bytes (firstn len msg) eof in
  (ret = 0%Z \/ ret = (-1)%Z) /\
  exists d,
    w_wire s' = w_wire s ++ d /\
    d = firstn (length d) frame /\
    (ret = 0%Z <-> d = frame).
Proof.
  intros Hmsg E frame.
  assert (Hfl : length (firstn len msg) = len)
    by (rewrite length_firstn; lia).
  unfold send_message in E.
  destruct (negb (Z.of_nat len <=? Z.shiftr UINT16_MAX 1)%Z); [discriminate|].
  fold (header_of len eof) in E.
  assert (Hframe : frame = htons_bytes (header_of len eof) ++ firstn len msg)
    by (unfold frame, frame_bytes; now rewrite Hfl).
  destruct (sys_write s (htons_bytes (header_of len eof))) as [r1 s1] eqn:E1.
  destruct (sys_write_prefix _ _ _ _ E1) as (d1 & Hw1 & Hp1 & Hr1).
  assert (Hd1 : length d1 <= 2).
  { rewrite Hp1, length_firstn, htons_bytes_length. lia. }
  destruct (Z.eqb_spec r1 2) as [Hr | Hr]; cbn [negb] in E.
  - (* the header went out *)
    assert (Hl1 : length d1 = 2) by (destruct Hr1 as [[? _] | ?]; lia).
    assert (Hh : d1 = htons_bytes (header_of len eof)).
    { rewrite Hp1, Hl1. now rewrite <- (htons_bytes_length (header_of len eof)),
                          firstn_all. }
    destruct (Nat.ltb_spec 0 len) as [Hpos | Hzero].
    + destruct (sys_write s1 (firstn len msg)) as [r2 s2] eqn:E2.
      destruct (sys_write_prefix _ _ _ _ E2) as (d2 & Hw2 & Hp2 & Hr2).
      assert (Hd2 : length d2 <= len).
      { rewrite Hp2, length_firstn, Hfl. lia. }
      assert (Hpre : d1 ++ d2 = firstn (length (d1 ++ d2)) frame).
      { rewrite Hframe, length_app, Hh, firstn_app_2. now rewrite <- Hp2. }
      destruct (Z.eqb_spec r2 (Z.of_nat len)) as [Hr' | Hr']; cbn [negb] in E;
        injection E as <- <-; (split; [auto|]); exists (d1 ++ d2);
        (split; [rewrite Hw2, Hw1; now rewrite app_assoc|]);
        (split; [exact Hpre|]).
      * assert (Hl2 : length d2 = len) by (destruct Hr2 as [[? _] | ?]; lia).
        split; [intros _ | reflexivity].
        rewrite Hframe, Hh. f_equal.
        rewrite Hp2, Hl2. now rewrite <- Hfl at 1; rewrite firstn_all.
      * split; [discriminate|]. intros Heq.
        assert (Hl : length (d1 ++ d2) = length frame) by now rewrite Heq.
        rewrite Hframe, !length_app, Hfl, Hl1, htons_bytes_length in Hl.
        destruct Hr2 as [[? Hnil] | ?];
          [rewrite Hnil in Hl; cbn [length] in Hl|]; lia.
    + injection E as <- <-. split; [auto|]. exists d1.
      split; [exact Hw1|].
      assert (Hnil : firstn len msg = [])
        by (replace len with 0 by lia; reflexivity).
      rewrite Hframe, Hnil, app_nil_r.
      split; [rewrite Hh; now rewrite firstn_all | now split].
  - (* the header did not go out in full *)
    injection E as <- <-. split; [auto|]. exists d1.
    split; [exact Hw1|].
    assert (Hl1 : length d1 < 2) by (destruct Hr1 as [[? ->] | ?]; cbn; lia).
    split.
    + rewrite Hframe, firstn_app, htons_bytes_length.
      replace (length d1 - 2) with 0 by lia. cbn [firstn].
      now rewrite app_nil_r.
    + split; [discriminate|]. intros Heq.
      assert (Hl : length d1 = length frame) by now rewrite Heq at 1.
      rewrite Hframe, length_app, htons_bytes_length in Hl. lia.
Qed.

Lemma send_message_all_or_error_witness :
  let frame := frame_bytes (firstn 3 [x61; x62; x63]) 1 in
  ((-1)%Z = 0%Z \/ (-1)%Z = (-1)%Z) /\
  exists d,
    w_wire {| w_script := []; w_wire := [x00; x07; x61] |} = [] ++ d /\
    d = firstn (length d) frame /\
    ((-1)%Z = 0%Z <-> d = frame).
Proof.
  apply (send_message_all_or_error
           {| w_script := [2%Z; 1%Z]; w_wire := [] |}
           {| w_script := []; w_wire := [x00; x07; x61] |}
           [x61; x62; x63] 3 1%Z (-1)%Z).
  - simpl. lia.
  - reflexivity.
Defined.

(** X2.  Whatever the socket does, when [recv_message] returns 0 it has
    taken exactly one message off the wire: two header bytes and the
    payload they announce.  The length it reports is the payload's and is
    at most 32767, the flag it reports is 0 or 1, and the payload is what
    it stored in the caller's buffer. *)
Theorem recv_message_takes_one_frame
        (s s' : rsock) (mem mem' : list byte) (off : nat)
        (cells : option (nat * Z)) :
  recv_message s mem off = RecvRet 0 cells mem' s' ->
  exists b0 b1 payload eof,
    cells = Some (length payload, eof) /\
    (eof = 0%Z \/ eof = 1%Z) /\
    length payload <= BUFFER_SIZE /\
    ntohs_bytes b0 b1 = (2 * Z.of_nat (length payload) + eof)%Z /\
    r_wire s = b0 :: b1 :: payload ++ r_wire s' /\
    (payload = [] -> mem' = mem) /\
    (payload <> [] -> Mem.store mem off payload = Some mem').
Proof.
  unfold recv_message.
  destruct (sys_read s 2) as [[r hdr] s1] eqn:E1.
  destruct (sys_read_splits _ _ _ _ _ E1) as [Hw1 _].
  destruct (negb (r =? 2)%Z); [discriminate|].
  destruct hdr as [|b0 [|b1 [|b2 hdr]]]; try discriminate.
  pose proof (ntohs_bytes_range b0 b1) as Hh.
  set (h := ntohs_bytes b0 b1) in *.
  assert (Heof : Z.land h 1 = (h mod 2)%Z).
  { change 1%Z with (Z.ones 1). now rewrite Z.land_ones by lia. }
  assert (Hlen : Z.shiftr h 1 = (h / 2)%Z).
  { now rewrite Z.shiftr_div_pow2 by lia. }
  rewrite Heof, Hlen.
  assert (Hbound : Z.to_nat (h / 2) <= BUFFER_SIZE).
  { apply Nat2Z.inj_le. rewrite BUFFER_SIZE_val.
    Z.div_mod_to_equations. lia. }
  destruct (Nat.ltb_spec 0 (Z.to_nat (h / 2))) as [Hpos | Hzero].
  - destruct (sys_read s1 (Z.to_nat (h / 2))) as [[r2 data] s2] eqn:E2.
    destruct (sys_read_splits _ _ _ _ _ E2) as [Hw2 _].
    destruct (Mem.store mem off data) as [m|] eqn:Est; [|discriminate].
    destruct (Z.eqb_spec r2 (Z.of_nat (Z.to_nat (h / 2)))) as [Hr | Hr];
      cbn [negb]; [|discriminate].
    intros E. injection E as <- <- <-.
    assert (Hdl : length data = Z.to_nat (h / 2)).
    { destruct (sys_read_ret _ _ _ _ _ E2) as [[? _] | ?]; lia. }
    exists b0, b1, data, (h mod 2)%Z.
    rewrite Hdl.
    split; [reflexivity|].
    split; [Z.div_mod_to_equations; lia|].
    split; [exact Hbound|].
    split; [Z.div_mod_to_equations; lia|].
    split; [rewrite Hw1; cbn [app]; now rewrite Hw2|].
    split; [intros Hn; rewrite Hn in Hdl; cbn [length] in Hdl; lia
           | intros _; exact Est].
  - intros E. injection E as <- <- <-.
    exists b0, b1, [], (h mod 2)%Z. cbn [length app].
    split; [f_equal; f_equal; lia|].
    split; [Z.div_mod_to_equations; lia|].
    split; [lia|].
    split; [Z.div_mod_to_equations; lia|].
    split; [exact Hw1|].
    split; [reflexivity | intros H; now elim H].
Qed.

Lemma recv_message_takes_one_frame_witness :
  exists b0 b1 payload eof,
    Some (2, 1%Z) = Some (length payload, eof) /\
    (eof = 0%Z \/ eof = 1%Z) /\
    length payload <= BUFFER_SIZE /\
    ntohs_bytes b0 b1 = (2 * Z.of_nat (length payload) + eof)%Z /\
    [x00; x05; x61; x62; x00; x01] = b0 :: b1 :: payload ++ [x00; x01] /\
    (payload = [] -> [x00; x61; x62; x00] = [x00; x00; x00; x00]) /\
    (payload <> [] ->
     Mem.store [x00; x00; x00; x00] 1 payload = Some [x00; x61; x62; x00]).
Proof.
  apply (recv_message_takes_one_frame
           (quiet_r [x00; x05; x61; x62; x00; x01]) (quiet_r [x00; x01])
           [x00; x00; x00; x00] [x00; x61; x62; x00] 1 (Some (2, 1%Z))).
  reflexivity.
Defined.

(** X3.  A message cut short: the header announces [len] bytes, fewer
    follow, and the peer has closed.  [recv_message] does not wait and does
    not report success: it stores the bytes that came and returns -1. *)
Theorem recv_message_truncated
        (partial mem : list byte) (off len : nat) (eof : Z) :
  0 < len <= BUFFER_SIZE ->
  length partial < len ->
  off + length partial <= length mem ->
  exists mem',
    Mem.store mem off partial = Some mem' /\
    recv_message (quiet_r (htons_bytes (header_of len eof) ++ partial)) mem off
    = RecvRet (-1) (Some (len, flag_bit eof)) mem' (quiet_r []).
Proof.
  intros [Hpos Hlen] Hshort Hfit.
  exists (firstn off mem ++ partial ++ skipn (off + length partial) mem).
  split; [now apply store_fits|].
  pose proof (ntohs_htons _ (header_of_range _ eof Hlen)) as Hh.
  unfold recv_message.
  unfold sys_read at 1. cbn [quiet_r r_script r_wire].
  unfold htons_bytes in *.
  cbn [app firstn skipn length Z.of_nat Pos.of_succ_nat Pos.succ Z.eqb Pos.eqb negb].
  rewrite Hh, header_flag, header_length by assumption.
  destruct (Nat.ltb_spec 0 len) as [_ | Hzero]; [|lia].
  unfold sys_read. cbn [r_script r_wire].
  rewrite firstn_all2, skipn_all2 by lia.
  rewrite store_fits by assumption.
  destruct (Z.eqb_spec (Z.of_nat (length partial)) (Z.of_nat len)); [lia|].
  reflexivity.
Qed.

Lemma recv_message_truncated_witness :
  exists mem',
    Mem.store (repeat x00 8) 0 [x61; x62] = Some mem' /\
    recv_message (quiet_r (htons_bytes (header_of 5 0) ++ [x61; x62]))
                 (repeat x00 8) 0
    = RecvRet (-1) (Some (5, flag_bit 0)) mem' (quiet_r []).
Proof.
  apply (recv_message_truncated [x61; x62] (repeat x00 8) 0 5 0%Z).
  - split; [lia | apply Nat.leb_le; vm_compute; reflexivity].
  - simpl. lia.
  - simpl. lia.
Defined.

(** ** A finer rule for the loop *)

Section LoopRuleRes.

Variable J : Type.
Variable job_work : J -> list byte -> Z -> nat -> rs_result * nat * list byte * J.

Local Abbreviation state := (pump J).

(** As [pump_loop_rule], with a predicate [R] for the point between the job
    call and the drain that knows the job's result. *)
Lemma pump_loop_rule_res
      (P : state -> Prop) (R : rs_result -> state -> Prop)
      (Q : outcome state -> Prop)
      (refill drain : state -> step state) :
  (forall st, P st -> Q (OutOfFuel st)) ->
  (forall st, P st -> Q (MemFault st)) ->
  (forall st, P st -> eof_in (bufs st) = 0%Z -> step_meets P Q (refill st)) ->
  (forall st res st',
      P st -> rs_job_iter job_work st = Some (res, st') -> R res st') ->
  (forall st, R RS_FAILED st -> Q (Returned (-1) st)) ->
  (forall st, R RS_DONE st ->
              step_meets (fun st' => Q (Returned 0 st')) Q (drain st)) ->
  (forall st, R RS_BLOCKED st -> step_meets P Q (drain st)) ->
  forall fuel st, P st -> Q (pump_loop job_work refill drain fuel st).
Proof.
  intros Hfuel Hfault Hrefill Hjob Hfail Hdone Hblocked.
  induction fuel as [|fuel IH]; intros st HP; cbn [pump_loop].
  - now apply Hfuel.
  - assert (Hr : step_meets P Q
                   (if (eof_in (bufs st) =? 0)%Z then refill st else Continue st)).
    { destruct (Z.eqb_spec (eof_in (bufs st)) 0); [now apply Hrefill | exact HP]. }
    destruct (if (eof_in (bufs st) =? 0)%Z then refill st else Continue st)
      as [st1 | o]; cbn [step_meets] in Hr; [|exact Hr].
    destruct (rs_job_iter job_work st1) as [[res st2]|] eqn:Ejob;
      [|now apply Hfault].
    pose proof (Hjob _ _ _ Hr Ejob) as HR.
    destruct res; cbn [is_done is_blocked negb andb].
    + specialize (Hdone _ HR).
      destruct (drain st2) as [st3 | o]; cbn [step_meets] in Hdone; exact Hdone.
    + specialize (Hblocked _ HR).
      destruct (drain st2) as [st3 | o]; cbn [step_meets] in Hblocked;
        [now apply IH | exact Hblocked].
    + now apply Hfail.
Qed.

End LoopRuleRes.

(** ** What the phases add to the record *)

Lemma quiet_extension_refl (J : Type) (st : pump J) : quiet_extension st st.
Proof. exists []. now rewrite app_nil_r. Qed.

Lemma quiet_extension_one (J : Type) (st st' : pump J) (e : event) :
  log st' = log st ++ [e] -> is_job e = false -> quiet_extension st st'.
Proof. intros Hl He. exists [e]. cbn. now rewrite He. Qed.

Section PhaseRecords.

Variable J : Type.
Variable cap : nat.

(** A phase adds no job call to the record, and when it ends the run it
    ends it with an error. *)
Local Abbreviation grows st :=
  (step_meets (quiet_extension st)
              (fun o : outcome (pump J) =>
                 quiet_extension st (final o) /\ error_stop o)).

Local Ltac grow :=
  first [ apply quiet_extension_refl
        | eapply quiet_extension_one; reflexivity
        | split; [first [ apply quiet_extension_refl
                        | eapply quiet_extension_one; reflexivity ]
                 | first [reflexivity | exact I]] ].

Lemma refill_file_record (chk : bool) (st : pump J) :
  grows st (refill_file cap chk st).
Proof.
  unfold refill_file.
  destruct (move_tail st); [|grow].
  destruct (fread _ _) as [got f].
  destruct (Mem.store _ _ _); [|grow].
  destruct (length got =? 0); [|grow].
  destruct (negb _); [grow|].
  destruct (chk && _); grow.
Qed.

Lemma refill_socket_record (st : pump J) : grows st (refill_socket st).
Proof.
  unfold refill_socket.
  destruct (move_tail st); [|grow].
  destruct (recv_message _ _ _) as [|ret cells ib s]; [grow|].
  destruct cells as [[n e]|]; [|grow].
  destruct (ret =? -1)%Z; grow.
Qed.

Lemma drain_socket_record (st : pump J) : grows st (drain_socket cap st).
Proof.
  unfold drain_socket.
  destruct (0 <? _); [|grow].
  destruct (send_message _ _ _ _) as [s | ret s]; [grow|].
  destruct (ret =? -1)%Z; grow.
Qed.

Lemma drain_file_record (st : pump J) : grows st (drain_file cap st).
Proof.
  unfold drain_file.
  destruct (0 <? _); [|grow].
  destruct (fwrite _ _) as [n f].
  destruct (n =? 0); grow.
Qed.

Lemma drain_none_record (st : pump J) : grows st (drain_none st).
Proof. grow. Qed.

End PhaseRecords.

(** ** Return values and failing jobs *)

Lemma last_job_snoc (l : list event) (res : rs_result) (used : nat)
      (out : list byte) :
  last_job (l ++ [EvJob res used out]) = Some res.
Proof. unfold last_job. now rewrite fold_left_app. Qed.

Lemma last_job_quiet (l l' : list event) :
  existsb is_job l' = false -> last_job (l ++ l') = last_job l.
Proof.
  unfold last_job. rewrite fold_left_app.
  generalize (fold_left
                (fun acc e => match e with EvJob res _ _ => Some res | _ => acc end)
                l None).
  induction l' as [|e l' IH]; intros acc H; [reflexivity|].
  cbn [existsb] in H. apply orb_false_iff in H as [He Hl'].
  destruct e; try discriminate; cbn [fold_left]; now apply IH.
Qed.

Lemma quiet_has_no_failure (l : list event) :
  existsb is_job l = false -> existsb is_failed_job l = false.
Proof.
  induction l as [|e l IH]; [reflexivity|]. cbn [existsb]. intros H.
  apply orb_false_iff in H as [He Hl]. rewrite (IH Hl).
  destruct e; try discriminate; reflexivity.
Qed.

Lemma error_stop_code_ok (J : Type) (o : outcome (pump J)) :
  error_stop o -> code_ok o.
Proof. destruct o; cbn; auto. Qed.

Section ReturnValues.

Variable J : Type.
Variable job_work : J -> list byte -> Z -> nat -> rs_result * nat * list byte * J.
Variables refill drain : pump J -> step (pump J).

Hypothesis refill_record :
  forall st, step_meets (quiet_extension st)
                        (fun o => quiet_extension st (final o) /\ error_stop o)
                        (refill st).
Hypothesis drain_record :
  forall st, step_meets (quiet_extension st)
                        (fun o => quiet_extension st (final o) /\ error_stop o)
                        (drain st).

Lemma loop_code_ok (fuel : nat) (st : pump J) :
  code_ok (pump_loop job_work refill drain fuel st).
Proof.
  apply (pump_loop_rule_res J job_work (fun _ => True)
           (fun res s => last_job (log s) = Some res) (@code_ok J));
    try exact I; try (intros; exact I).
  - intros s _ _. specialize (refill_record s).
    destruct (refill s) as [s' | o]; [exact I|].
    apply error_stop_code_ok, refill_record.
  - intros s res s' _ E.
    destruct (rs_job_iter_frame _ _ _ _ _ E) as (used & out & -> & _).
    apply last_job_snoc.
  - intros s _. now left.
  - intros s Hs. specialize (drain_record s).
    destruct (drain s) as [s' | o]; cbn [step_meets] in *.
    + destruct drain_record as (l & Hlog & Hl). right.
      split; [reflexivity|]. now rewrite Hlog, last_job_quiet.
    + apply error_stop_code_ok, drain_record.
  - intros s _. specialize (drain_record s).
    destruct (drain s) as [s' | o]; [exact I|].
    apply error_stop_code_ok, drain_record.
Qed.

Lemma loop_stops_at_failed_job (fuel : nat) (st : pump J) :
  existsb is_failed_job (log st) = false ->
  stops_at_failed_job (pump_loop job_work refill drain fuel st).
Proof.
  assert (Hext : forall s s' : pump J,
             existsb is_failed_job (log s) = false ->
             quiet_extension s s' ->
             existsb is_failed_job (log s') = false).
  { intros s s' Hs (l & -> & Hl).
    now rewrite existsb_app, Hs, quiet_has_no_failure. }
  assert (Hstep : forall (s : pump J) (ph : step (pump J)),
             existsb is_failed_job (log s) = false ->
             step_meets (quiet_extension s)
                        (fun o => quiet_extension s (final o) /\ error_stop o) ph ->
             step_meets (fun s' => existsb is_failed_job (log s') = false)
                        (@stops_at_failed_job J) ph).
  { intros s [s' | o] Hs H; cbn [step_meets] in *.
    - now apply (Hext s).
    - left. now apply (Hext s). }
  apply (pump_loop_rule_res J job_work
           (fun s => existsb is_failed_job (log s) = false)
           (fun res s => exists l used out,
                log s = l ++ [EvJob res used out] /\
                existsb is_failed_job l = false)
           (@stops_at_failed_job J)).
  - intros s Hs. now left.
  - intros s Hs. now left.
  - intros s Hs _. now apply (Hstep s).
  - intros s res s' Hs E.
    destruct (rs_job_iter_frame _ _ _ _ _ E) as (used & out & Hlog & _).
    now exists (log s), used, out.
  - intros s (l & used & out & Hlog & Hl). right.
    now exists l, used, out.
  - intros s (l & used & out & Hlog & Hl).
    assert (Hs : existsb is_failed_job (log s) = false)
      by (rewrite Hlog, existsb_app, Hl; reflexivity).
    specialize (Hstep s (drain s) Hs (drain_record s)).
    destruct (drain s) as [s' | o]; cbn [step_meets] in *; [now left | exact Hstep].
  - intros s (l & used & out & Hlog & Hl).
    assert (Hs : existsb is_failed_job (log s) = false)
      by (rewrite Hlog, existsb_app, Hl; reflexivity).
    exact (Hstep s (drain s) Hs (drain_record s)).
Qed.

End ReturnValues.

(** X4.  Each of the four functions, when it returns, returns 0 or -1, and
    it returns 0 only after a last [rs_job_iter] call whose result was
    [RS_DONE]. *)
Theorem functions_return_0_after_done
        (J : Type)
        (job_work : J -> list byte -> Z -> nat -> rs_result * nat * list byte * J)
        (cap fuel : nat) (lib : rs_result) (name_fits : bool) (st : pump J) :
  code_ok (send_signature job_work cap lib fuel st) /\
  code_ok (send_delta job_work cap lib fuel st) /\
  code_ok (recv_signature job_work fuel st) /\
  code_ok (recv_delta_and_patch_file job_work cap name_fits fuel st).
Proof.
  unfold send_signature, send_delta, recv_signature, recv_delta_and_patch_file.
  repeat split.
  - destruct (negb (is_done lib)); [now left|].
    apply loop_code_ok; [apply refill_file_record | apply drain_socket_record].
  - destruct (negb (is_done lib)); [now left|].
    apply loop_code_ok; [apply refill_file_record | apply drain_socket_record].
  - apply loop_code_ok; [apply refill_socket_record | apply drain_none_record].
  - destruct (negb name_fits); [now left|].
    apply loop_code_ok; [apply refill_socket_record | apply drain_file_record].
Qed.

(** X5.  When an [rs_job_iter] call returns a result other than [RS_DONE]
    and [RS_BLOCKED], the function returns -1 at once: the failing call is
    the last event of the run, so what that call had stored in the output
    window is neither sent nor written, and no further input is pulled. *)
Theorem failed_job_ends_the_run
        (J : Type)
        (job_work : J -> list byte -> Z -> nat -> rs_result * nat * list byte * J)
        (cap fuel : nat) (lib : rs_result) (name_fits : bool) (st : pump J) :
  existsb is_failed_job (log st) = false ->
  stops_at_failed_job (send_signature job_work cap lib fuel st) /\
  stops_at_failed_job (send_delta job_work cap lib fuel st) /\
  stops_at_failed_job (recv_signature job_work fuel st) /\
  stops_at_failed_job (recv_delta_and_patch_file job_work cap name_fits fuel st).
Proof.
  intros Hlog.
  unfold send_signature, send_delta, recv_signature, recv_delta_and_patch_file.
  repeat split.
  - destruct (negb (is_done lib)); [now left|].
    apply loop_stops_at_failed_job;
      [apply refill_file_record | apply drain_socket_record | exact Hlog].
  - destruct (negb (is_done lib)); [now left|].
    apply loop_stops_at_failed_job;
      [apply refill_file_record | apply drain_socket_record | exact Hlog].
  - apply loop_stops_at_failed_job;
      [apply refill_socket_record | apply drain_none_record | exact Hlog].
  - destruct (negb name_fits); [now left|].
    apply loop_stops_at_failed_job;
      [apply refill_socket_record | apply drain_file_record | exact Hlog].
Qed.

Lemma failed_job_ends_the_run_witness :
  let st := world tt 4 (file_of [x61; x62]) quiet_new
                  (quiet_r (frame_bytes [x61] 1)) (quiet_w []) in
  stops_at_failed_job (send_signature failing_work 4 RS_DONE 3 st) /\
  stops_at_failed_job (send_delta failing_work 4 RS_DONE 3 st) /\
  stops_at_failed_job (recv_signature failing_work 3 st) /\
  stops_at_failed_job (recv_delta_and_patch_file failing_work 4 true 3 st).
Proof.
  intros st.
  apply (failed_job_ends_the_run unit failing_work 4 3 RS_DONE true st).
  reflexivity.
Defined.

(** ** The sinks, for any job *)

Lemma store_firstn (mem mem' : list byte) (off : nat) (d : list byte) :
  Mem.store mem off d = Some mem' ->
  firstn (off + length d) mem' = firstn off mem ++ d.
Proof.
  intros E. pose proof (store_bound _ _ _ _ E) as Hb.
  rewrite store_fits in E by assumption. injection E as <-.
  replace off with (length (firstn off mem)) at 1
    by (rewrite length_firstn; lia).
  apply firstn_two_parts.
Qed.

Lemma sent_frames_quiet (e : event) :
  (forall p eof ret, e <> EvSend p eof ret) -> sent_frames [e] = [].
Proof.
  intros H. destruct e as [? ? ?|? ?|? ? ?|p eof ret|? ?]; try reflexivity.
  now elim (H p eof ret).
Qed.

Lemma job_output_quiet (e : event) : is_job e = false -> job_output [e] = [].
Proof. destruct e; try reflexivity; discriminate. Qed.

Lemma error_stop_drained (J : Type) (o : outcome (pump J)) :
  error_stop o -> drained o.
Proof.
  destruct o as [ret st | | |]; cbn; try easy. now intros ->.
Qed.

Section AnyJob.

Variable J : Type.
Variable job_work : J -> list byte -> Z -> nat -> rs_result * nat * list byte * J.
Variable cap : nat.

(** An event that is neither a job call nor a send, the output side
    untouched. *)
Lemma wire_pending_quiet (st st' : pump J) (e : event) :
  log st' = log st ++ [e] ->
  is_job e = false ->
  (forall p eof ret, e <> EvSend p eof ret) ->
  sock_out st' = sock_out st ->
  out_buf st' = out_buf st ->
  next_out (bufs st') = next_out (bufs st) ->
  wire_pending st -> wire_pending st'.
Proof.
  intros Hlog Hj Hs Hsock Hob Hno (Hq & Hle & Hw & Hp).
  unfold wire_pending.
  rewrite Hlog, Hsock, Hob, Hno, sent_frames_app, job_output_app,
    (sent_frames_quiet e Hs), (job_output_quiet e Hj), !app_nil_r.
  now repeat split.
Qed.

Lemma file_pending_quiet (st st' : pump J) (e : event) :
  log st' = log st ++ [e] ->
  is_job e = false ->
  new st' = new st ->
  out_buf st' = out_buf st ->
  next_out (bufs st') = next_out (bufs st) ->
  file_pending st -> file_pending st'.
Proof.
  intros Hlog Hj Hnew Hob Hno (Hq & Hle & Hp).
  unfold file_pending.
  rewrite Hlog, Hnew, Hob, Hno, job_output_app, (job_output_quiet e Hj),
    app_nil_r.
  now repeat split.
Qed.

Lemma job_wire_pending (st st' : pump J) (res : rs_result) :
  wire_pending st -> rs_job_iter job_work st = Some (res, st') ->
  wire_pending st'.
Proof.
  intros (Hq & Hle & Hw & Hp) E.
  destruct (rs_job_iter_frame _ _ _ _ _ E)
    as (used & out & Hlog & _ & _ & _ & _ & _ & Hsock & _ & _ & _ & _ & Hno & _ & Hst).
  pose proof (store_bound _ _ _ _ Hst) as Hb.
  pose proof (store_length _ _ _ _ Hst) as Hl.
  unfold wire_pending.
  rewrite Hlog, Hsock, Hno, sent_frames_app, job_output_app,
    (store_firstn _ _ _ _ Hst).
  cbn [sent_frames job_output]. rewrite !app_nil_r.
  repeat split; try assumption; try lia.
  now rewrite app_assoc, Hp.
Qed.

Lemma job_file_pending (st st' : pump J) (res : rs_result) :
  file_pending st -> rs_job_iter job_work st = Some (res, st') ->
  file_pending st'.
Proof.
  intros (Hq & Hle & Hp) E.
  destruct (rs_job_iter_frame _ _ _ _ _ E)
    as (used & out & Hlog & _ & _ & _ & Hnew & _ & _ & _ & _ & _ & _ & Hno & _ & Hst).
  pose proof (store_bound _ _ _ _ Hst) as Hb.
  pose proof (store_length _ _ _ _ Hst) as Hl.
  unfold file_pending.
  rewrite Hlog, Hnew, Hno, job_output_app, (store_firstn _ _ _ _ Hst).
  cbn [job_output]. rewrite !app_nil_r.
  repeat split; try assumption; try lia.
  now rewrite app_assoc, Hp.
Qed.

Lemma refill_file_wire_pending (chk : bool) (st : pump J) :
  wire_pending st /\ next_out (bufs st) = 0 ->
  step_meets (fun s => wire_pending s /\ next_out (bufs s) = 0)
             (fun o => wire_pending (final o))
             (refill_file cap chk st).
Proof.
  intros [HP Hz]. unfold refill_file.
  destruct (move_tail st); [|exact HP].
  destruct (fread _ _) as [got f].
  destruct (Mem.store _ _ _); [|exact HP].
  destruct (length got =? 0);
    [destruct (negb _); [|destruct (chk && _)]|]; cbn [step_meets final];
    try split; try exact Hz;
    (eapply (wire_pending_quiet st); [reflexivity | reflexivity | discriminate
                                     | reflexivity | reflexivity | reflexivity
                                     | exact HP]).
Qed.

Lemma refill_socket_file_pending (st : pump J) :
  file_pending st /\ next_out (bufs st) = 0 ->
  step_meets (fun s => file_pending s /\ next_out (bufs s) = 0)
             (fun o => file_pending (final o))
             (refill_socket st).
Proof.
  intros [HP Hz]. unfold refill_socket.
  destruct (move_tail st); [|exact HP].
  destruct (recv_message _ _ _) as [|ret cells ib s]; [exact HP|].
  destruct cells as [[n e]|]; [destruct (ret =? -1)%Z|];
    cbn [step_meets final]; try split; try exact Hz;
    (eapply (file_pending_quiet st); [reflexivity | reflexivity | reflexivity
                                     | reflexivity | reflexivity | exact HP]).
Qed.

Lemma drain_socket_wire_pending (st : pump J) :
  wire_pending st ->
  step_meets (fun s => wire_pending s /\ next_out (bufs s) = 0)
             (fun o => wire_pending (final o))
             (drain_socket cap st).
Proof.
  intros HP. pose proof HP as (Hq & Hle & Hw & Hp). unfold drain_socket.
  destruct (Nat.ltb_spec 0 (next_out (bufs st))) as [Hpos | Hzero];
    [|split; [exact HP | lia]].
  rewrite (quiet_w_eta _ Hq) at 1.
  destruct (Nat.le_gt_cases (next_out (bufs st)) BUFFER_SIZE) as [Hfit | Hbig].
  - rewrite send_message_quiet by assumption.
    cbn [Z.eqb step_meets].
    split; [|reflexivity].
    unfold wire_pending.
    cbn [sock_out set_bufs record set_sock_out log bufs rewind_out next_out
         out_buf quiet_w w_script w_wire firstn].
    rewrite sent_frames_app, job_output_app, frames_wire_app, flat_map_app.
    cbn [sent_frames job_output frames_wire flat_map fst snd Z.eqb].
    rewrite !app_nil_r.
    repeat split; try lia.
    + now rewrite Hw.
    + exact Hp.
  - unfold send_message. now rewrite assert_len_fails by assumption.
Qed.

Lemma drain_file_file_pending (st : pump J) :
  file_pending st ->
  step_meets (fun s => file_pending s /\ next_out (bufs s) = 0)
             (fun o => file_pending (final o))
             (drain_file cap st).
Proof.
  intros HP. pose proof HP as (Hq & Hle & Hp). unfold drain_file.
  destruct (Nat.ltb_spec 0 (next_out (bufs st))) as [Hpos | Hzero];
    [|split; [exact HP | lia]].
  unfold fwrite. rewrite Hq.
  rewrite length_firstn, Nat.min_l by assumption.
  destruct (Nat.eqb_spec (next_out (bufs st)) 0) as [Hz | _]; [lia|].
  cbn [step_meets]. split; [|reflexivity].
  unfold file_pending.
  cbn [new set_bufs record set_new log bufs rewind_out next_out out_buf
       o_script o_data firstn].
  rewrite job_output_app. cbn [job_output]. rewrite !app_nil_r.
  repeat split; try lia. exact Hp.
Qed.

Lemma sending_loop_pending (chk : bool) (fuel : nat) (st : pump J) :
  wire_pending st -> next_out (bufs st) = 0 ->
  let o := pump_loop job_work (refill_file cap chk) (drain_socket cap) fuel st in
  wire_pending (final o) /\ drained o.
Proof.
  intros HP Hz.
  apply (pump_loop_rule_res J job_work
           (fun s => wire_pending s /\ next_out (bufs s) = 0)
           (fun _ s => wire_pending s)
           (fun o => wire_pending (final o) /\ drained o)).
  - intros s [Hs Hs0]. now split.
  - intros s [Hs Hs0]. now split.
  - intros s Hs _. pose proof (refill_file_wire_pending chk s Hs) as H.
    pose proof (refill_file_record J cap chk s) as Hrec.
    destruct (refill_file cap chk s) as [s' | o]; cbn [step_meets] in *;
      [exact H|].
    split; [exact H | now apply error_stop_drained].
  - intros s res s' [Hs _] E. now apply (job_wire_pending s s' res).
  - intros s Hs. now split.
  - intros s Hs. pose proof (drain_socket_wire_pending s Hs) as H.
    pose proof (drain_socket_record J cap s) as Hrec.
    destruct (drain_socket cap s) as [s' | o]; cbn [step_meets] in *;
      [exact H|].
    split; [exact H | now apply error_stop_drained].
  - intros s Hs. pose proof (drain_socket_wire_pending s Hs) as H.
    pose proof (drain_socket_record J cap s) as Hrec.
    destruct (drain_socket cap s) as [s' | o]; cbn [step_meets] in *;
      [exact H|].
    split; [exact H | now apply error_stop_drained].
  - now split.
Qed.

Lemma patch_loop_pending (fuel : nat) (st : pump J) :
  file_pending st -> next_out (bufs st) = 0 ->
  let o := pump_loop job_work (@refill_socket J) (drain_file cap) fuel st in
  file_pending (final o) /\ drained o.
Proof.
  intros HP Hz.
  apply (pump_loop_rule_res J job_work
           (fun s => file_pending s /\ next_out (bufs s) = 0)
           (fun _ s => file_pending s)
           (fun o => file_pending (final o) /\ drained o)).
  - intros s [Hs Hs0]. now split.
  - intros s [Hs Hs0]. now split.
  - intros s Hs _. pose proof (refill_socket_file_pending s Hs) as H.
    pose proof (refill_socket_record J s) as Hrec.
    destruct (refill_socket s) as [s' | o]; cbn [step_meets] in *;
      [exact H|].
    split; [exact H | now apply error_stop_drained].
  - intros s res s' [Hs _] E. now apply (job_file_pending s s' res).
  - intros s Hs. now split.
  - intros s Hs. pose proof (drain_file_file_pending s Hs) as H.
    pose proof (drain_file_record J cap s) as Hrec.
    destruct (drain_file cap s) as [s' | o]; cbn [step_meets] in *;
      [exact H|].
    split; [exact H | now apply error_stop_drained].
  - intros s Hs. pose proof (drain_file_file_pending s Hs) as H.
    pose proof (drain_file_record J cap s) as Hrec.
    destruct (drain_file cap s) as [s' | o]; cbn [step_meets] in *;
      [exact H|].
    split; [exact H | now apply error_stop_drained].
  - now split.
Qed.

End AnyJob.

Lemma wire_pending_prefix (J : Type) (o : outcome (pump J)) :
  wire_pending (final o) -> drained o ->
  wire_has_prefix o /\ delivered_when_done o.
Proof.
  intros (Hq & Hle & Hw & Hp) Hd. split.
  - split; [exact Hw|]. eexists. exact Hp.
  - destruct o as [ret st | | |st]; cbn in *; try exact I.
    + destruct ret; try exact I. rewrite Hd in Hp. cbn [firstn] in Hp.
      rewrite app_nil_r in Hp. now split.
    + rewrite Hd in Hp. cbn [firstn] in Hp.
      rewrite app_nil_r in Hp. now split.
Qed.

Lemma file_pending_prefix (J : Type) (o : outcome (pump J)) :
  file_pending (final o) -> drained o ->
  file_has_prefix o /\ written_when_done o.
Proof.
  intros (Hq & Hle & Hp) Hd. split.
  - eexists. exact Hp.
  - destruct o as [ret st | | |st]; cbn in *; try exact I.
    + destruct ret; try exact I. rewrite Hd in Hp. cbn [firstn] in Hp.
      now rewrite app_nil_r in Hp.
    + rewrite Hd in Hp. cbn [firstn] in Hp.
      now rewrite app_nil_r in Hp.
Qed.

(** X6.  [send_signature] and [send_delta] with any job, on a socket that
    takes all it is given.  However the run ends, the socket holds the
    messages sent and nothing else, and their payloads, end to end, are the
    first of the bytes the job has stored in the output window, in order:
    nothing is sent twice, reordered or made up.  When the function returns
    0 they are all of them. *)
Theorem sending_loops_send_job_output
        (J : Type)
        (job_work : J -> list byte -> Z -> nat -> rs_result * nat * list byte * J)
        (cap fuel : nat) (lib : rs_result) (st : pump J) :
  sock_out st = quiet_w [] -> log st = [] ->
  (wire_has_prefix (send_signature job_work cap lib fuel st) /\
   delivered_when_done (send_signature job_work cap lib fuel st)) /\
  (wire_has_prefix (send_delta job_work cap lib fuel st) /\
   delivered_when_done (send_delta job_work cap lib fuel st)).
Proof.
  intros Hsock Hlog.
  assert (H0 : wire_pending (set_bufs st (bufs_in_out cap))).
  { unfold wire_pending. cbn. rewrite Hsock, Hlog. cbn.
    repeat split; lia. }
  assert (Hpre : forall ret,
             ret <> 0%Z ->
             wire_has_prefix (Returned ret st) /\
             delivered_when_done (Returned ret st)).
  { intros ret Hret. split.
    - unfold wire_has_prefix. cbn. rewrite Hsock, Hlog. cbn.
      split; [reflexivity | now exists []].
    - destruct ret; [now elim Hret | exact I | exact I]. }
  unfold send_signature, send_delta.
  split; (destruct (negb (is_done lib)); [now apply Hpre|]);
    apply wire_pending_prefix; now apply sending_loop_pending.
Qed.

Lemma sending_loops_send_job_output_witness :
  let st := world 10 4 (file_of [x01; x02; x03; x04; x05; x06; x07; x08; x09; x0a])
                  quiet_new (quiet_r []) (quiet_w []) in
  (wire_has_prefix (send_signature copy_work 4 RS_DONE 2 st) /\
   delivered_when_done (send_signature copy_work 4 RS_DONE 2 st)) /\
  (wire_has_prefix (send_delta copy_work 4 RS_DONE 2 st) /\
   delivered_when_done (send_delta copy_work 4 RS_DONE 2 st)).
Proof.
  intros st.
  apply (sending_loops_send_job_output nat copy_work 4 2 RS_DONE st);
    reflexivity.
Defined.

(** X7.  [recv_delta_and_patch_file] with any job and any socket, on a new
    file that accepts all it is given.  However the run ends, the new file
    holds the first of the bytes the job has stored in the output window,
    in order; when the function returns 0 it holds all of them. *)
Theorem patch_file_holds_job_output
        (J : Type)
        (job_work : J -> list byte -> Z -> nat -> rs_result * nat * list byte * J)
        (cap fuel : nat) (name_fits : bool) (st : pump J) :
  new st = quiet_new -> log st = [] ->
  file_has_prefix (recv_delta_and_patch_file job_work cap name_fits fuel st) /\
  written_when_done (recv_delta_and_patch_file job_work cap name_fits fuel st).
Proof.
  intros Hnew Hlog.
  assert (H0 : file_pending (set_bufs st (bufs_in_out cap))).
  { unfold file_pending. cbn. rewrite Hnew, Hlog. cbn.
    repeat split; lia. }
  unfold recv_delta_and_patch_file.
  destruct (negb name_fits).
  - split; [|exact I]. unfold file_has_prefix. cbn. rewrite Hnew, Hlog.
    now exists [].
  - apply file_pending_prefix; now apply patch_loop_pending.
Qed.

Lemma patch_file_holds_job_output_witness :
  let st := world 4 4 (file_of []) quiet_new
                  (quiet_r (frame_bytes [x61; x62; x63] 0 ++ frame_bytes [x64] 1))
                  (quiet_w []) in
  file_has_prefix (recv_delta_and_patch_file copy_work 4 true 5 st) /\
  written_when_done (recv_delta_and_patch_file copy_work 4 true 5 st).
Proof.
  intros st.
  apply (patch_file_holds_job_output nat copy_work 4 5 true st); reflexivity.
Defined.


(** ** Each loop keeps to its own source and sink *)

Section OwnEnds.

Variable J : Type.
Variable job_work : J -> list byte -> Z -> nat -> rs_result * nat * list byte * J.
Variable cap : nat.

Lemma loop_keeps_field (A : Type) (f : pump J -> A)
      (refill drain : pump J -> step (pump J)) :
  (forall s, step_meets (fun s' => f s' = f s) (fun o => f (final o) = f s)
                        (refill s)) ->
  (forall s, step_meets (fun s' => f s' = f s) (fun o => f (final o) = f s)
                        (drain s)) ->
  (forall s res s', rs_job_iter job_work s = Some (res, s') -> f s' = f s) ->
  forall fuel st, f (final (pump_loop job_work refill drain fuel st)) = f st.
Proof.
  intros Hrefill Hdrain Hjob fuel st.
  apply (pump_loop_rule J job_work (fun s => f s = f st)
                        (fun o => f (final o) = f st));
    try (intros; assumption); try reflexivity.
  - intros s Hs _. specialize (Hrefill s).
    destruct (refill s) as [s' | o]; cbn [step_meets] in *; congruence.
  - intros s res s' Hs E. rewrite (Hjob _ _ _ E). exact Hs.
  - intros s Hs. specialize (Hdrain s).
    destruct (drain s) as [s' | o]; cbn [step_meets] in *; congruence.
Qed.

Local Ltac phase_keeps :=
  let s := fresh "s" in
  intros s;
  unfold refill_file, refill_socket, drain_socket, drain_file, drain_none;
  repeat match goal with
         | |- context [match ?x with _ => _ end] => destruct x
         end;
  reflexivity.

Local Ltac job_keeps_field :=
  let E := fresh "E" in
  intros ? ? ? E;
  destruct (rs_job_iter_frame _ _ _ _ _ E)
    as (? & ? & _ & _ & _ & ? & ? & ? & ? & _);
  assumption.

(** X8.  Each loop uses its own source and sink and nothing else:
    [send_signature] and [send_delta] never read from the socket and never
    write the new file; [recv_signature] never writes to the socket, never
    reads the file and never writes the new file;
    [recv_delta_and_patch_file] never writes to the socket and never reads
    the file through the loop. *)
Theorem loops_keep_to_their_ends
        (fuel : nat) (lib : rs_result) (name_fits : bool) (st : pump J) :
  (sock_in (final (send_signature job_work cap lib fuel st)) = sock_in st /\
   new (final (send_signature job_work cap lib fuel st)) = new st) /\
  (sock_in (final (send_delta job_work cap lib fuel st)) = sock_in st /\
   new (final (send_delta job_work cap lib fuel st)) = new st) /\
  (sock_out (final (recv_signature job_work fuel st)) = sock_out st /\
   file (final (recv_signature job_work fuel st)) = file st /\
   new (final (recv_signature job_work fuel st)) = new st) /\
  (sock_out (final (recv_delta_and_patch_file job_work cap name_fits fuel st))
   = sock_out st /\
   file (final (recv_delta_and_patch_file job_work cap name_fits fuel st))
   = file st).
Proof.
  unfold send_signature, send_delta, recv_signature, recv_delta_and_patch_file.
  repeat split;
    try (destruct (negb (is_done lib)); [reflexivity|]);
    try (destruct (negb name_fits); [reflexivity|]);
    match goal with
    | |- ?f (final (pump_loop _ _ _ _ (set_bufs ?s ?b))) = _ =>
        change (f s) with (f (set_bufs s b));
        apply (loop_keeps_field _ f); [phase_keeps | phase_keeps | job_keeps_field]
    end.
Qed.

End OwnEnds.

(** ** The receiving loops on a well-formed stream *)

Section Gather.

Variable cap : nat.

Local Abbreviation state := (pump (list byte)).

(** One refill and one job call on a message that fits: the job has taken
    the payload, the window is empty again, and [eof_in] is the message's
    flag. *)
Lemma gather_step (st : state) (q rest : list byte) (e : Z) :
  idle cap st ->
  length q <= BUFFER_SIZE -> length q <= cap ->
  r_wire (sock_in st) = frame_bytes q e ++ rest ->
  exists st1 st2,
    refill_socket st = Continue st1 /\
    rs_job_iter gather_work st1
    = Some (if (flag_bit e =? 0)%Z then RS_BLOCKED else RS_DONE, st2) /\
    job st2 = job st ++ q /\
    length (in_buf st2) = cap /\
    avail_in (bufs st2) = 0 /\
    eof_in (bufs st2) = flag_bit e /\
    next_out (bufs st2) = 0 /\
    sock_in st2 = quiet_r rest /\
    new st2 = new st.
Proof.
  intros (Hlen & Hav & Heof & Hno & Hq) Hq1 Hq2 Hwire.
  assert (Hsock : sock_in st = quiet_r (frame_bytes q e ++ rest)).
  { destruct (sock_in st) as [sc w]. cbn in *. now subst. }
  destruct (recv_message_quiet q rest (in_buf st) 0 e Hq1 ltac:(lia))
    as (m & Hst & Hrecv).
  set (ib := if 0 <? length q then m else in_buf st) in *.
  assert (Hibl : length ib = cap).
  { unfold ib. destruct (0 <? length q); [|exact Hlen].
    now rewrite (store_length _ _ _ _ Hst). }
  assert (Hload : Mem.load ib 0 (length q) = Some q).
  { unfold ib. destruct (Nat.ltb_spec 0 (length q)) as [Hpos | Hzero].
    - now apply (load_store_same (in_buf st)).
    - destruct q; [|cbn in Hzero; lia]. now rewrite load_fits by (cbn; lia). }
  unfold refill_socket, move_tail. rewrite Hav. cbn [Nat.ltb Nat.leb].
  rewrite Hsock, Hrecv. cbn [Z.eqb].
  eexists. eexists. split; [reflexivity|].
  match goal with |- rs_job_iter _ ?s = _ /\ _ => set (st1 := s) end.
  assert (Hw : window st1 = Some q).
  { unfold window, st1. cbn. rewrite Hav. exact Hload. }
  pose proof (rs_job_iter_explicit (list byte) gather_work st1 q []
                (if (flag_bit e =? 0)%Z then RS_BLOCKED else RS_DONE)
                (length q) (job st ++ q) Hw) as Hit.
  cbn [length Nat.add] in Hit.
  rewrite Hit.
  - split; [reflexivity|]. cbn. rewrite Hav, Hno.
    repeat split; try assumption; try lia; reflexivity.
  - reflexivity.
  - unfold st1. cbn. lia.
  - lia.
  - unfold st1. cbn. lia.
Qed.

Variable drain : state -> step state.
Hypothesis drain_nothing :
  forall s, next_out (bufs s) = 0 -> drain s = Continue s.

Lemma gather_loop (fs : list (list byte * Z)) :
  forall (st : state) (p rest : list byte) (e : Z),
    idle cap st ->
    Forall (inner_frame cap) fs ->
    length p <= BUFFER_SIZE -> length p <= cap -> e <> 0%Z ->
    r_wire (sock_in st) = frames_wire (fs ++ [(p, e)]) ++ rest ->
    exists st',
      pump_loop gather_work (@refill_socket (list byte)) drain (S (length fs)) st
      = Returned 0 st' /\
      job st' = job st ++ flat_map fst fs ++ p /\
      sock_in st' = quiet_r rest.
Proof.
  induction fs as [|[q eq] fs IH];
    intros st p rest e Hidle Hfs Hp1 Hp2 He Hwire.
  - cbn [app frames_wire flat_map fst snd] in Hwire.
    rewrite app_nil_r in Hwire.
    destruct (gather_step st p rest e Hidle Hp1 Hp2 Hwire)
      as (st1 & st2 & Hr & Hj & Hjob & _ & _ & _ & Hno & Hsock & _).
    destruct Hidle as (_ & _ & Heof & _).
    cbn [length pump_loop]. rewrite Heof. cbn [Z.eqb]. rewrite Hr, Hj.
    unfold flag_bit. destruct (Z.eqb_spec e 0) as [|_]; [contradiction|].
    cbn [Z.eqb is_done is_blocked negb andb].
    rewrite (drain_nothing st2 Hno).
    exists st2. cbn [flat_map app]. now repeat split.
  - apply Forall_cons_iff in Hfs as [(Hq1 & Hq2 & Hqe) Hfs].
    cbn [fst snd] in Hq1, Hq2, Hqe. subst eq.
    cbn [app frames_wire flat_map fst snd] in Hwire.
    rewrite <- app_assoc in Hwire.
    destruct (gather_step st q _ 0%Z Hidle Hq1 Hq2 Hwire)
      as (st1 & st2 & Hr & Hj & Hjob & Hl2 & Ha2 & He2 & Hno & Hsock & _).
    pose proof Hidle as (_ & _ & Heof & _).
    cbn [length]. cbn [pump_loop]. rewrite Heof. cbn [Z.eqb]. rewrite Hr, Hj.
    cbn [flag_bit Z.eqb is_done is_blocked negb andb].
    rewrite (drain_nothing st2 Hno).
    assert (Hidle2 : idle cap st2).
    { repeat split; try assumption. now rewrite Hsock. }
    assert (Hwire2 : r_wire (sock_in st2)
                     = frames_wire (fs ++ [(p, e)]) ++ rest)
      by now rewrite Hsock.
    destruct (IH st2 p rest e Hidle2 Hfs Hp1 Hp2 He Hwire2)
      as (st' & Hrun & Hjob' & Hsock').
    exists st'. split; [exact Hrun|]. split; [|exact Hsock'].
    rewrite Hjob', Hjob. cbn [flat_map fst]. now rewrite <- !app_assoc.
Qed.

End Gather.

(** X9.  The receiving loops on a well-formed stream: messages with the flag
    clear followed by one with the flag set, each fitting the array, then
    anything.  A job that takes all it is offered is offered exactly the
    payloads, in order and without gap, up to and including the flagged
    message; the function then returns 0, having read not one byte past
    that message. *)
Theorem receiving_loops_gather
        (cap : nat) (fs : list (list byte * Z)) (p rest : list byte) (e : Z)
        (st : pump (list byte)) :
  Forall (inner_frame cap) fs ->
  length p <= BUFFER_SIZE -> length p <= cap -> e <> 0%Z ->
  length (in_buf st) = cap ->
  sock_in st = quiet_r (frames_wire (fs ++ [(p, e)]) ++ rest) ->
  (exists st',
      recv_signature gather_work (S (length fs)) st = Returned 0 st' /\
      job st' = job st ++ flat_map fst fs ++ p /\
      sock_in st' = quiet_r rest) /\
  (exists st',
      recv_delta_and_patch_file gather_work cap true (S (length fs)) st
      = Returned 0 st' /\
      job st' = job st ++ flat_map fst fs ++ p /\
      sock_in st' = quiet_r rest).
Proof.
  intros Hfs Hp1 Hp2 He Hlen Hsock.
  unfold recv_signature, recv_delta_and_patch_file. cbn [negb].
  split.
  - refine (gather_loop cap (@drain_none (list byte)) _ fs
                        (set_bufs st bufs_in_only) p rest e _ Hfs Hp1 Hp2 He _).
    + reflexivity.
    + repeat split; cbn; try assumption; now rewrite Hsock.
    + cbn. now rewrite Hsock.
  - refine (gather_loop cap (drain_file cap) _ fs
                        (set_bufs st (bufs_in_out cap)) p rest e _ Hfs Hp1 Hp2
                        He _).
    + intros s Hs. unfold drain_file. now rewrite Hs.
    + repeat split; cbn; try assumption; now rewrite Hsock.
    + cbn. now rewrite Hsock.
Qed.

Lemma receiving_loops_gather_witness :
  let st := world [] 4 (file_of []) quiet_new
                  (quiet_r (frames_wire ([([x61; x62], 0%Z); ([], 0%Z)]
                                         ++ [([x63], 1%Z)]) ++ [x00; x09]))
                  (quiet_w []) in
  (exists st',
      recv_signature gather_work 3 st = Returned 0 st' /\
      job st' = [] ++ [x61; x62] ++ [x63] /\
      sock_in st' = quiet_r [x00; x09]) /\
  (exists st',
      recv_delta_and_patch_file gather_work 4 true 3 st = Returned 0 st' /\
      job st' = [] ++ [x61; x62] ++ [x63] /\
      sock_in st' = quiet_r [x00; x09]).
Proof.
  intros st.
  apply (receiving_loops_gather 4 [([x61; x62], 0%Z); ([], 0%Z)] [x63]
                                [x00; x09] 1%Z st).
  - repeat (apply Forall_cons;
            [split; [apply Nat.leb_le; vm_compute; reflexivity
                    | split; [simpl; lia | reflexivity]] |]).
    apply Forall_nil.
  - apply Nat.leb_le. vm_compute. reflexivity.
  - simpl. lia.
  - discriminate.
  - reflexivity.
  - reflexivity.
Defined.

(** ** Connection setup *)

Lemma sys_result_open (k k' : kernel) (c : netcall) (r : Z) :
  sys_result k c = (r, k') -> k_open k' = k_open k.
Proof.
  unfold sys_result. destruct (k_script k); intros E; now injection E as _ <-.
Qed.

Lemma sys_new_fd_open (k k' : kernel) (c : netcall) (r : Z) :
  sys_new_fd k c = (r, k') ->
  (r = (-1)%Z /\ k_open k' = k_open k) \/
  (r <> (-1)%Z /\ k_open k' = r :: k_open k).
Proof.
  unfold sys_new_fd. destruct (sys_result k c) as [r0 k0] eqn:E0.
  apply sys_result_open in E0.
  destruct (Z.eqb_spec r0 (-1)); intros E; injection E as <- <-.
  - left. now split.
  - right. cbn. now rewrite E0.
Qed.

Lemma drop_fd_head (fd : Z) (l : list Z) : drop_fd fd (fd :: l) = l.
Proof. cbn. now rewrite Z.eqb_refl. Qed.

Lemma connect_to_server_open (k : kernel) :
  (fst (connect_to_server k) = (-1)%Z /\
   k_open (snd (connect_to_server k)) = k_open k) \/
  (fst (connect_to_server k) <> (-1)%Z /\
   k_open (snd (connect_to_server k))
   = fst (connect_to_server k) :: k_open k).
Proof.
  unfold connect_to_server.
  destruct (sys_new_fd k NetSocket) as [sock k1] eqn:E1.
  destruct (sys_new_fd_open _ _ _ _ E1) as [[Hs H1] | [Hs H1]].
  - subst sock. cbn. now left.
  - destruct (Z.eqb_spec sock (-1)); [contradiction|].
    destruct (sys_result k1 (NetConnect sock PORT)) as [ret k2] eqn:E2.
    apply sys_result_open in E2.
    destruct (Z.eqb_spec ret (-1)); cbn.
    + left. split; [reflexivity|]. now rewrite E2, H1, drop_fd_head.
    + right. split; [assumption|]. now rewrite E2.
Qed.

Lemma accept_connection_open (k : kernel) :
  (fst (accept_connection k) = (-1)%Z /\
   k_open (snd (accept_connection k)) = k_open k) \/
  (fst (accept_connection k) <> (-1)%Z /\
   k_open (snd (accept_connection k))
   = fst (accept_connection k) :: k_open k).
Proof.
  unfold accept_connection.
  destruct (sys_new_fd k NetSocket) as [sock k1] eqn:E1.
  destruct (sys_new_fd_open _ _ _ _ E1) as [[Hs H1] | [Hs H1]].
  - subst sock. cbn. now left.
  - destruct (Z.eqb_spec sock (-1)); [contradiction|].
    destruct (sys_result _ (NetBind sock PORT)) as [r2 k2] eqn:E2.
    apply sys_result_open in E2. cbn [k_open] in E2.
    destruct (Z.eqb_spec r2 (-1)).
    { left. cbn. split; [reflexivity|]. now rewrite E2, H1, drop_fd_head. }
    destruct (sys_result k2 (NetListen sock 1)) as [r3 k3] eqn:E3.
    apply sys_result_open in E3.
    destruct (Z.eqb_spec r3 (-1)).
    { left. cbn. split; [reflexivity|]. now rewrite E3, E2, H1, drop_fd_head. }
    destruct (sys_new_fd k3 (NetAccept sock)) as [conn k4] eqn:E4.
    destruct (sys_new_fd_open _ _ _ _ E4) as [[Hc H4] | [Hc H4]].
    + subst conn. cbn. left. split; [reflexivity|].
      now rewrite H4, E3, E2, H1, drop_fd_head.
    + destruct (Z.eqb_spec conn (-1)); [contradiction|].
      right. cbn. split; [assumption|].
      rewrite H4, E3, E2, H1. cbn [drop_fd].
      destruct (Z.eqb_spec conn sock) as [-> | _]; [reflexivity|].
      now rewrite Z.eqb_refl.
Qed.

(** X10.  [connect_to_server] returns -1 or a new descriptor, and leaks
    none: when it returns -1 the process holds the descriptors it held
    before (a socket it created was closed), and when it returns a
    descriptor that one is the only addition. *)
Theorem connect_to_server_keeps_no_socket (k : kernel) :
  match connect_to_server k with
  | (sock, k') =>
      (sock = (-1)%Z /\ k_open k' = k_open k) \/
      (sock <> (-1)%Z /\ k_open k' = sock :: k_open k)
  end.
Proof.
  pose proof (connect_to_server_open k) as H.
  destruct (connect_to_server k) as [sock k']. exact H.
Qed.

(** X11.  [accept_connection] returns -1 or the accepted connection, and
    the listening socket is closed on every path: when it returns -1 the
    process holds the descriptors it held before, and when it returns a
    connection that one is the only addition. *)
Theorem accept_connection_closes_listener (k : kernel) :
  match accept_connection k with
  | (conn, k') =>
      (conn = (-1)%Z /\ k_open k' = k_open k) \/
      (conn <> (-1)%Z /\ k_open k' = conn :: k_open k)
  end.
Proof.
  pose proof (accept_connection_open k) as H.
  destruct (accept_connection k) as [conn k']. exact H.
Qed.

(** ** The two programs *)

Section ProgramExits.

Variable J : Type.
Variable job_work : J -> list byte -> Z -> nat -> rs_result * nat * list byte * J.
Variable cap : nat.

Lemma patch_code_ok (name_fits : bool) (fuel : nat) (st : pump J) :
  code_ok (recv_delta_and_patch_file job_work cap name_fits fuel st).
Proof.
  unfold recv_delta_and_patch_file.
  destruct (negb name_fits); [now left|].
  apply loop_code_ok; [apply refill_socket_record | apply drain_file_record].
Qed.

Lemma delta_code_ok (lib : rs_result) (fuel : nat) (st : pump J) :
  code_ok (send_delta job_work cap lib fuel st).
Proof.
  unfold send_delta.
  destruct (negb (is_done lib)); [now left|].
  apply loop_code_ok; [apply refill_file_record | apply drain_socket_record].
Qed.

(** The last steps of both programs: the second function has returned. *)
Lemma second_phase_exit (k0 k1 : kernel) (sock ret : Z) (st : pump J) :
  k_open k1 = sock :: k_open k0 ->
  code_ok (Returned ret st) ->
  exit_ok k0
    (if (ret =? -1)%Z then Returned EXIT_FAILURE (sys_close k1 sock, st)
     else Returned EXIT_SUCCESS (k1, st)).
Proof.
  intros Hopen Hcode.
  destruct (Z.eqb_spec ret (-1)) as [-> | Hret]; cbn.
  - left. split; [reflexivity|]. now rewrite Hopen, drop_fd_head.
  - right. split; [reflexivity|]. split; [now exists sock|].
    destruct Hcode as [? | [_ Hdone]]; [contradiction | exact Hdone].
Qed.

(** X12.  The client program exits with [EXIT_FAILURE] or [EXIT_SUCCESS].
    On a failure, whichever step failed, it holds no descriptor it did not
    hold at the start: the connection was closed.  It exits with success
    only after both functions returned 0, the last result of the patch job
    being [RS_DONE]; the connection is then still open. *)
Theorem client_main_exit
        (argc : Z) (sig_args : rs_result) (name_fits : bool) (patch_job : J)
        (fuel : nat) (k : kernel) (st : pump J) :
  exit_ok k (client_main job_work cap argc sig_args name_fits patch_job
                         fuel k st).
Proof.
  unfold client_main.
  destruct (argc <? 2)%Z; [left; now split|].
  pose proof (connect_to_server_open k) as Hconn.
  destruct (connect_to_server k) as [sock k1]. cbn [fst snd] in Hconn.
  destruct Hconn as [[-> Hopen] | [Hsock Hopen]]; [left; now split|].
  destruct (Z.eqb_spec sock (-1)); [contradiction|].
  destruct (send_signature job_work cap sig_args fuel st)
    as [ret st1 | c st1 | st1 | st1]; try exact I.
  destruct (Z.eqb_spec ret (-1)) as [-> | Hret].
  - left. split; [reflexivity|]. cbn. now rewrite Hopen, drop_fd_head.
  - pose proof (patch_code_ok name_fits fuel (set_job st1 patch_job)) as Hc.
    destruct (recv_delta_and_patch_file job_work cap name_fits fuel
                                        (set_job st1 patch_job))
      as [ret2 st2 | c st2 | st2 | st2]; try exact I.
    now apply (second_phase_exit k k1 sock).
Qed.

(** X13.  The server program likewise: it exits with [EXIT_FAILURE] or
    [EXIT_SUCCESS]; on a failure it holds no descriptor it did not hold at
    the start (the listening socket and the connection were closed); it
    exits with success only after both functions returned 0, the last
    result of the delta job being [RS_DONE], with the connection still
    open and the listening socket closed. *)
Theorem server_main_exit
        (argc : Z) (build_hash_table : J -> rs_result) (delta_begin : J -> J)
        (fuel : nat) (k : kernel) (st : pump J) :
  exit_ok k (server_main job_work cap argc build_hash_table delta_begin
                         fuel k st).
Proof.
  unfold server_main.
  destruct (argc <? 2)%Z; [left; now split|].
  pose proof (accept_connection_open k) as Hconn.
  destruct (accept_connection k) as [sock k1]. cbn [fst snd] in Hconn.
  destruct Hconn as [[-> Hopen] | [Hsock Hopen]]; [left; now split|].
  destruct (Z.eqb_spec sock (-1)); [contradiction|].
  destruct (recv_signature job_work fuel st)
    as [ret st1 | c st1 | st1 | st1]; try exact I.
  destruct (Z.eqb_spec ret (-1)) as [-> | Hret].
  - left. split; [reflexivity|]. cbn. now rewrite Hopen, drop_fd_head.
  - pose proof (delta_code_ok (build_hash_table (job st1)) fuel
                             (set_job st1 (delta_begin (job st1)))) as Hc.
    destruct (send_delta job_work cap (build_hash_table (job st1)) fuel
                         (set_job st1 (delta_begin (job st1))))
      as [ret2 st2 | c st2 | st2 | st2]; try exact I.
    now apply (second_phase_exit k k1 sock).
Qed.

End ProgramExits.

(** ** Failing pulls *)

Lemma recv_message_unassigned (s s' : rsock) (mem mem' : list byte)
      (off : nat) (ret : Z) :
  recv_message s mem off = RecvRet ret None mem' s' -> ret = (-1)%Z.
Proof.
  unfold recv_message.
  destruct (sys_read s 2) as [[r hdr] s1].
  destruct (negb (r =? 2)%Z); [intros E; now injection E|].
  destruct hdr as [|b0 [|b1 [|? ?]]]; try (intros E; now injection E).
  destruct (0 <? _); [|discriminate].
  destruct (sys_read s1 _) as [[r2 data] s2].
  destruct (Mem.store _ _ _); [|discriminate].
  destruct (negb _); discriminate.
Qed.

Lemma failed_pull_last (l : list event) (e : event) :
  existsb is_failed_pull l = false -> is_failed_pull e = false ->
  existsb is_failed_pull (l ++ [e]) = false.
Proof. intros Hl He. rewrite existsb_app, Hl. cbn. now rewrite He. Qed.

Section FailingPulls.

Variable J : Type.
Variable job_work : J -> list byte -> Z -> nat -> rs_result * nat * list byte * J.
Variable cap : nat.

(** A phase keeps the record free of failed pulls, or ends the run as
    [stops_at_failed_pull] says. *)
Local Abbreviation pulls_ok st ph :=
  (existsb is_failed_pull (log st) = false ->
   step_meets (fun st' : pump J => existsb is_failed_pull (log st') = false)
              (@stops_at_failed_pull J) ph).

Lemma refill_file_pulls (chk : bool) (st : pump J) :
  pulls_ok st (refill_file cap chk st).
Proof.
  intros Hlog. unfold refill_file.
  destruct (move_tail st); [|now left].
  destruct (fread _ _) as [got f].
  destruct (Mem.store _ _ _); [|now left].
  unfold ferror.
  destruct (length got =? 0) eqn:En.
  - destruct (f_err f) eqn:Eerr; cbn [negb Z.eqb].
    + right. eexists (log st), _. cbn.
      split; [reflexivity|]. cbn [is_failed_pull]. rewrite En.
      now repeat split.
    + destruct (chk && _); cbn; left + idtac;
        apply failed_pull_last; try assumption; cbn; apply andb_false_r.
  - cbn. apply failed_pull_last; [assumption|]. cbn. now rewrite En.
Qed.

Lemma refill_socket_pulls (st : pump J) : pulls_ok st (refill_socket st).
Proof.
  intros Hlog. unfold refill_socket.
  destruct (move_tail st); [|now left].
  destruct (recv_message _ _ _) as [|ret cells ib s] eqn:E; [now left|].
  destruct cells as [[n e]|].
  - destruct (Z.eqb_spec ret (-1)) as [-> | Hret].
    + right. eexists (log st), _. cbn. now repeat split.
    + cbn. apply failed_pull_last; [assumption|]. cbn.
      now apply Z.eqb_neq.
  - apply recv_message_unassigned in E. subst ret.
    right. eexists (log st), _. cbn. now repeat split.
Qed.

Lemma drain_socket_pulls (st : pump J) : pulls_ok st (drain_socket cap st).
Proof.
  intros Hlog. unfold drain_socket.
  destruct (0 <? _); [|exact Hlog].
  destruct (send_message _ _ _ _) as [s | ret s]; [now left|].
  destruct (ret =? -1)%Z; cbn; left + idtac; now apply failed_pull_last.
Qed.

Lemma drain_file_pulls (st : pump J) : pulls_ok st (drain_file cap st).
Proof.
  intros Hlog. unfold drain_file.
  destruct (0 <? _); [|exact Hlog].
  destruct (fwrite _ _) as [n f].
  destruct (n =? 0); cbn; left + idtac; now apply failed_pull_last.
Qed.

Lemma drain_none_pulls (st : pump J) : pulls_ok st (drain_none st).
Proof. intros Hlog. exact Hlog. Qed.

Variables refill drain : pump J -> step (pump J).
Hypothesis refill_pulls : forall st, pulls_ok st (refill st).
Hypothesis drain_pulls : forall st, pulls_ok st (drain st).

Lemma loop_stops_at_failed_pull (fuel : nat) (st : pump J) :
  existsb is_failed_pull (log st) = false ->
  stops_at_failed_pull (pump_loop job_work refill drain fuel st).
Proof.
  apply (pump_loop_rule_res J job_work
           (fun s => existsb is_failed_pull (log s) = false)
           (fun _ s => existsb is_failed_pull (log s) = false)
           (@stops_at_failed_pull J)).
  - intros s Hs. now left.
  - intros s Hs. now left.
  - intros s Hs _. now apply refill_pulls.
  - intros s res s' Hs E.
    destruct (rs_job_iter_frame _ _ _ _ _ E) as (used & out & -> & _).
    now apply failed_pull_last.
  - intros s Hs. now left.
  - intros s Hs. specialize (drain_pulls s Hs).
    destruct (drain s) as [s' | o]; cbn [step_meets] in *;
      [now left | exact drain_pulls].
  - intros s Hs. now apply drain_pulls.
Qed.

End FailingPulls.

(** X14.  A pull that fails ends the run: when [fread] delivers nothing and
    the stream's error indicator is set, or [recv_message] returns -1, the
    function returns -1 at once; the failed pull is the last event of the
    run, the job is not called on what the pull left in the window, and
    nothing more is sent or written. *)
Theorem failed_pull_ends_the_run
        (J : Type)
        (job_work : J -> list byte -> Z -> nat -> rs_result * nat * list byte * J)
        (cap fuel : nat) (lib : rs_result) (name_fits : bool) (st : pump J) :
  existsb is_failed_pull (log st) = false ->
  stops_at_failed_pull (send_signature job_work cap lib fuel st) /\
  stops_at_failed_pull (send_delta job_work cap lib fuel st) /\
  stops_at_failed_pull (recv_signature job_work fuel st) /\
  stops_at_failed_pull (recv_delta_and_patch_file job_work cap name_fits fuel st).
Proof.
  intros Hlog.
  unfold send_signature, send_delta, recv_signature, recv_delta_and_patch_file.
  split; [|split; [|split]].
  - destruct (negb (is_done lib)); [now left|].
    apply loop_stops_at_failed_pull;
      [apply refill_file_pulls | apply drain_socket_pulls | exact Hlog].
  - destruct (negb (is_done lib)); [now left|].
    apply loop_stops_at_failed_pull;
      [apply refill_file_pulls | apply drain_socket_pulls | exact Hlog].
  - apply loop_stops_at_failed_pull;
      [apply refill_socket_pulls | apply drain_none_pulls | exact Hlog].
  - destruct (negb name_fits); [now left|].
    apply loop_stops_at_failed_pull;
      [apply refill_socket_pulls | apply drain_file_pulls | exact Hlog].
Qed.

Lemma failed_pull_ends_the_run_witness :
  let st := world 2 4
                  {| f_data := [x61; x62]; f_end := ReadError;
                     f_eof := false; f_err := false |}
                  quiet_new
                  (quiet_r (frame_bytes [x61] 0 ++ [x00]))
                  (quiet_w []) in
  stops_at_failed_pull (send_signature copy_work 4 RS_DONE 5 st) /\
  stops_at_failed_pull (send_delta copy_work 4 RS_DONE 5 st) /\
  stops_at_failed_pull (recv_signature copy_work 5 st) /\
  stops_at_failed_pull (recv_delta_and_patch_file copy_work 4 true 5 st).
Proof.
  intros st.
  apply (failed_pull_ends_the_run nat copy_work 4 5 RS_DONE true st).
  reflexivity.
Defined.

(** ** Memory safety of the sending loops *)

Section SendingSafety.

Variable J : Type.
Variable job_work : J -> list byte -> Z -> nat -> rs_result * nat * list byte * J.
Variable cap : nat.
Hypothesis job_keeps : keeps_to_windows job_work.

Lemma refill_file_in_arrays (chk : bool) (st : pump J) :
  in_arrays cap st ->
  step_meets (@in_arrays cap J) (@no_fault (pump J)) (refill_file cap chk st).
Proof.
  intros (Hin & Hout & Hwin & Hwout).
  assert (Hok : window_ok cap st) by (split; assumption).
  assert (Hw : window st = Some (firstn (avail_in (bufs st))
                                        (skipn (next_in (bufs st)) (in_buf st))))
    by (unfold window; apply load_fits; lia).
  destruct (refill_file_spec J cap chk st _ Hok Hw) as (Hib & Hsum & ->).
  destruct (length (fst (fread (file st) (cap - avail_in (bufs st)))) =? 0).
  - destruct (negb (ferror _ =? 0)%Z); [exact I|].
    destruct (chk && (feof _ =? 0)%Z); [exact I|].
    split; [exact Hib|]. split; [exact Hout|]. split; [cbn; lia | exact Hwout].
  - split; [exact Hib|]. split; [exact Hout|]. split; [cbn; lia | exact Hwout].
Qed.

Lemma job_in_arrays (st : pump J) :
  in_arrays cap st ->
  exists res st',
    rs_job_iter job_work st = Some (res, st') /\ in_arrays cap st'.
Proof.
  intros (Hin & Hout & Hwin & Hwout).
  assert (Hw : window st = Some (firstn (avail_in (bufs st))
                                        (skipn (next_in (bufs st)) (in_buf st))))
    by (unfold window; apply load_fits; lia).
  destruct (load_length _ _ _ _ Hw) as [Hlen _].
  pose proof (job_keeps (job st)
                (firstn (avail_in (bufs st))
                        (skipn (next_in (bufs st)) (in_buf st)))
                (eof_in (bufs st)) (avail_out (bufs st))) as Hk.
  destruct (job_work (job st) _ (eof_in (bufs st)) (avail_out (bufs st)))
    as [[[res used] out] j] eqn:Ej.
  destruct Hk as [Hused Hroom]. rewrite Hlen in Hused.
  assert (Hfit : next_out (bufs st) + length out <= length (out_buf st)) by lia.
  rewrite (rs_job_iter_explicit J job_work st _ out res used j Hw Ej
                                Hused Hroom Hfit).
  eexists _, _. split; [reflexivity|].
  split; [exact Hin|]. split; [|cbn; lia].
  cbn. rewrite !length_app, length_firstn, length_skipn. lia.
Qed.

Lemma drain_socket_in_arrays (st : pump J) :
  in_arrays cap st ->
  step_meets (@in_arrays cap J) (@no_fault (pump J)) (drain_socket cap st).
Proof.
  intros Hst. pose proof Hst as (Hin & Hout & Hwin & Hwout).
  unfold drain_socket.
  destruct (0 <? next_out (bufs st)); [|exact Hst].
  destruct (send_message _ _ _ _) as [s | ret s]; [exact I|].
  destruct (ret =? -1)%Z; [exact I|].
  split; [exact Hin|]. split; [exact Hout|]. split; [exact Hwin | cbn; lia].
Qed.

Lemma sending_loop_no_fault (chk : bool) (fuel : nat) (st : pump J) :
  in_arrays cap st ->
  no_fault (pump_loop job_work (refill_file cap chk) (drain_socket cap) fuel st).
Proof.
  revert st. induction fuel as [|fuel IH]; intros st Hst; cbn [pump_loop];
    [exact I|].
  assert (Hr : step_meets (@in_arrays cap J) (@no_fault (pump J))
                 (if (eof_in (bufs st) =? 0)%Z
                  then refill_file cap chk st else Continue st)).
  { destruct (eof_in (bufs st) =? 0)%Z;
      [now apply refill_file_in_arrays | exact Hst]. }
  destruct (if (eof_in (bufs st) =? 0)%Z
            then refill_file cap chk st else Continue st)
    as [st1 | o]; cbn [step_meets] in Hr; [|exact Hr].
  destruct (job_in_arrays st1 Hr) as (res & st2 & -> & Hst2).
  destruct (negb (is_done res) && negb (is_blocked res)); [exact I|].
  pose proof (drain_socket_in_arrays st2 Hst2) as Hd.
  destruct (drain_socket cap st2) as [st3 | o]; cbn [step_meets] in Hd;
    [|exact Hd].
  destruct (is_done res); [exact I | now apply IH].
Qed.

End SendingSafety.

(** X15.  [send_signature] and [send_delta] stay inside their arrays: with
    [in_buf] and [out_buf] of [cap] bytes and a job that consumes no more
    than its input window holds and stores no more than its output window
    takes, no run ends on an access outside an array, whatever the file,
    the socket and the number of iterations: the [memmove] of the tail, the
    target of [fread], the window handed to the job and the bytes handed to
    [send_message] all lie in [in_buf] or [out_buf]. *)
Theorem sending_loops_stay_in_arrays
        (J : Type)
        (job_work : J -> list byte -> Z -> nat -> rs_result * nat * list byte * J)
        (cap fuel : nat) (lib : rs_result) (st : pump J) :
  keeps_to_windows job_work ->
  length (in_buf st) = cap ->
  length (out_buf st) = cap ->
  no_fault (send_signature job_work cap lib fuel st) /\
  no_fault (send_delta job_work cap lib fuel st).
Proof.
  intros Hjob Hin Hout.
  assert (Hst : in_arrays cap (set_bufs st (bufs_in_out cap))).
  { split; [exact Hin|]. split; [exact Hout|]. cbn. lia. }
  unfold send_signature, send_delta.
  split; (destruct (negb (is_done lib)); [exact I|]);
    now apply sending_loop_no_fault.
Qed.

Lemma copy_work_keeps : keeps_to_windows copy_work.
Proof.
  intros r w eof room. unfold copy_work. split; [lia|].
  rewrite length_firstn. lia.
Qed.

Lemma sending_loops_stay_in_arrays_witness :
  let st := world 10 4 (file_of [x01; x02; x03; x04; x05; x06; x07; x08; x09; x0a])
                  quiet_new (quiet_r []) (quiet_w []) in
  no_fault (send_signature copy_work 4 RS_DONE 11 st) /\
  no_fault (send_delta copy_work 4 RS_DONE 11 st).
Proof.
  intros st.
  apply (sending_loops_stay_in_arrays nat copy_work 4 11 RS_DONE st).
  - exact copy_work_keeps.
  - reflexivity.
  - reflexivity.
Defined.

(** ** What the arrays held before *)

Lemma load_same (m1 m2 : list byte) (off n : nat) :
  length m1 = length m2 ->
  firstn n (skipn off m1) = firstn n (skipn off m2) ->
  Mem.load m1 off n = Mem.load m2 off n.
Proof. intros Hl Hw. unfold Mem.load. now rewrite Hl, Hw. Qed.

Lemma store_same (m1 m2 : list byte) (off : nat) (d : list byte) :
  length m1 = length m2 ->
  firstn off m1 = firstn off m2 ->
  match Mem.store m1 off d, Mem.store m2 off d with
  | Some a, Some b =>
      length a = length b /\
      firstn (off + length d) a = firstn (off + length d) b
  | None, None => True
  | _, _ => False
  end.
Proof.
  intros Hl Hw.
  destruct (Mem.store m1 off d) as [a|] eqn:E1;
    destruct (Mem.store m2 off d) as [b|] eqn:E2.
  - split.
    + rewrite (store_length _ _ _ _ E1), (store_length _ _ _ _ E2). exact Hl.
    + rewrite (store_firstn _ _ _ _ E1), (store_firstn _ _ _ _ E2).
      now rewrite Hw.
  - apply store_bound in E1. rewrite store_fits in E2 by lia. discriminate.
  - apply store_bound in E2. rewrite store_fits in E1 by lia. discriminate.
  - exact I.
Qed.

Lemma send_message_same (s : wsock) (m1 m2 : list byte) (len : nat) (eof : Z) :
  firstn len m1 = firstn len m2 ->
  send_message s m1 len eof = send_message s m2 len eof.
Proof. intros H. unfold send_message. now rewrite H. Qed.

Lemma recv_message_same (s : rsock) (m1 m2 : list byte) (off : nat) :
  length m1 = length m2 ->
  firstn off m1 = firstn off m2 ->
  match recv_message s m1 off, recv_message s m2 off with
  | RecvFault, RecvFault => True
  | RecvRet r1 c1 a s1, RecvRet r2 c2 b s2 =>
      r1 = r2 /\ c1 = c2 /\ s1 = s2 /\ length a = length b /\
      forall n e, r1 <> (-1)%Z -> c1 = Some (n, e) ->
                  firstn (off + n) a = firstn (off + n) b
  | _, _ => False
  end.
Proof.
  intros Hl Hw. unfold recv_message.
  destruct (sys_read s 2) as [[r hdr] s1].
  destruct (negb (r =? 2)%Z).
  { repeat split; try assumption. intros n e Hr. now elim Hr. }
  destruct hdr as [|b0 [|b1 [|? ?]]];
    try (repeat split; try assumption; intros n e Hr; now elim Hr).
  destruct (Nat.ltb_spec 0 (Z.to_nat (Z.shiftr (ntohs_bytes b0 b1) 1)))
    as [Hpos | Hzero].
  - destruct (sys_read s1 _) as [[r2 data] s2] eqn:Er.
    pose proof (store_same m1 m2 off data Hl Hw) as Hst.
    destruct (Mem.store m1 off data) as [a|];
      destruct (Mem.store m2 off data) as [b|]; try contradiction; [|exact I].
    destruct Hst as [Hlen Hfirst].
    destruct (Z.eqb_spec r2 (Z.of_nat (Z.to_nat (Z.shiftr (ntohs_bytes b0 b1) 1))))
      as [Hr | Hr]; cbn [negb].
    + repeat split; try assumption. intros n e _ E. injection E as <- _.
      destruct (sys_read_ret _ _ _ _ _ Er) as [[Hm _] | Hd]; [lia|].
      replace (Z.to_nat (Z.shiftr (ntohs_bytes b0 b1) 1)) with (length data)
        by lia.
      exact Hfirst.
    + repeat split; try assumption. intros n e Hne. now elim Hne.
  - repeat split; try assumption. intros n e _ E. injection E as <- _.
    replace (Z.to_nat (Z.shiftr (ntohs_bytes b0 b1) 1)) with 0 by lia.
    now rewrite Nat.add_0_r.
Qed.

Section ArrayContents.

Variable J : Type.
Variable job_work : J -> list byte -> Z -> nat -> rs_result * nat * list byte * J.
Variable cap : nat.

Local Ltac open_states st1 st2 H :=
  destruct st1 as [b1 ib1 ob1 j1 f1 n1 si1 so1 l1];
  destruct st2 as [b2 ib2 ob2 j2 f2 n2 si2 so2 l2];
  destruct H as [(Hb & Hj & Hf & Hn & Hsi & Hso & Hl & Hli & Hlo) [Hwin Hwout]];
  cbn [bufs in_buf out_buf job file new sock_in sock_out log] in *;
  subst b2 j2 f2 n2 si2 so2 l2.

Local Ltac same := repeat split; cbn; try assumption; try reflexivity.

Lemma move_tail_same (st1 st2 : pump J) :
  same_windows st1 st2 ->
  match move_tail st1, move_tail st2 with
  | Some a, Some b =>
      length a = length b /\
      firstn (avail_in (bufs st1)) a = firstn (avail_in (bufs st1)) b
  | None, None => True
  | _, _ => False
  end.
Proof.
  intros H. open_states st1 st2 H. unfold move_tail, Mem.move.
  cbn [bufs in_buf].
  destruct (Nat.ltb_spec 0 (avail_in b1)) as [Hpos | Hzero].
  - rewrite (load_same ib1 ib2 _ _ Hli Hwin).
    destruct (Mem.load ib2 (next_in b1) (avail_in b1)) as [d|] eqn:El;
      [|exact I].
    destruct (load_length _ _ _ _ El) as [Hd _].
    pose proof (store_same ib1 ib2 0 d Hli eq_refl) as Hst.
    cbn [Nat.add] in Hst. now rewrite Hd in Hst.
  - split; [exact Hli|]. replace (avail_in b1) with 0 by lia. reflexivity.
Qed.

Lemma refill_file_same (chk : bool) (st1 st2 : pump J) :
  same_windows st1 st2 ->
  same_step (refill_file cap chk st1) (refill_file cap chk st2).
Proof.
  intros H. pose proof (move_tail_same st1 st2 H) as Hmv.
  unfold refill_file.
  destruct (move_tail st1) as [a|]; destruct (move_tail st2) as [b|];
    try contradiction; [|now apply H].
  destruct Hmv as [Hlab Hab].
  open_states st1 st2 H. cbn [bufs in_buf file] in *.
  destruct (fread f1 (cap - avail_in b1)) as [got f].
  pose proof (store_same a b (avail_in b1) got Hlab Hab) as Hst.
  destruct (Mem.store a (avail_in b1) got) as [a'|];
    destruct (Mem.store b (avail_in b1) got) as [b'|];
    try contradiction; [|same].
  destruct Hst as [Hl' Hw'].
  destruct (length got =? 0).
  - destruct (negb (ferror f =? 0)%Z); [same|].
    destruct (chk && (feof f =? 0)%Z); same.
  - same.
Qed.

Lemma refill_socket_same (st1 st2 : pump J) :
  same_windows st1 st2 ->
  same_step (refill_socket st1) (refill_socket st2).
Proof.
  intros H. pose proof (move_tail_same st1 st2 H) as Hmv.
  unfold refill_socket.
  destruct (move_tail st1) as [a|]; destruct (move_tail st2) as [b|];
    try contradiction; [|now apply H].
  destruct Hmv as [Hlab Hab].
  open_states st1 st2 H. cbn [bufs in_buf sock_in] in *.
  pose proof (recv_message_same si1 a b (avail_in b1) Hlab Hab) as Hrc.
  destruct (recv_message si1 a (avail_in b1)) as [|r1 c1 a' s1];
    destruct (recv_message si1 b (avail_in b1)) as [|r2 c2 b' s2];
    try contradiction; [same|].
  destruct Hrc as (<- & <- & <- & Hl' & Hw').
  destruct c1 as [[n e]|]; [|same].
  destruct (Z.eqb_spec r1 (-1)) as [Hr | Hr]; [same|].
  same. now apply (Hw' n e).
Qed.

Lemma job_same (st1 st2 : pump J) :
  same_windows st1 st2 ->
  match rs_job_iter job_work st1, rs_job_iter job_work st2 with
  | Some (r1, a), Some (r2, b) => r1 = r2 /\ same_windows a b
  | None, None => True
  | _, _ => False
  end.
Proof.
  intros H. open_states st1 st2 H. unfold rs_job_iter.
  cbn [bufs in_buf out_buf job].
  rewrite (load_same ib1 ib2 _ _ Hli Hwin).
  destruct (Mem.load ib2 (next_in b1) (avail_in b1)) as [w|]; [|exact I].
  destruct (job_work j1 w (eof_in b1) (avail_out b1)) as [[[res used] out] j].
  destruct ((used <=? avail_in b1) && (length out <=? avail_out b1));
    [|exact I].
  pose proof (store_same ob1 ob2 (next_out b1) out Hlo Hwout) as Hst.
  destruct (Mem.store ob1 (next_out b1) out) as [a|];
    destruct (Mem.store ob2 (next_out b1) out) as [b|];
    try contradiction; [|exact I].
  destruct Hst as [Hl' Hw'].
  same.
  rewrite (Nat.add_comm (next_in b1) used).
  rewrite <- !(skipn_skipn used (next_in b1)).
  rewrite <- !skipn_firstn_comm. now rewrite Hwin.
Qed.

Lemma drain_socket_same (st1 st2 : pump J) :
  same_windows st1 st2 ->
  same_step (drain_socket cap st1) (drain_socket cap st2).
Proof.
  intros H. pose proof H as H'. open_states st1 st2 H'. unfold drain_socket.
  cbn [bufs out_buf sock_out] in *.
  destruct (0 <? next_out b1); [|exact H].
  rewrite (send_message_same so1 ob1 ob2 _ (eof_in b1) Hwout), Hwout.
  destruct (send_message so1 ob2 (next_out b1) (eof_in b1)) as [s | ret s];
    [same|].
  destruct (ret =? -1)%Z; same.
Qed.

Lemma drain_file_same (st1 st2 : pump J) :
  same_windows st1 st2 ->
  same_step (drain_file cap st1) (drain_file cap st2).
Proof.
  intros H. pose proof H as H'. open_states st1 st2 H'. unfold drain_file.
  cbn [bufs out_buf new] in *.
  destruct (0 <? next_out b1); [|exact H].
  rewrite Hwout.
  destruct (fwrite n1 (firstn (next_out b1) ob2)) as [n f].
  destruct (n =? 0); same.
Qed.

Lemma drain_none_same (st1 st2 : pump J) :
  same_windows st1 st2 -> same_step (drain_none st1) (drain_none st2).
Proof. intros H. exact H. Qed.

Variables refill drain : pump J -> step (pump J).
Hypothesis refill_same :
  forall st1 st2, same_windows st1 st2 -> same_step (refill st1) (refill st2).
Hypothesis drain_same :
  forall st1 st2, same_windows st1 st2 -> same_step (drain st1) (drain st2).

Lemma loop_same (fuel : nat) (st1 st2 : pump J) :
  same_windows st1 st2 ->
  same_run (pump_loop job_work refill drain fuel st1)
           (pump_loop job_work refill drain fuel st2).
Proof.
  revert st1 st2. induction fuel as [|fuel IH]; intros st1 st2 H;
    cbn [pump_loop]; [now apply H|].
  assert (Hr : same_step
                 (if (eof_in (bufs st1) =? 0)%Z then refill st1 else Continue st1)
                 (if (eof_in (bufs st2) =? 0)%Z then refill st2 else Continue st2)).
  { destruct H as [[Hb ?] ?]. rewrite <- Hb.
    destruct (eof_in (bufs st1) =? 0)%Z; [apply refill_same|]; now split. }
  destruct (if (eof_in (bufs st1) =? 0)%Z then refill st1 else Continue st1)
    as [a1 | o1];
    destruct (if (eof_in (bufs st2) =? 0)%Z then refill st2 else Continue st2)
    as [a2 | o2]; cbn [same_step] in Hr; try contradiction; [|exact Hr].
  pose proof (job_same a1 a2 Hr) as Hj.
  destruct (rs_job_iter job_work a1) as [[r1 c1]|];
    destruct (rs_job_iter job_work a2) as [[r2 c2]|];
    try contradiction; [|now apply Hr].
  destruct Hj as [<- Hc].
  destruct (negb (is_done r1) && negb (is_blocked r1));
    [split; [reflexivity | now apply Hc]|].
  pose proof (drain_same c1 c2 Hc) as Hd.
  destruct (drain c1) as [d1 | o1]; destruct (drain c2) as [d2 | o2];
    cbn [same_step] in Hd; try contradiction; [|exact Hd].
  destruct (is_done r1); [split; [reflexivity | now apply Hd] | now apply IH].
Qed.

End ArrayContents.

(** X16.  What a function does never depends on what [in_buf] and
    [out_buf] held when it was called (the arrays are static, and the second
    function of each program starts with what the first left in them): two
    runs from states that differ in the contents of the arrays only end the
    same way, with the same return value, the same record of calls, the same
    bytes sent and written, and the same job state. *)
Theorem array_contents_do_not_matter
        (J : Type)
        (job_work : J -> list byte -> Z -> nat -> rs_result * nat * list byte * J)
        (cap fuel : nat) (lib : rs_result) (name_fits : bool)
        (st1 st2 : pump J) :
  same_outside_arrays st1 st2 ->
  same_run (send_signature job_work cap lib fuel st1)
           (send_signature job_work cap lib fuel st2) /\
  same_run (send_delta job_work cap lib fuel st1)
           (send_delta job_work cap lib fuel st2) /\
  same_run (recv_signature job_work fuel st1)
           (recv_signature job_work fuel st2) /\
  same_run (recv_delta_and_patch_file job_work cap name_fits fuel st1)
           (recv_delta_and_patch_file job_work cap name_fits fuel st2).
Proof.
  intros H.
  assert (Hstart : forall b,
             avail_in b = 0 -> next_out b = 0 ->
             same_windows (set_bufs st1 b) (set_bufs st2 b)).
  { intros b Ha Ho.
    destruct H as (Hb & Hj & Hf & Hn & Hsi & Hso & Hl & Hli & Hlo).
    split; [repeat split; assumption|]. cbn. rewrite Ha, Ho. now split. }
  pose proof (Hstart (bufs_in_out cap) eq_refl eq_refl) as Hio.
  pose proof (Hstart bufs_in_only eq_refl eq_refl) as Hi.
  unfold send_signature, send_delta, recv_signature, recv_delta_and_patch_file.
  split; [|split; [|split]].
  - destruct (negb (is_done lib)); [now split|].
    apply loop_same;
      [apply refill_file_same | apply drain_socket_same | exact Hio].
  - destruct (negb (is_done lib)); [now split|].
    apply loop_same;
      [apply refill_file_same | apply drain_socket_same | exact Hio].
  - apply loop_same;
      [apply refill_socket_same | apply drain_none_same | exact Hi].
  - destruct (negb name_fits); [now split|].
    apply loop_same;
      [apply refill_socket_same | apply drain_file_same | exact Hio].
Qed.

Lemma array_contents_do_not_matter_witness :
  let st1 := world 3 4 (file_of [x61; x62; x63]) quiet_new
                   (quiet_r (frame_bytes [x64; x65] 1)) (quiet_w []) in
  let st2 := set_in_buf (set_out_buf st1 [x41; x42; x43; x44])
                        [x51; x52; x53; x54] in
  same_run (send_signature copy_work 4 RS_DONE 5 st1)
           (send_signature copy_work 4 RS_DONE 5 st2) /\
  same_run (send_delta copy_work 4 RS_DONE 5 st1)
           (send_delta copy_work 4 RS_DONE 5 st2) /\
  same_run (recv_signature copy_work 5 st1)
           (recv_signature copy_work 5 st2) /\
  same_run (recv_delta_and_patch_file copy_work 4 true 5 st1)
           (recv_delta_and_patch_file copy_work 4 true 5 st2).
Proof.
  intros st1 st2.
  apply (array_contents_do_not_matter nat copy_work 4 5 RS_DONE true st1 st2).
  unfold same_outside_arrays. cbn.
  split; [reflexivity|]. split; [reflexivity|]. split; [reflexivity|].
  split; [reflexivity|]. split; [reflexivity|]. split; [reflexivity|].
  split; [reflexivity|]. split; reflexivity.
Defined.
